(** * The xv6 physical page allocator with LRU swapping (kernel/kalloc.c)

    A shallow embedding of [kernel/kalloc.c]: the free list threaded
    through the free pages, the circular doubly linked LRU list over
    the [pages] table, the swap bitmap, the clock scan of [swapout] and
    the fault fill of [swapin].

    The embedding is sequential: every [acquire]/[release] pair of the
    source is balanced inside one function and no function calls
    another while it holds a lock, so on one hart the locks have no
    effect on the result and they are left out.  Undefined behaviour of
    the C code (a null or out-of-table [struct page *], signed overflow)
    is the outcome [Fault]; [panic] is the outcome [Panic].

    [user/test.c] is a user program over [malloc], [fork], [wait] and
    [printf] of the user library; no part of it is embedded here. *)

From stdpp Require Import base decidable option list gmap strings.
From Stdlib Require Import ZArith Lia.

Local Open Scope Z_scope.

(** ** Machine integers *)

Definition INT_MAX : Z := 2 ^ 31 - 1.
Definition INT_MIN : Z := - 2 ^ 31.

(** Conversion to [uint64] and to [uint]. *)
Definition wrap64 (x : Z) : Z := x mod 2 ^ 64.
Definition wrap32 (x : Z) : Z := x mod 2 ^ 32.

(** Conversion to [int]: the low 32 bits, read in two's complement. *)
Definition to_int (x : Z) : Z :=
  let y := x mod 2 ^ 32 in if y <? 2 ^ 31 then y else y - 2 ^ 32.

(** [x & ~m] *)
Definition clear_bits (x m : Z) : Z := Z.land x (Z.lnot m).

(** ** Constants of the headers

    Modelled from the spec: [riscv.h] is not among the sources.  The
    page size is the one the allocator's own comment gives (4096); a
    translation entry keeps its flags in the low 10 bits and the frame
    number above them; Valid is bit 0 and Accessed is bit 6 of the
    RISC-V entry format. *)

Definition PGSIZE : Z := 4096.
Definition PTE_V : Z := 1.
Definition PTE_A : Z := 64.
Definition PTE_FLAGS (pte : Z) : Z := Z.land pte 1023.
Definition PTE2PA (pte : Z) : Z := wrap64 (Z.shiftl (Z.shiftr pte 10) 12).
Definition PA2PTE (pa : Z) : Z := wrap64 (Z.shiftl (Z.shiftr pa 12) 10).

(** Modelled from the spec: [PGROUNDUP] of [riscv.h] rounds a [uint64]
    up to the next page boundary, [(sz + PGSIZE - 1) & ~(PGSIZE - 1)]. *)
Definition PGROUNDUP (sz : Z) : Z :=
  clear_bits (wrap64 (sz + PGSIZE - 1)) (PGSIZE - 1).

(** What the build fixes and the sources do not show: the first address
    after the kernel ([end]), the top of physical memory, the number of
    swap slots ([SWAPMAX / (PGSIZE / BSIZE)]) and the page-table walk.

    Modelled from the spec: [walk pagetable va 0] is the external
    translation lookup; it yields the address of the entry or 0.  With
    its third argument 0 it allocates nothing, and nothing below writes
    an interior page-table node, so it is a fixed function here. *)
Record machine := {
  kend : Z;
  PHYSTOP : Z;
  SWAP_PAGES : Z;
  walk : Z → Z → Z
}.

(** ** Data *)

(** [struct page *]: [None] is the null pointer, [Some i] is [&pages[i]]. *)
Definition ptr : Type := option nat.

(** Modelled from the spec: [struct page] is declared in a header that
    is not among the sources; it has the owner page table, the virtual
    address and the two links that [kalloc.c] reads and writes. *)
Record page := Page {
  pagetable : Z;
  vaddr : Z;
  next : ptr;
  prev : ptr
}.

Definition page_set_next (v : ptr) (p : page) : page :=
  Page (pagetable p) (vaddr p) v (prev p).
Definition page_set_prev (v : ptr) (p : page) : page :=
  Page (pagetable p) (vaddr p) (next p) v.
Definition page_set_owner (pt va : Z) (p : page) : page :=
  Page pt va (next p) (prev p).

#[global] Instance page_eq_dec : EqDecision page.
Proof. solve_decision. Defined.

(** The state the allocator works on.  Physical memory is kept per page
    (a page address maps to its 4096 bytes), translation entries are
    kept per entry address, the swap area per slot.  [swapouts] is a
    ghost counter of the calls of [swapout]; no code reads it. *)
Record kstate := KState {
  freelist : Z;
  mem : gmap Z (list Z);
  pages : list page;
  page_lru_head : ptr;
  num_lru_pages : Z;
  swap_bitmap : list Z;
  ptes : gmap Z Z;
  swapdisk : gmap Z (list Z);
  console : list string;
  swapouts : nat
}.

Definition set_freelist (v : Z) (s : kstate) : kstate :=
  KState v (mem s) (pages s) (page_lru_head s) (num_lru_pages s)
         (swap_bitmap s) (ptes s) (swapdisk s) (console s) (swapouts s).
Definition set_mem (v : gmap Z (list Z)) (s : kstate) : kstate :=
  KState (freelist s) v (pages s) (page_lru_head s) (num_lru_pages s)
         (swap_bitmap s) (ptes s) (swapdisk s) (console s) (swapouts s).
Definition set_pages (v : list page) (s : kstate) : kstate :=
  KState (freelist s) (mem s) v (page_lru_head s) (num_lru_pages s)
         (swap_bitmap s) (ptes s) (swapdisk s) (console s) (swapouts s).
Definition set_page_lru_head (v : ptr) (s : kstate) : kstate :=
  KState (freelist s) (mem s) (pages s) v (num_lru_pages s)
         (swap_bitmap s) (ptes s) (swapdisk s) (console s) (swapouts s).
Definition set_num_lru_pages (v : Z) (s : kstate) : kstate :=
  KState (freelist s) (mem s) (pages s) (page_lru_head s) v
         (swap_bitmap s) (ptes s) (swapdisk s) (console s) (swapouts s).
Definition set_swap_bitmap (v : list Z) (s : kstate) : kstate :=
  KState (freelist s) (mem s) (pages s) (page_lru_head s) (num_lru_pages s)
         v (ptes s) (swapdisk s) (console s) (swapouts s).
Definition set_ptes (v : gmap Z Z) (s : kstate) : kstate :=
  KState (freelist s) (mem s) (pages s) (page_lru_head s) (num_lru_pages s)
         (swap_bitmap s) v (swapdisk s) (console s) (swapouts s).
Definition set_swapdisk (v : gmap Z (list Z)) (s : kstate) : kstate :=
  KState (freelist s) (mem s) (pages s) (page_lru_head s) (num_lru_pages s)
         (swap_bitmap s) (ptes s) v (console s) (swapouts s).
Definition set_console (v : list string) (s : kstate) : kstate :=
  KState (freelist s) (mem s) (pages s) (page_lru_head s) (num_lru_pages s)
         (swap_bitmap s) (ptes s) (swapdisk s) v (swapouts s).
Definition set_swapouts (v : nat) (s : kstate) : kstate :=
  KState (freelist s) (mem s) (pages s) (page_lru_head s) (num_lru_pages s)
         (swap_bitmap s) (ptes s) (swapdisk s) (console s) v.

(** ** The monad of kernel code: state, [panic], undefined behaviour *)

Inductive outcome (A : Type) : Type :=
| Done (a : A) (s : kstate)
| Panic (msg : string)
| Fault
| Timeout.
Arguments Done {A} a s.
Arguments Panic {A} msg.
Arguments Fault {A}.
Arguments Timeout {A}.

Definition K (A : Type) : Type := kstate → outcome A.

Definition ret {A} (a : A) : K A := λ s, Done a s.
Definition bind {A B} (m : K A) (k : A → K B) : K B :=
  λ s, match m s with
       | Done a s' => k a s'
       | Panic msg => Panic msg
       | Fault => Fault
       | Timeout => Timeout
       end.
Definition panic {A} (msg : string) : K A := λ _, Panic msg.
Definition fault {A} : K A := λ _, Fault.
Definition timeout {A} : K A := λ _, Timeout.
Definition gets {A} (f : kstate → A) : K A := λ s, Done (f s) s.
Definition modify (f : kstate → kstate) : K unit := λ s, Done tt (f s).

Notation "'do' x <- m ; k" := (bind m (λ x, k))
  (at level 10, x name, m at level 100, k at level 200).
Notation "'run' m ; k" := (bind m (λ _, k))
  (at level 10, m at level 100, k at level 200).

(** [x++] and [x--] on an [int]; overflow is undefined behaviour. *)
Definition int_incr (x : Z) : K Z :=
  if x <? INT_MAX then ret (x + 1) else fault.
Definition int_decr (x : Z) : K Z :=
  if INT_MIN <? x then ret (x - 1) else fault.

(** [x << n] on a non-negative [int]. *)
Definition int_shl (x n : Z) : K Z :=
  if (0 <=? x) && (Z.shiftl x n <=? INT_MAX) then ret (Z.shiftl x n) else fault.

(** ** Physical memory, translation entries, the swap area *)

Definition fill (c : Z) : list Z := replicate (Z.to_nat PGSIZE) c.

Definition load_page (s : kstate) (pa : Z) : list Z :=
  default (fill 0) (mem s !! pa).

(** [memset(pa, c, PGSIZE)] *)
Definition memset (pa c : Z) : K unit :=
  modify (λ s, set_mem (<[pa := fill c]> (mem s)) s).

(** Little-endian bytes of a 64-bit word, as the RISC-V stores them. *)
Fixpoint le_bytes (n : nat) (v : Z) : list Z :=
  match n with
  | O => []
  | S n' => v mod 256 :: le_bytes n' (v / 256)
  end.
Definition le_value (l : list Z) : Z := foldr (λ b acc, b + 256 * acc) 0 l.

(** [r->next] for a [struct run *r]: the first word of the free page. *)
Definition run_next (s : kstate) (r : Z) : Z := le_value (take 8 (load_page s r)).
Definition set_run_next (r v : Z) : K unit :=
  modify (λ s, set_mem (<[r := le_bytes 8 v ++ drop 8 (load_page s r)]> (mem s)) s).

(** [*pte] and [*pte = v]; a null entry pointer cannot be followed. *)
Definition read_pte (a : Z) : K Z :=
  if a =? 0 then fault else gets (λ s, default 0 (ptes s !! a)).
Definition write_pte (a v : Z) : K unit :=
  if a =? 0 then fault else modify (λ s, set_ptes (<[a := v]> (ptes s)) s).

(** Modelled from the spec: [swapwrite] and [swapread] are the external
    storage primitives; they copy one page to or from a slot and never
    corrupt it. *)
Definition swapwrite (pa blkno : Z) : K unit :=
  modify (λ s, set_swapdisk (<[blkno := load_page s pa]> (swapdisk s)) s).
Definition swapread (pa blkno : Z) : K unit :=
  modify (λ s, set_mem (<[pa := default (fill 0) (swapdisk s !! blkno)]> (mem s)) s).

(** [printf] *)
Definition newline : string := String (Ascii.ascii_of_nat 10) EmptyString.
Definition printf (msg : string) : K unit :=
  modify (λ s, set_console (console s ++ [msg]) s).

(** Reading and writing one field of [*p] for a [struct page *p]. *)
Definition next_of (pgs : list page) (i : nat) : option ptr := next <$> pgs !! i.
Definition prev_of (pgs : list page) (i : nat) : option ptr := prev <$> pgs !! i.

Definition get_field {A} (f : page → A) (p : ptr) : K A :=
  λ s, match p with
       | None => Fault
       | Some i => match pages s !! i with
                   | Some pg => Done (f pg) s
                   | None => Fault
                   end
       end.
Definition upd_page (f : page → page) (p : ptr) : K unit :=
  λ s, match p with
       | None => Fault
       | Some i => match pages s !! i with
                   | Some _ => Done tt (set_pages (alter f i (pages s)) s)
                   | None => Fault
                   end
       end.

Definition get_next : ptr → K ptr := get_field next.
Definition get_prev : ptr → K ptr := get_field prev.
Definition put_next (p v : ptr) : K unit := upd_page (page_set_next v) p.
Definition put_prev (p v : ptr) : K unit := upd_page (page_set_prev v) p.

(** [swap_bitmap[j]] and its update; the stored value is a [uint8]. *)
Definition bitmap_get (j : Z) : K Z :=
  λ s, match swap_bitmap s !! Z.to_nat j with
       | Some b => Done b s
       | None => Fault
       end.
Definition bitmap_set (j v : Z) : K unit :=
  λ s, match swap_bitmap s !! Z.to_nat j with
       | Some _ => Done tt (set_swap_bitmap (<[Z.to_nat j := v mod 256]> (swap_bitmap s)) s)
       | None => Fault
       end.

(** ** The functions of kalloc.c *)

Section Kalloc.
Context (M : machine).

Definition kfree (pa : Z) : K unit :=
  if negb (pa mod PGSIZE =? 0) || (pa <? kend M) || (pa >=? PHYSTOP M)
  then panic "kfree"
  else
    run memset pa 1;
    do fl <- gets freelist;
    run set_run_next pa fl;
    modify (set_freelist pa).

Definition pa2page (pa : Z) : ptr :=
  if (pa <? kend M) || (pa >=? PHYSTOP M) then None
  else Some (Z.to_nat ((pa - kend M) / PGSIZE)).

(** "Add to tail (before head)": the four statements that [lru_add]
    and [lru_move_to_tail_locked] both have. *)
Definition link_before_head (pg : ptr) : K unit :=
  do head <- gets page_lru_head;
  run put_next pg head;
  do head <- gets page_lru_head;
  do hp <- get_prev head;
  run put_prev pg hp;
  do head <- gets page_lru_head;
  do hp <- get_prev head;
  run put_next hp pg;
  do head <- gets page_lru_head;
  put_prev head pg.

(** "Remove from current position": the statements that [lru_remove]
    and [lru_move_to_tail_locked] both have. *)
Definition unlink (pg : ptr) : K unit :=
  do pv <- get_prev pg;
  do nx <- get_next pg;
  run put_next pv nx;
  do nx <- get_next pg;
  do pv <- get_prev pg;
  run put_prev nx pv;
  do head <- gets page_lru_head;
  if decide (head = pg)
  then do nx <- get_next pg; modify (set_page_lru_head nx)
  else ret tt.

Definition lru_add (pg : ptr) : K unit :=
  do head <- gets page_lru_head;
  run (if decide (head = None)
       then
         run modify (set_page_lru_head pg);
         run put_next pg pg;
         put_prev pg pg
       else link_before_head pg);
  do n <- gets num_lru_pages;
  do n' <- int_incr n;
  modify (set_num_lru_pages n').

Definition lru_remove (pg : ptr) : K unit :=
  do nx <- get_next pg;
  run (if decide (nx = pg) then modify (set_page_lru_head None)
       else unlink pg);
  run put_next pg None;
  run put_prev pg None;
  do n <- gets num_lru_pages;
  do n' <- int_decr n;
  modify (set_num_lru_pages n').

Definition lru_move_to_tail_locked (pg : ptr) : K unit :=
  do head <- gets page_lru_head;
  if decide (head = None) then ret tt else
  do nx <- get_next pg;
  if decide (nx = None) then ret tt else
  run unlink pg;
  link_before_head pg.

(** The [for] loop of [swap_alloc], [n] iterations left, at slot [i]. *)
Fixpoint swap_alloc_from (n : nat) (i : Z) : K Z :=
  match n with
  | O => ret (-1)
  | S n' =>
      let j := i / 8 in
      do b <- bitmap_get j;
      if Z.land b (Z.shiftl 1 (i mod 8)) =? 0
      then run bitmap_set j (Z.lor b (Z.shiftl 1 (i mod 8))); ret i
      else swap_alloc_from n' (i + 1)
  end.

Definition swap_alloc : K Z := swap_alloc_from (Z.to_nat (SWAP_PAGES M)) 0.

Definition swap_free (blkno : Z) : K unit :=
  if (blkno <? 0) || (blkno >=? SWAP_PAGES M) then ret tt
  else
    let j := blkno / 8 in
    do b <- bitmap_get j;
    bitmap_set j (clear_bits b (Z.shiftl 1 (blkno mod 8))).

(** The [do ... while] loop of [swapout].  One unit of [fuel] is one
    candidate examined; the result is the victim, or null.  [continue]
    in a [do ... while] goes to the loop condition ([scan_again]); the
    two skips of the source are the same four statements ([scan_skip]). *)
Definition scan_again (loop : ptr → Z → K ptr) (curr : ptr) (rounds : Z) : K ptr :=
  do head <- gets page_lru_head;
  do n <- gets num_lru_pages;
  if bool_decide (curr ≠ head) && (rounds <=? n) then loop curr rounds
  else ret None.

Definition scan_skip (loop : ptr → Z → K ptr) (curr : ptr) (rounds : Z) : K ptr :=
  do curr <- get_next curr;
  do rounds <- int_incr rounds;
  do n <- gets num_lru_pages;
  if rounds >? n then ret None
  else scan_again loop curr rounds.

(** The body of the loop at candidate [curr]; [loop] is the loop
    itself, entered again when the loop condition holds. *)
Definition scan_body (loop : ptr → Z → K ptr) (curr : ptr) (rounds : Z) : K ptr :=
  do pt <- get_field pagetable curr;
  do va <- get_field vaddr curr;
  if (pt =? 0) || (va =? 0)
  then scan_skip loop curr rounds
  else
    let pte := walk M pt va in
    do stale <- (if pte =? 0 then ret true
                 else do e <- read_pte pte; ret (Z.land e PTE_V =? 0));
    if stale : bool then scan_skip loop curr rounds
    else
      do e <- read_pte pte;
      if Z.land e PTE_A =? 0 then ret curr
      else
        do e <- read_pte pte;
        run write_pte pte (clear_bits e PTE_A);
        run lru_move_to_tail_locked curr;
        do curr <- get_next curr;
        do rounds <- int_incr rounds;
        scan_again loop curr rounds.

Fixpoint scan_loop (fuel : nat) (curr : ptr) (rounds : Z) : K ptr :=
  match fuel with
  | O => timeout
  | S fuel' => scan_body (scan_loop fuel') curr rounds
  end.

(** The loop body runs with [rounds <= num_lru_pages] except the first
    time, so [num_lru_pages + 1] candidates are all it can examine. *)
Definition scan_fuel (s : kstate) : nat := S (Z.to_nat (num_lru_pages s)).

(** The ghost step at the entry of [swapout]: one more call. *)
Definition count_swapout (s : kstate) : kstate :=
  set_swapouts (S (swapouts s)) s.

(** [swapout] from the allocation of the slot on, for a chosen victim. *)
Definition swapout_victim (victim : ptr) : K Z :=
  do swap_blkno <- swap_alloc;
  if swap_blkno <? 0 then ret (-1)
  else
    do pt <- get_field pagetable victim;
    do va <- get_field vaddr victim;
    let pte := walk M pt va in
    do stale <- (if pte =? 0 then ret true
                 else do e <- read_pte pte; ret (Z.land e PTE_V =? 0));
    if stale : bool then run swap_free swap_blkno; ret (-1)
    else
      do e <- read_pte pte;
      let pa := PTE2PA e in
      do e <- read_pte pte;
      let flags := PTE_FLAGS e in
      run swapwrite pa swap_blkno;
      do sh <- int_shl swap_blkno 10;
      run write_pte pte (Z.lor (wrap64 sh) (clear_bits flags PTE_V));
      run lru_remove victim;
      run kfree pa;
      ret 0.

Definition swapout : K Z :=
  run modify count_swapout;
  do head <- gets page_lru_head;
  if decide (head = None) then ret (-1)
  else
    do fuel <- gets scan_fuel;
    do victim <- scan_loop fuel head 0;
    if decide (victim = None) then ret (-1)
    else swapout_victim victim.

(** The pop of [kalloc]: [r = kmem.freelist; if(r) kmem.freelist = r->next]. *)
Definition pop_free : K Z :=
  do r <- gets freelist;
  if r =? 0 then ret r
  else do nx <- gets (λ s, run_next s r); run modify (set_freelist nx); ret r.

Definition kalloc : K Z :=
  do r <- pop_free;
  do r <- (if r =? 0
           then
             do rc <- swapout;
             if rc <? 0
             then run printf ("kalloc: out of memory" +:+ newline); ret None
             else do r <- pop_free; ret (Some r)
           else ret (Some r));
  match r with
  | None => ret 0
  | Some r => run (if r =? 0 then ret tt else memset r 5); ret r
  end.

Definition swapin (pt va pte : Z) : K Z :=
  do e <- read_pte pte;
  let swap_offset := Z.shiftr e 10 in
  let swap_blkno := to_int swap_offset in
  if (swap_blkno <? 0) || (swap_blkno >=? SWAP_PAGES M) then ret (-1)
  else
    do pa <- kalloc;
    if pa =? 0 then ret (-1)
    else
      run swapread pa swap_blkno;
      do e <- read_pte pte;
      let flags := wrap32 (Z.lor (Z.lor (PTE_FLAGS e) PTE_V) PTE_A) in
      run write_pte pte (Z.lor (PA2PTE pa) flags);
      let pg := pa2page pa in
      run (if decide (pg = None) then ret tt
           else run upd_page (page_set_owner pt va) pg; lru_add pg);
      run swap_free swap_blkno;
      ret 0.

(** The [for] loop of [freerange] at page [p].  One unit of [fuel] is
    one test of the loop condition.  [p + PGSIZE] is pointer
    arithmetic: leaving the 64-bit address space is undefined
    behaviour. *)
Fixpoint freerange_loop (fuel : nat) (p pa_end : Z) : K unit :=
  match fuel with
  | O => timeout
  | S fuel' =>
      if 2 ^ 64 <=? p + PGSIZE then fault
      else if p + PGSIZE <=? pa_end
           then run kfree p; freerange_loop fuel' (p + PGSIZE) pa_end
           else ret tt
  end.

(** The condition holds for the whole pages between [p] and [pa_end]
    and fails at the next test. *)
Definition freerange_fuel (p pa_end : Z) : nat :=
  S (Z.to_nat ((pa_end - p) / PGSIZE)).

Definition freerange (pa_start pa_end : Z) : K unit :=
  let p := PGROUNDUP pa_start in
  freerange_loop (freerange_fuel p pa_end) p pa_end.

(** [kinit].  [initlock] has no effect here, and the locals [nbytes]
    and [npages] are computed and never used.  [swap_bitmap] is a
    pointer to the page that [kalloc] returned, so the bytes of the
    bitmap are the bytes of that page, also after [freerange] has run
    over it. *)
Definition kinit : K unit :=
  run modify (set_page_lru_head None);
  run modify (set_num_lru_pages 0);
  do bitmap <- kalloc;
  if bitmap =? 0 then panic "kinit: failed to allocate swap bitmap"
  else
    run memset bitmap 0;
    run freerange (kend M) (PHYSTOP M);
    modify (λ s, set_swap_bitmap (load_page s bitmap) s).

End Kalloc.

(** * Vocabulary of the properties *)

(** ** Cyclic adjacency in a list

    [adj l a b]: [b] comes right after [a] when [l] is read as a ring. *)

Definition adj (l : list nat) (a b : nat) : Prop :=
  ∃ i : nat, l !! i = Some a ∧
             l !! (if decide (S i = length l) then O else S i) = Some b.

(** The owner fields of [pages[i]]. *)
Definition owner_of (pgs : list page) (i : nat) : option (Z * Z) :=
  (λ p, (pagetable p, vaddr p)) <$> pgs !! i.

(** ** The ring over the table *)

Definition linked (pgs : list page) (a b : nat) : Prop :=
  next_of pgs a = Some (Some b) ∧ prev_of pgs b = Some (Some a).

Definition ring (pgs : list page) (hd : ptr) (l : list nat) : Prop :=
  NoDup l ∧ hd = head l ∧ ∀ a b, adj l a b → linked pgs a b.

(** ** The invariant of the LRU list

    [l] lists the enrolled frames from the head on.  Frames that are
    not enrolled have null links, as they have after [kinit] (the table
    is zeroed) and after [lru_remove]. *)

Record lru_inv (s : kstate) (l : list nat) : Prop := LruInv {
  inv_ring : ring (pages s) (page_lru_head s) l;
  inv_num : num_lru_pages s = Z.of_nat (length l);
  inv_table : Z.of_nat (length (pages s)) < INT_MAX;
  inv_unlinked : ∀ i, i ∉ l → (i < length (pages s))%nat →
                 next_of (pages s) i = Some None ∧ prev_of (pages s) i = Some None
}.

(** What the list operations leave alone. *)
Definition lru_frame (s s' : kstate) : Prop :=
  freelist s' = freelist s ∧ mem s' = mem s ∧
  swap_bitmap s' = swap_bitmap s ∧ ptes s' = ptes s ∧
  swapdisk s' = swapdisk s ∧ console s' = console s ∧
  swapouts s' = swapouts s ∧
  length (pages s') = length (pages s) ∧
  ∀ j, owner_of (pages s') j = owner_of (pages s) j.

(** ** Sequences of list operations *)

Inductive lru_op : Type :=
| OpAdd (pg : nat)
| OpRemove (pg : nat)
| OpMoveToTail (pg : nat).

Definition do_op (op : lru_op) : K unit :=
  match op with
  | OpAdd pg => lru_add (Some pg)
  | OpRemove pg => lru_remove (Some pg)
  | OpMoveToTail pg => lru_move_to_tail_locked (Some pg)
  end.

Fixpoint do_ops (ops : list lru_op) : K unit :=
  match ops with
  | [] => ret tt
  | op :: ops' => run do_op op; do_ops ops'
  end.

(** The enrolled frames, from the head on, after one operation. *)
Definition enrolled_step (l : list nat) (op : lru_op) : list nat :=
  match op with
  | OpAdd pg => l ++ [pg]
  | OpRemove pg => filter (λ x, x ≠ pg) l
  | OpMoveToTail pg =>
      if decide (pg ∈ l) then filter (λ x, x ≠ pg) l ++ [pg] else l
  end.

Definition enrolled_after (ops : list lru_op) : list nat :=
  foldl enrolled_step [] ops.

(** [lru_add] is for a frame of the table that is not enrolled,
    [lru_remove] for an enrolled one, [lru_move_to_tail_locked] for any
    frame of the table. *)
Definition op_allowed (npages : nat) (l : list nat) (op : lru_op) : Prop :=
  match op with
  | OpAdd pg => (pg ∉ l) ∧ (pg < npages)%nat
  | OpRemove pg => pg ∈ l
  | OpMoveToTail pg => (pg < npages)%nat
  end.

Fixpoint ops_allowed (npages : nat) (l : list nat) (ops : list lru_op) : Prop :=
  match ops with
  | [] => True
  | op :: ops' => op_allowed npages l op ∧ ops_allowed npages (enrolled_step l op) ops'
  end.

(** The list as [kinit] leaves it, over the zeroed table. *)
Definition lru_empty (s : kstate) : Prop :=
  page_lru_head s = None ∧ num_lru_pages s = 0 ∧
  Z.of_nat (length (pages s)) < INT_MAX ∧
  Forall (λ p, next p = None ∧ prev p = None) (pages s).

(** [o1] is [o2] unless it ran out of fuel. *)
Definition refines {A} (o1 o2 : outcome A) : Prop := o1 = Timeout ∨ o1 = o2.

(** A computation that does not run out of fuel and leaves
    [num_lru_pages] alone. *)
Definition steady {A} (m : K A) : Prop :=
  ∀ s, match m s with
       | Done _ s' => num_lru_pages s' = num_lru_pages s
       | Timeout => False
       | _ => True
       end.

(** A computation that leaves the count of [swapout] calls alone. *)
Definition keeps_count {A} (m : K A) : Prop :=
  ∀ s a s', m s = Done a s' → swapouts s' = swapouts s.

(** Slot [i] is free: its bit in the bitmap is clear. *)
Definition slot_free (s : kstate) (i : Z) : Prop :=
  ∃ b, swap_bitmap s !! Z.to_nat (i / 8) = Some b ∧
       Z.land b (Z.shiftl 1 (i mod 8)) = 0.

(** The tail of [kalloc]: the page it returns is filled with 5. *)
Definition kalloc_finish (r : Z) (s : kstate) : kstate :=
  if r =? 0 then s else set_mem (<[r := fill 5]> (mem s)) s.

(** Every byte of the bitmap is a [uint8]. *)
Definition bitmap_bytes (s : kstate) : Prop :=
  Forall (λ b, 0 ≤ b < 256) (swap_bitmap s).

(** ** The free list

    [free_chain s r l]: following [next] from [r] visits the pages [l]
    and then reaches null. *)
Fixpoint free_chain (s : kstate) (r : Z) (l : list Z) : Prop :=
  match l with
  | [] => r = 0
  | a :: l' => r = a ∧ 0 < a < 2 ^ 64 ∧ free_chain s (run_next s a) l'
  end.


(** An address [kfree] accepts. *)
Definition frame_addr (M : machine) (pa : Z) : Prop :=
  pa mod PGSIZE = 0 ∧ kend M ≤ pa < PHYSTOP M.

(** [n] pages in a row from [p] on. *)
Fixpoint range_pages (p : Z) (n : nat) : list Z :=
  match n with
  | O => []
  | S n' => p :: range_pages (p + PGSIZE) n'
  end.

(** The number of whole pages between [p] and [pa_end]. *)
Definition whole_pages (p pa_end : Z) : nat := Z.to_nat ((pa_end - p) / PGSIZE).

(** ** The swap bitmap, slot by slot

    The bit of slot [i], if the bitmap has its byte. *)
Definition slot_bit (s : kstate) (i : Z) : option bool :=
  (λ b, Z.testbit b (i mod 8)) <$> swap_bitmap s !! Z.to_nat (i / 8).

(** Two states that differ in the swap bitmap at most. *)
Definition same_but_bitmap (s s' : kstate) : Prop :=
  s' = set_swap_bitmap (swap_bitmap s') s.

(** ** What a computation leaves alone

    [respects R m]: whenever [m] returns, the state it returns in is
    related by [R] to the state it started in. *)
Definition respects {A} (R : kstate → kstate → Prop) (m : K A) : Prop :=
  ∀ s a s', m s = Done a s' → R s s'.

(** Nothing was printed. *)
Definition same_console (s s' : kstate) : Prop := console s' = console s.

(** What is swapped out stays so: the bitmap, the swap area and every
    entry that is not Valid. *)
Definition swapped_kept (s s' : kstate) : Prop :=
  swap_bitmap s' = swap_bitmap s ∧ swapdisk s' = swapdisk s ∧
  ∀ a, Z.land (default 0 (ptes s !! a)) PTE_V = 0 → ptes s' !! a = ptes s !! a.

(** ** What the clock scan sees in a frame *)

Inductive candidate : Type :=
| Stale                         (* no owner, no entry, or entry not Valid *)
| Victim                        (* Valid, Accessed clear *)
| Referenced (pte : Z) (e : Z). (* Valid, Accessed set: entry address and value *)

Definition probe (M : machine) (s : kstate) (pg : nat) : option candidate :=
  match pages s !! pg with
  | None => None
  | Some p =>
      if (pagetable p =? 0) || (vaddr p =? 0) then Some Stale
      else
        let pte := walk M (pagetable p) (vaddr p) in
        if pte =? 0 then Some Stale
        else
          let e := default 0 (ptes s !! pte) in
          if Z.land e PTE_V =? 0 then Some Stale
          else if Z.land e PTE_A =? 0 then Some Victim
               else Some (Referenced pte e)
  end.

(** ** Concrete machines and states *)

(** A machine with the memory layout of xv6 on RISC-V, 7000 swap slots
    (875 bytes of bitmap, as the comment in [kinit] has it) and one
    leaf page table at [0x87fff000] that maps the first 512 pages. *)
Definition leaf_table : Z := 0x87fff000.
Definition qemu : machine := {|
  kend := 0x80021000;
  PHYSTOP := 0x88000000;
  SWAP_PAGES := 7000;
  walk := λ pt va,
    if (pt =? leaf_table) && (0 <=? va) && (va <? 512 * PGSIZE)
    then pt + 8 * (va / PGSIZE) else 0
|}.

(** The physical address of frame [i] and the entry of page [va]. *)
Definition frame_pa (i : Z) : Z := kend qemu + PGSIZE * i.
Definition entry_of (va : Z) : Z := walk qemu leaf_table va.

(** One enrolled frame, owned by [leaf_table] at [0x1000]. *)
Definition one_frame : kstate :=
  KState 0 ∅ [Page leaf_table 0x1000 (Some 0%nat) (Some 0%nat)]
         (Some 0%nat) 1 (replicate 875 0) ∅ ∅ [] 0.

(** A Valid entry for frame [i] with flags [fl]. *)
Definition resident (i : Z) (fl : Z) : Z := Z.lor (PA2PTE (frame_pa i)) fl.

(** Three enrolled frames 0, 1, 2 mapped at [0x1000], [0x2000],
    [0x3000] with Valid entries of flags [fl0], [fl1], [fl2], and a
    fourth frame that is not enrolled; the free list is empty and no
    swap slot is in use. *)
Definition three_frames (fl0 fl1 fl2 : Z) : kstate :=
  KState 0 ∅
         [Page leaf_table 0x1000 (Some 1%nat) (Some 2%nat);
          Page leaf_table 0x2000 (Some 2%nat) (Some 0%nat);
          Page leaf_table 0x3000 (Some 0%nat) (Some 1%nat);
          Page 0 0 None None]
         (Some 0%nat) 3 (replicate 875 0)
         (<[entry_of 0x1000 := resident 0 fl0]>
            (<[entry_of 0x2000 := resident 1 fl1]>
               (<[entry_of 0x3000 := resident 2 fl2]> ∅)))
         ∅ [] 0.

(** Every entry is readable, writable, user and Accessed ([0x57]). *)
Definition all_accessed : kstate := three_frames 0x57 0x57 0x57.

(** Frame 3 is free, and the entry of page [0x4000] has Valid clear
    and [2^32] in its frame-number field, which is no slot index. *)
Definition bad_slot_entry : Z := 2 ^ 42 + 0x16.
Definition fault_on_bad_slot : kstate :=
  set_freelist (frame_pa 3)
    (set_mem (<[frame_pa 3 := le_bytes 8 0 ++ drop 8 (fill 1)]> ∅)
       (set_ptes (<[entry_of 0x4000 := bad_slot_entry]> (ptes all_accessed))
          all_accessed)).

(** The table after boot, four frames wide, and a run of list
    operations on it. *)
Definition boot_state : kstate :=
  KState 0 ∅ (replicate 4 (Page 0 0 None None)) None 0 (replicate 875 0) ∅ ∅ [] 0.
Definition boot_ops : list lru_op :=
  [OpAdd 0; OpAdd 1; OpAdd 2; OpMoveToTail 0; OpRemove 1; OpMoveToTail 3]%nat.

(** Frame 0 is not Accessed; the free list is empty. *)
Definition head_evictable : kstate := three_frames 0x17 0x57 0x57.

(** Frame 0 is not Accessed, and every swap slot is in use. *)
Definition no_slot_left : kstate :=
  set_swap_bitmap (replicate 875 255) (three_frames 0x17 0x57 0x57).

(** * Properties *)

(** ** Cyclic adjacency *)

Lemma adj_elem_of l a b : adj l a b → a ∈ l ∧ b ∈ l.
Proof.
  intros (i & Ha & Hb). split; eapply list_elem_of_lookup_2; eauto.
Qed.

Lemma adj_succ l a : a ∈ l → ∃ b, adj l a b.
Proof.
  intros Ha. apply list_elem_of_lookup_1 in Ha as (i & Hi).
  pose proof (lookup_lt_Some _ _ _ Hi) as Hlt.
  destruct (lookup_lt_is_Some_2 l (if decide (S i = length l) then O else S i))
    as (b & Hb).
  { case_decide; lia. }
  exists b, i. done.
Qed.

Lemma adj_pred l b : b ∈ l → ∃ a, adj l a b.
Proof.
  intros Hb. apply list_elem_of_lookup_1 in Hb as (j & Hj).
  pose proof (lookup_lt_Some _ _ _ Hj) as Hlt.
  destruct j as [|j].
  - destruct (lookup_lt_is_Some_2 l (length l - 1)) as (a & Ha); [lia|].
    exists a, (length l - 1)%nat. split; [done|].
    rewrite decide_True by lia. done.
  - destruct (lookup_lt_is_Some_2 l j) as (a & Ha); [lia|].
    exists a, j. split; [done|].
    rewrite decide_False by lia. done.
Qed.

Lemma adj_fun l a b b' : NoDup l → adj l a b → adj l a b' → b = b'.
Proof.
  intros Hnd (i & Ha & Hb) (i' & Ha' & Hb').
  assert (i = i') as <- by (eapply NoDup_lookup; eauto).
  congruence.
Qed.

Lemma adj_inj l a a' b : NoDup l → adj l a b → adj l a' b → a = a'.
Proof.
  intros Hnd (i & Ha & Hb) (i' & Ha' & Hb').
  pose proof (lookup_lt_Some _ _ _ Ha). pose proof (lookup_lt_Some _ _ _ Ha').
  assert ((if decide (S i = length l) then O else S i)
          = (if decide (S i' = length l) then O else S i')) as Heq
      by (eapply NoDup_lookup; eauto).
  assert (i = i') as <- by (repeat case_decide; lia).
  congruence.
Qed.

Lemma adj_self l a : NoDup l → adj l a a → l = [a].
Proof.
  intros Hnd (i & Ha & Hb).
  pose proof (lookup_lt_Some _ _ _ Ha).
  assert (i = (if decide (S i = length l) then O else S i)) as Heq
      by (eapply NoDup_lookup; eauto).
  case_decide; [|lia]. subst i.
  destruct l as [|x [|y l]]; simpl in *; try lia. congruence.
Qed.

Lemma adj_singleton a x y : adj [a] x y ↔ x = a ∧ y = a.
Proof.
  split.
  - intros (i & Hx & Hy). destruct i; simpl in *; [|done].
    split; congruence.
  - intros [-> ->]. exists O. done.
Qed.

Lemma adj_nil x y : ¬ adj [] x y.
Proof. intros (i & Hx & _). done. Qed.

Lemma adj_head_next h x t : adj (h :: x :: t) h x.
Proof. exists O. simpl. done. Qed.

Lemma adj_last_head l h t : head l = Some h → last l = Some t → adj l t h.
Proof.
  intros Hh Ht. rewrite last_lookup in Ht. rewrite head_lookup in Hh.
  exists (pred (length l)). split; [done|].
  destruct l; [done|]. simpl. rewrite decide_True by done. done.
Qed.

(** Removing the element at position [k]: a pair of the shorter ring
    was a pair before, or it closes the gap left by the removed one. *)
Lemma adj_delete l k y a b :
  l !! k = Some y →
  adj (delete k l) a b →
  adj l a b ∨ (adj l a y ∧ adj l y b).
Proof.
  intros Hk (i & Ha & Hb).
  pose proof (lookup_lt_Some _ _ _ Hk) as Hklt.
  pose proof (lookup_lt_Some _ _ _ Ha) as Hilt.
  rewrite length_delete in Hilt, Hb by eauto.
  destruct (decide (S i = length l - 1)%nat) as [Hlen|Hlen];
    destruct (decide (i < k)%nat) as [Hik|Hik].
  - (* the last pair of the shorter ring, before the gap *)
    rewrite list_lookup_delete_lt in Ha, Hb by lia.
    assert (S i = k) as Hsk by lia.
    right. split.
    + exists i. split; [done|]. rewrite decide_False by lia. by rewrite Hsk.
    + exists k. split; [done|]. rewrite decide_True by lia. done.
  - rewrite list_lookup_delete_ge in Ha by lia.
    destruct (decide (k = O)) as [->|Hk0].
    + right. rewrite list_lookup_delete_ge in Hb by lia. split.
      * exists (S i). split; [done|]. rewrite decide_True by lia. done.
      * exists O. split; [done|]. rewrite decide_False by lia. done.
    + left. rewrite list_lookup_delete_lt in Hb by lia.
      exists (S i). split; [done|]. rewrite decide_True by lia. done.
  - rewrite list_lookup_delete_lt in Ha by lia.
    destruct (decide (S i = k)) as [Hsk|Hsk].
    + right. rewrite list_lookup_delete_ge in Hb by lia. split.
      * exists i. split; [done|]. rewrite decide_False by lia. by rewrite Hsk.
      * exists k. split; [done|]. rewrite decide_False by lia. by rewrite <- Hsk.
    + left. rewrite list_lookup_delete_lt in Hb by lia.
      exists i. split; [done|]. rewrite decide_False by lia. done.
  - rewrite list_lookup_delete_ge in Ha, Hb by lia.
    left. exists (S i). split; [done|]. rewrite decide_False by lia. done.
Qed.

(** Appending [x]: a pair of the longer ring is an inner pair of the
    old one, or one of the two pairs around [x]. *)
Lemma adj_snoc l x h t a b :
  NoDup (l ++ [x]) →
  head l = Some h → last l = Some t →
  adj (l ++ [x]) a b →
  (adj l a b ∧ a ≠ t ∧ b ≠ h ∧ a ≠ x ∧ b ≠ x) ∨ (a = t ∧ b = x) ∨ (a = x ∧ b = h).
Proof.
  intros Hnd Hh Ht (i & Ha & Hb).
  apply NoDup_app in Hnd as (Hndl & Hx & _).
  rewrite last_lookup in Ht. rewrite head_lookup in Hh.
  pose proof (lookup_lt_Some _ _ _ Hh) as Hpos.
  pose proof (lookup_lt_Some _ _ _ Ha) as Hilt.
  rewrite length_app in Hilt, Hb. simpl in Hilt, Hb.
  destruct (decide (S i < length l)%nat) as [Hin|Hin].
  - left. rewrite decide_False in Hb by lia.
    rewrite lookup_app_l in Ha, Hb by lia.
    assert (a ∈ l) by (eapply list_elem_of_lookup_2; eauto).
    assert (b ∈ l) by (eapply list_elem_of_lookup_2; eauto).
    split_and!.
    + exists i. split; [done|]. rewrite decide_False by lia. done.
    + intros ->. assert (i = pred (length l)) by (eapply NoDup_lookup; eauto). lia.
    + intros ->. assert (S i = O) by (eapply NoDup_lookup; eauto). lia.
    + intros ->. apply (Hx x); [done|]. by apply list_elem_of_singleton.
    + intros ->. apply (Hx x); [done|]. by apply list_elem_of_singleton.
  - right. destruct (decide (S i = length l)) as [Hlast|Hlast].
    + left. rewrite decide_False in Hb by lia.
      rewrite lookup_app_l in Ha by lia.
      rewrite lookup_app_r in Hb by lia.
      replace (S i - length l)%nat with O in Hb by lia. simpl in Hb.
      replace (pred (length l)) with i in Ht by lia.
      split; congruence.
    + right. assert (i = length l) as -> by lia.
      rewrite decide_True in Hb by lia.
      rewrite lookup_app_r in Ha by lia.
      replace (length l - length l)%nat with O in Ha by lia. simpl in Ha.
      rewrite lookup_app_l in Hb by lia.
      split; congruence.
Qed.

(** ** Fields of the table after an update *)

Lemma next_of_set_next_eq pgs i v :
  (i < length pgs)%nat → next_of (alter (page_set_next v) i pgs) i = Some v.
Proof.
  intros Hi. unfold next_of. rewrite list_lookup_alter_eq.
  destruct (lookup_lt_is_Some_2 pgs i Hi) as (p & ->). done.
Qed.

Lemma next_of_set_next_ne pgs i j v :
  i ≠ j → next_of (alter (page_set_next v) i pgs) j = next_of pgs j.
Proof. intros Hne. unfold next_of. by rewrite list_lookup_alter_ne. Qed.

Lemma next_of_set_prev pgs i j v :
  next_of (alter (page_set_prev v) i pgs) j = next_of pgs j.
Proof.
  unfold next_of. destruct (decide (i = j)) as [->|Hne].
  - rewrite list_lookup_alter_eq. by destruct (pgs !! j).
  - by rewrite list_lookup_alter_ne.
Qed.

Lemma prev_of_set_prev_eq pgs i v :
  (i < length pgs)%nat → prev_of (alter (page_set_prev v) i pgs) i = Some v.
Proof.
  intros Hi. unfold prev_of. rewrite list_lookup_alter_eq.
  destruct (lookup_lt_is_Some_2 pgs i Hi) as (p & ->). done.
Qed.

Lemma prev_of_set_prev_ne pgs i j v :
  i ≠ j → prev_of (alter (page_set_prev v) i pgs) j = prev_of pgs j.
Proof. intros Hne. unfold prev_of. by rewrite list_lookup_alter_ne. Qed.

Lemma prev_of_set_next pgs i j v :
  prev_of (alter (page_set_next v) i pgs) j = prev_of pgs j.
Proof.
  unfold prev_of. destruct (decide (i = j)) as [->|Hne].
  - rewrite list_lookup_alter_eq. by destruct (pgs !! j).
  - by rewrite list_lookup_alter_ne.
Qed.

Lemma next_of_set_next_same pgs i j v w :
  next_of pgs j = Some w → (i = j → v = w) →
  next_of (alter (page_set_next v) i pgs) j = Some w.
Proof.
  intros Hj Hv. destruct (decide (i = j)) as [->|Hne].
  - rewrite Hv by done. apply next_of_set_next_eq.
    unfold next_of in Hj. destruct (pgs !! j) eqn:E; [|done].
    by eapply lookup_lt_Some.
  - by rewrite next_of_set_next_ne.
Qed.

Lemma prev_of_set_prev_same pgs i j v w :
  prev_of pgs j = Some w → (i = j → v = w) →
  prev_of (alter (page_set_prev v) i pgs) j = Some w.
Proof.
  intros Hj Hv. destruct (decide (i = j)) as [->|Hne].
  - rewrite Hv by done. apply prev_of_set_prev_eq.
    unfold prev_of in Hj. destruct (pgs !! j) eqn:E; [|done].
    by eapply lookup_lt_Some.
  - by rewrite prev_of_set_prev_ne.
Qed.

Lemma next_of_lt pgs i v : next_of pgs i = Some v → (i < length pgs)%nat.
Proof.
  unfold next_of. intros H. destruct (pgs !! i) eqn:E; [|done].
  by eapply lookup_lt_Some.
Qed.

Lemma prev_of_lt pgs i v : prev_of pgs i = Some v → (i < length pgs)%nat.
Proof.
  unfold prev_of. intros H. destruct (pgs !! i) eqn:E; [|done].
  by eapply lookup_lt_Some.
Qed.

(** The owner fields are untouched by the link updates. *)
Lemma owner_of_set_next pgs i j v :
  owner_of (alter (page_set_next v) i pgs) j = owner_of pgs j.
Proof.
  unfold owner_of. destruct (decide (i = j)) as [->|Hne].
  - rewrite list_lookup_alter_eq. by destruct (pgs !! j).
  - by rewrite list_lookup_alter_ne.
Qed.

Lemma owner_of_set_prev pgs i j v :
  owner_of (alter (page_set_prev v) i pgs) j = owner_of pgs j.
Proof.
  unfold owner_of. destruct (decide (i = j)) as [->|Hne].
  - rewrite list_lookup_alter_eq. by destruct (pgs !! j).
  - by rewrite list_lookup_alter_ne.
Qed.

(** ** Running the field accessors *)

Lemma get_next_run pgi s v :
  next_of (pages s) pgi = Some v → get_next (Some pgi) s = Done v s.
Proof.
  unfold next_of, get_next, get_field. destruct (pages s !! pgi); [|done].
  simpl. congruence.
Qed.

Lemma get_prev_run pgi s v :
  prev_of (pages s) pgi = Some v → get_prev (Some pgi) s = Done v s.
Proof.
  unfold prev_of, get_prev, get_field. destruct (pages s !! pgi); [|done].
  simpl. congruence.
Qed.

Lemma upd_page_run f pgi s :
  (pgi < length (pages s))%nat →
  upd_page f (Some pgi) s = Done tt (set_pages (alter f pgi (pages s)) s).
Proof.
  intros Hi. unfold upd_page.
  destruct (lookup_lt_is_Some_2 _ _ Hi) as (p & ->). done.
Qed.

Lemma put_next_run pgi v s :
  (pgi < length (pages s))%nat →
  put_next (Some pgi) v s
  = Done tt (set_pages (alter (page_set_next v) pgi (pages s)) s).
Proof. apply upd_page_run. Qed.

Lemma put_prev_run pgi v s :
  (pgi < length (pages s))%nat →
  put_prev (Some pgi) v s
  = Done tt (set_pages (alter (page_set_prev v) pgi (pages s)) s).
Proof. apply upd_page_run. Qed.

Lemma bind_run {A B} (m : K A) (k : A → K B) s a s' :
  m s = Done a s' → bind m k s = k a s'.
Proof. unfold bind. by intros ->. Qed.

Ltac simpl_state :=
  cbn [freelist mem pages page_lru_head num_lru_pages swap_bitmap ptes
       swapdisk console swapouts
       set_freelist set_mem set_pages set_page_lru_head set_num_lru_pages
       set_swap_bitmap set_ptes set_swapdisk set_console set_swapouts
       count_swapout] in *.

(** One statement of a sequence: run it with the lemma [tac] finds. *)
Ltac run_step tac :=
  erewrite bind_run; [| solve [tac]]; simpl_state.

(** A [gets], [modify] or [ret] statement. *)
Ltac run_pure := erewrite bind_run; [| reflexivity]; simpl_state.

(** ** The ring over the table *)

Lemma ring_lt pgs hd l x : ring pgs hd l → x ∈ l → (x < length pgs)%nat.
Proof.
  intros (_ & _ & Hl) Hx. destruct (adj_succ l x Hx) as (b & Hb).
  destruct (Hl _ _ Hb) as [Hn _]. by eapply next_of_lt.
Qed.

Lemma unlink_run s l y p sx :
  ring (pages s) (page_lru_head s) l →
  adj l p y → adj l y sx →
  unlink (Some y) s
  = Done tt (set_page_lru_head
               (if decide (page_lru_head s = Some y) then Some sx
                else page_lru_head s)
               (set_pages (alter (page_set_prev (Some p)) sx
                             (alter (page_set_next (Some sx)) p (pages s))) s)).
Proof.
  intros Hring Hp Hs.
  pose proof Hring as (Hnd & Hhd & Hl).
  destruct (Hl _ _ Hp) as [Hpn Hyp]. destruct (Hl _ _ Hs) as [Hyn Hsp].
  pose proof (next_of_lt _ _ _ Hpn) as Hplt.
  pose proof (prev_of_lt _ _ _ Hsp) as Hslt.
  unfold unlink.
  run_step ltac:(apply get_prev_run; eassumption).
  run_step ltac:(apply get_next_run; eassumption).
  run_step ltac:(apply put_next_run; eassumption).
  run_step ltac:(apply get_next_run; simpl_state;
                 apply next_of_set_next_same; [eassumption|done]).
  run_step ltac:(apply get_prev_run; simpl_state;
                 rewrite prev_of_set_next; eassumption).
  run_step ltac:(apply put_prev_run; simpl_state; rewrite length_alter; eassumption).
  unfold gets at 1. unfold bind at 1. simpl_state.
  destruct (decide (page_lru_head s = Some y)) as [Heq|Hne].
  - run_step ltac:(apply get_next_run; simpl_state;
                   rewrite next_of_set_prev;
                   apply next_of_set_next_same; [eassumption|done]).
    unfold modify. simpl_state. done.
  - unfold ret. destruct s. simpl_state. done.
Qed.

Lemma link_before_head_run s l h t y :
  ring (pages s) (page_lru_head s) l →
  head l = Some h → last l = Some t →
  (y < length (pages s))%nat →
  link_before_head (Some y) s
  = Done tt (set_pages
               (alter (page_set_prev (Some y)) h
                  (alter (page_set_next (Some y)) t
                     (alter (page_set_prev (Some t)) y
                        (alter (page_set_next (Some h)) y (pages s))))) s).
Proof.
  intros Hring Hh Ht Hylt.
  pose proof Hring as (Hnd & Hhd & Hl).
  pose proof (adj_last_head _ _ _ Hh Ht) as Hth.
  destruct (Hl _ _ Hth) as [Htn Hhp].
  pose proof (next_of_lt _ _ _ Htn) as Htlt.
  pose proof (prev_of_lt _ _ _ Hhp) as Hhlt.
  rewrite Hh in Hhd.
  unfold link_before_head.
  unfold gets at 1. unfold bind at 1. simpl_state. rewrite Hhd.
  run_step ltac:(apply put_next_run; eassumption).
  unfold gets at 1. unfold bind at 1. simpl_state. rewrite Hhd.
  run_step ltac:(apply get_prev_run; simpl_state;
                 rewrite prev_of_set_next; eassumption).
  run_step ltac:(apply put_prev_run; simpl_state; rewrite length_alter; eassumption).
  unfold gets at 1. unfold bind at 1. simpl_state. rewrite Hhd.
  run_step ltac:(apply get_prev_run; simpl_state;
                 apply prev_of_set_prev_same;
                 [rewrite prev_of_set_next; eassumption|done]).
  run_step ltac:(apply put_next_run; simpl_state; rewrite !length_alter; eassumption).
  unfold gets at 1. unfold bind at 1. simpl_state. rewrite Hhd.
  rewrite put_prev_run by (simpl_state; rewrite !length_alter; eassumption).
  simpl_state. done.
Qed.

(** The ring after the "remove from current position" block. *)
Lemma ring_unlink pgs hd l k y p sx :
  ring pgs hd l →
  l !! k = Some y → (2 ≤ length l)%nat →
  adj l p y → adj l y sx →
  ring (alter (page_set_prev (Some p)) sx (alter (page_set_next (Some sx)) p pgs))
       (if decide (hd = Some y) then Some sx else hd)
       (delete k l).
Proof.
  intros (Hnd & Hhd & Hl) Hk Hlen Hp Hs.
  destruct (Hl _ _ Hp) as [Hpn Hyp]. destruct (Hl _ _ Hs) as [Hyn Hsp].
  pose proof (next_of_lt _ _ _ Hpn) as Hplt.
  pose proof (prev_of_lt _ _ _ Hsp) as Hslt.
  split_and!.
  - apply (sublist_NoDup _ l); [done|apply sublist_delete].
  - subst hd. destruct l as [|x l]; [done|]. simpl.
    case_decide as Hx.
    + injection Hx as ->.
      assert (k = O) as -> by (eapply NoDup_lookup; eauto; done).
      simpl. destruct l as [|x' l]; [simpl in Hlen; lia|]. simpl.
      f_equal. eapply adj_fun; [done|exact Hs|apply adj_head_next].
    + destruct k as [|k]; [simpl in Hk; congruence|]. done.
  - intros a b Hab.
    assert (a ≠ y ∧ b ≠ y) as [Hay Hby].
    { apply adj_elem_of in Hab as [Ha Hb].
      rewrite delete_take_drop in Ha, Hb.
      rewrite <- (take_drop_middle _ _ _ Hk) in Hnd.
      apply NoDup_app in Hnd as (_ & Hnd1 & Hnd2).
      apply NoDup_cons in Hnd2 as [Hnd2 _].
      split; intros ->.
      - apply elem_of_app in Ha as [Ha|Ha]; [|done].
        eapply Hnd1; [done|]. by left.
      - apply elem_of_app in Hb as [Hb|Hb]; [|done].
        eapply Hnd1; [done|]. by left. }
    destruct (adj_delete _ _ _ _ _ Hk Hab) as [Hab'|[Hay' Hyb']].
    + destruct (Hl _ _ Hab') as [Han Hbp].
      assert (a ≠ p).
      { intros ->. apply Hby. eapply adj_fun; [done|exact Hab'|exact Hp]. }
      assert (b ≠ sx).
      { intros ->. apply Hay. eapply adj_inj; [done|exact Hab'|exact Hs]. }
      split.
      * rewrite next_of_set_prev, next_of_set_next_ne by done. done.
      * rewrite prev_of_set_prev_ne, prev_of_set_next by done. done.
    + assert (a = p) as -> by (eapply adj_inj; [done|exact Hay'|exact Hp]).
      assert (b = sx) as -> by (eapply adj_fun; [done|exact Hyb'|exact Hs]).
      split.
      * rewrite next_of_set_prev. by apply next_of_set_next_eq.
      * apply prev_of_set_prev_eq. by rewrite length_alter.
Qed.

(** The ring after the "add to tail" block. *)
Lemma ring_link pgs hd l h t y :
  ring pgs hd l →
  head l = Some h → last l = Some t →
  y ∉ l → (y < length pgs)%nat →
  ring (alter (page_set_prev (Some y)) h
          (alter (page_set_next (Some y)) t
             (alter (page_set_prev (Some t)) y
                (alter (page_set_next (Some h)) y pgs))))
       hd (l ++ [y]).
Proof.
  intros (Hnd & Hhd & Hl) Hh Ht Hy Hylt.
  pose proof (adj_last_head _ _ _ Hh Ht) as Hth.
  destruct (Hl _ _ Hth) as [Htn Hhp].
  pose proof (next_of_lt _ _ _ Htn) as Htlt.
  pose proof (prev_of_lt _ _ _ Hhp) as Hhlt.
  assert (h ≠ y) as Hhy.
  { intros ->. apply Hy. by apply adj_elem_of in Hth as [_ ?]. }
  assert (t ≠ y) as Hty.
  { intros ->. apply Hy. by apply adj_elem_of in Hth as [? _]. }
  assert (NoDup (l ++ [y])) as Hnd'.
  { apply NoDup_app. split_and!; [done| |apply NoDup_singleton].
    intros x Hx ->%list_elem_of_singleton. done. }
  split_and!; [done| |].
  - subst hd. destruct l; [done|]. done.
  - intros a b Hab.
    destruct (adj_snoc _ _ _ _ _ _ Hnd' Hh Ht Hab)
      as [(Hab' & Hat & Hbh & Hay & Hby)|[[-> ->]|[-> ->]]].
    + destruct (Hl _ _ Hab') as [Han Hbp]. split.
      * rewrite next_of_set_prev, next_of_set_next_ne, next_of_set_prev,
          next_of_set_next_ne by done. done.
      * rewrite prev_of_set_prev_ne, prev_of_set_next, prev_of_set_prev_ne,
          prev_of_set_next by done. done.
    + split.
      * rewrite next_of_set_prev. apply next_of_set_next_eq.
        by rewrite !length_alter.
      * rewrite prev_of_set_prev_ne, prev_of_set_next by done.
        apply prev_of_set_prev_eq. by rewrite length_alter.
    + split.
      * rewrite next_of_set_prev, next_of_set_next_ne, next_of_set_prev by done.
        by apply next_of_set_next_eq.
      * apply prev_of_set_prev_eq. by rewrite !length_alter.
Qed.

(** ** The invariant of the LRU list *)

Lemma lru_frame_refl s : lru_frame s s.
Proof. by repeat split. Qed.

Lemma lru_frame_trans s1 s2 s3 :
  lru_frame s1 s2 → lru_frame s2 s3 → lru_frame s1 s3.
Proof.
  unfold lru_frame. intros (?&?&?&?&?&?&?&?&Ho1) (?&?&?&?&?&?&?&?&Ho2).
  split_and!; try congruence; intros j; by rewrite Ho2, Ho1.
Qed.

Lemma NoDup_bounded_length (l : list nat) (n : nat) :
  NoDup l → (∀ x, x ∈ l → (x < n)%nat) → (length l ≤ n)%nat.
Proof.
  intros Hnd Hlt.
  assert (l ⊆+ seq 0 n) as Hsub.
  { apply NoDup_submseteq; [done|]. intros x Hx. apply elem_of_seq.
    specialize (Hlt x Hx). lia. }
  apply submseteq_length in Hsub. by rewrite length_seq in Hsub.
Qed.

Lemma lru_inv_lt s l x : lru_inv s l → x ∈ l → (x < length (pages s))%nat.
Proof. intros [Hr _ _ _] Hx. by eapply ring_lt. Qed.

Lemma lru_inv_length s l : lru_inv s l → (length l ≤ length (pages s))%nat.
Proof.
  intros Hinv. apply NoDup_bounded_length.
  - by destruct Hinv as [(? & _) _ _ _].
  - intros x Hx. by eapply lru_inv_lt.
Qed.

Lemma lru_inv_head_null s l : lru_inv s l → (page_lru_head s = None ↔ l = []).
Proof.
  intros [(_ & Hhd & _) _ _ _]. rewrite Hhd. by destruct l.
Qed.

Lemma int_incr_run n s :
  n < INT_MAX → int_incr n s = Done (n + 1) s.
Proof. intros Hn. unfold int_incr. by rewrite (proj2 (Z.ltb_lt _ _) Hn). Qed.

Lemma int_decr_run n s :
  INT_MIN < n → int_decr n s = Done (n - 1) s.
Proof. intros Hn. unfold int_decr. by rewrite (proj2 (Z.ltb_lt _ _) Hn). Qed.

(** *** [lru_add] *)

Lemma lru_add_inv s l y :
  lru_inv s l → y ∉ l → (y < length (pages s))%nat →
  ∃ s', lru_add (Some y) s = Done tt s' ∧ lru_inv s' (l ++ [y]) ∧ lru_frame s s'.
Proof.
  intros Hinv Hy Hylt.
  pose proof Hinv as [Hring Hnum Htab Hun].
  pose proof Hring as (Hnd & Hhd & Hl).
  assert (NoDup (l ++ [y])) as Hnd'.
  { apply NoDup_app. split_and!; [done| |apply NoDup_singleton].
    intros x Hx ->%list_elem_of_singleton. done. }
  assert (length (l ++ [y]) ≤ length (pages s))%nat as Hlen.
  { apply NoDup_bounded_length; [done|]. intros x [Hx| ->%list_elem_of_singleton]%elem_of_app.
    - by eapply ring_lt. - done. }
  rewrite length_app in Hlen. simpl in Hlen.
  unfold lru_add. unfold gets at 1. unfold bind at 1.
  destruct l as [|h l'] eqn:El.
  - (* the first frame *)
    simpl in Hhd. rewrite Hhd. rewrite decide_True by done.
    erewrite bind_run.
    2:{ run_pure.
        run_step ltac:(apply put_next_run; simpl_state; eassumption).
        apply put_prev_run. simpl_state. by rewrite length_alter. }
    simpl_state.
    run_pure.
    run_step ltac:(apply int_incr_run; simpl in *; lia).
    unfold modify. eexists. split; [done|]. split.
    + constructor; simpl_state.
      * split_and!; [done|done|]. intros a b [-> ->]%adj_singleton. split.
        -- rewrite next_of_set_prev. by apply next_of_set_next_eq.
        -- apply prev_of_set_prev_eq. by rewrite length_alter.
      * simpl in *. lia.
      * by rewrite !length_alter.
      * intros i Hi Hilt. rewrite !length_alter in Hilt.
        assert (y ≠ i) by (intros ->; apply Hi; by apply list_elem_of_singleton).
        rewrite next_of_set_prev, next_of_set_next_ne by done.
        rewrite prev_of_set_prev_ne, prev_of_set_next by done.
        apply Hun; [|done]. apply not_elem_of_nil.
    + repeat split; simpl_state; try done.
      * by rewrite !length_alter.
      * intros j. by rewrite owner_of_set_prev, owner_of_set_next.
  - (* behind the tail *)
    rewrite <- El in *.
    assert (is_Some (last l)) as [t Ht].
    { rewrite last_is_Some. subst l. done. }
    assert (head l = Some h) as Hh by (subst l; done).
    rewrite decide_False by (rewrite Hhd, Hh; done).
    erewrite bind_run; [|eapply link_before_head_run; eauto].
    run_pure.
    run_step ltac:(apply int_incr_run; lia).
    unfold modify. eexists. split; [done|]. split.
    + constructor; simpl_state.
      * by apply ring_link.
      * rewrite length_app. simpl. lia.
      * by rewrite !length_alter.
      * intros i Hi Hilt. rewrite !length_alter in Hilt.
        apply not_elem_of_app in Hi as [Hil Hiy].
        assert (y ≠ i) by (intros ->; apply Hiy; by apply list_elem_of_singleton).
        assert (h ≠ i).
        { intros ->. apply Hil. apply head_Some_elem_of. done. }
        assert (t ≠ i).
        { intros ->. apply Hil. apply last_Some_elem_of. done. }
        rewrite next_of_set_prev, next_of_set_next_ne, next_of_set_prev,
          next_of_set_next_ne by done.
        rewrite prev_of_set_prev_ne, prev_of_set_next, prev_of_set_prev_ne,
          prev_of_set_next by done.
        by apply Hun.
    + repeat split; simpl_state; try done.
      * by rewrite !length_alter.
      * intros j. by rewrite owner_of_set_prev, owner_of_set_next,
                       owner_of_set_prev, owner_of_set_next.
Qed.

Lemma not_elem_of_delete (l : list nat) k y :
  NoDup l → l !! k = Some y → y ∉ delete k l.
Proof.
  intros Hnd Hk Hin. rewrite delete_take_drop in Hin.
  rewrite <- (take_drop_middle _ _ _ Hk) in Hnd.
  apply NoDup_app in Hnd as (_ & Hnd1 & Hnd2).
  apply NoDup_cons in Hnd2 as [Hnd2 _].
  apply elem_of_app in Hin as [Hin|Hin]; [|done].
  eapply Hnd1; [done|]. by left.
Qed.

Lemma elem_of_delete_other (l : list nat) k y x :
  l !! k = Some y → x ∈ l → x ≠ y → x ∈ delete k l.
Proof.
  intros Hk Hx Hne. rewrite delete_take_drop.
  rewrite <- (take_drop_middle _ _ _ Hk) in Hx.
  apply elem_of_app in Hx as [Hx|Hx]; apply elem_of_app; [by left|].
  apply elem_of_cons in Hx as [->|Hx]; [done|by right].
Qed.

Lemma ring_alter_other pgs hd l y f :
  ring pgs hd l → y ∉ l → ring (alter f y pgs) hd l.
Proof.
  intros (Hnd & Hhd & Hl) Hy. split_and!; [done|done|].
  intros a b Hab. destruct (Hl _ _ Hab) as [Ha Hb].
  apply adj_elem_of in Hab as [Hal Hbl].
  unfold linked, next_of, prev_of.
  rewrite !list_lookup_alter_ne by (intros ->; done). done.
Qed.

Lemma ring_two (pgs : list page) hd l y sx :
  ring pgs hd l → adj l y sx → sx ≠ y → (2 ≤ length l)%nat.
Proof.
  intros (Hnd & _ & _) Hs Hne.
  destruct l as [|a [|b l]]; simpl; [by apply adj_nil in Hs| |lia].
  apply adj_singleton in Hs as [-> ->]. done.
Qed.

(** *** [lru_remove] *)

Lemma lru_remove_inv s l k y :
  lru_inv s l → l !! k = Some y →
  ∃ s', lru_remove (Some y) s = Done tt s' ∧ lru_inv s' (delete k l) ∧
        lru_frame s s'.
Proof.
  intros Hinv Hk.
  pose proof Hinv as [Hring Hnum Htab Hun].
  pose proof Hring as (Hnd & Hhd & Hl).
  assert (y ∈ l) as Hyl by (eapply list_elem_of_lookup_2; eauto).
  destruct (adj_pred _ _ Hyl) as (p & Hp). destruct (adj_succ _ _ Hyl) as (sx & Hs).
  destruct (Hl _ _ Hp) as [Hpn Hyp]. destruct (Hl _ _ Hs) as [Hyn Hsp].
  pose proof (next_of_lt _ _ _ Hyn) as Hylt.
  pose proof (next_of_lt _ _ _ Hpn) as Hplt.
  pose proof (prev_of_lt _ _ _ Hsp) as Hslt.
  pose proof (lookup_lt_Some _ _ _ Hk) as Hklt.
  unfold lru_remove.
  run_step ltac:(apply get_next_run; eassumption).
  destruct (decide (Some sx = Some y)) as [Heq|Hne].
  - (* the only frame *)
    injection Heq as ->. apply adj_self in Hs; [|done]. subst l.
    destruct k; [|done]. simpl in *.
    rewrite decide_True by done.
    run_pure.
    run_step ltac:(apply put_next_run; simpl_state; eassumption).
    run_step ltac:(apply put_prev_run; simpl_state; rewrite length_alter; eassumption).
    run_pure.
    run_step ltac:(apply int_decr_run; unfold INT_MIN; lia).
    eexists. split; [done|]. split.
    + constructor; simpl_state.
      * split_and!; [apply NoDup_nil_2|done|]. intros a b Hab. by apply adj_nil in Hab.
      * rewrite Hnum. simpl. lia.
      * by rewrite !length_alter.
      * intros i _ Hilt. rewrite !length_alter in Hilt.
        destruct (decide (y = i)) as [->|Hyi].
        -- split.
           ++ rewrite next_of_set_prev. by apply next_of_set_next_eq.
           ++ apply prev_of_set_prev_eq. by rewrite length_alter.
        -- rewrite next_of_set_prev, next_of_set_next_ne by done.
           rewrite prev_of_set_prev_ne, prev_of_set_next by done.
           apply Hun; [|done]. by intros ->%list_elem_of_singleton.
    + repeat split; simpl_state; try done.
      * by rewrite !length_alter.
      * intros j. by rewrite owner_of_set_prev, owner_of_set_next.
  - assert (sx ≠ y) as Hsy by congruence.
    pose proof (ring_two _ _ _ _ _ Hring Hs Hsy) as Hlen.
    rewrite decide_False by done.
    erewrite bind_run; [|eapply unlink_run; eauto].
    run_step ltac:(apply put_next_run; simpl_state; rewrite !length_alter; eassumption).
    run_step ltac:(apply put_prev_run; simpl_state; rewrite !length_alter; eassumption).
    run_pure.
    run_step ltac:(apply int_decr_run; unfold INT_MIN; lia).
    pose proof (not_elem_of_delete _ _ _ Hnd Hk) as Hyd.
    eexists. split; [done|]. split.
    + constructor; simpl_state.
      * do 2 (apply ring_alter_other; [|done]). by eapply ring_unlink.
      * rewrite length_delete by eauto. lia.
      * by rewrite !length_alter.
      * intros i Hi Hilt. rewrite !length_alter in Hilt.
        destruct (decide (y = i)) as [->|Hyi].
        -- split.
           ++ rewrite next_of_set_prev. apply next_of_set_next_eq.
              by rewrite !length_alter.
           ++ apply prev_of_set_prev_eq. by rewrite !length_alter.
        -- assert (i ∉ l) as Hil.
           { intros Hil. apply Hi. eapply elem_of_delete_other; eauto. }
           assert (p ≠ i) by (intros ->; by apply adj_elem_of in Hp as [? _]).
           assert (sx ≠ i) by (intros ->; by apply adj_elem_of in Hs as [_ ?]).
           rewrite next_of_set_prev, next_of_set_next_ne, next_of_set_prev,
             next_of_set_next_ne by done.
           rewrite prev_of_set_prev_ne, prev_of_set_next, prev_of_set_prev_ne,
             prev_of_set_next by done.
           by apply Hun.
    + repeat split; simpl_state; try done.
      * by rewrite !length_alter.
      * intros j. by rewrite owner_of_set_prev, owner_of_set_next,
                       owner_of_set_prev, owner_of_set_next.
Qed.

(** *** [lru_move_to_tail_locked] *)

Lemma lru_move_to_tail_noop s y :
  page_lru_head s = None ∨ next_of (pages s) y = Some None →
  lru_move_to_tail_locked (Some y) s = Done tt s.
Proof.
  intros Hcase. unfold lru_move_to_tail_locked. run_pure.
  destruct (decide (page_lru_head s = None)) as [|Hhd]; [done|].
  destruct Hcase as [|Hn]; [done|].
  run_step ltac:(apply get_next_run; eassumption).
  by rewrite decide_True.
Qed.

Lemma lru_move_to_tail_inv s l k y :
  lru_inv s l → l !! k = Some y →
  ∃ s', lru_move_to_tail_locked (Some y) s = Done tt s' ∧
        lru_inv s' (delete k l ++ [y]) ∧ lru_frame s s'.
Proof.
  intros Hinv Hk.
  pose proof Hinv as [Hring Hnum Htab Hun].
  pose proof Hring as (Hnd & Hhd & Hl).
  assert (y ∈ l) as Hyl by (eapply list_elem_of_lookup_2; eauto).
  destruct (adj_pred _ _ Hyl) as (p & Hp). destruct (adj_succ _ _ Hyl) as (sx & Hs).
  destruct (Hl _ _ Hp) as [Hpn Hyp]. destruct (Hl _ _ Hs) as [Hyn Hsp].
  pose proof (next_of_lt _ _ _ Hyn) as Hylt.
  pose proof (next_of_lt _ _ _ Hpn) as Hplt.
  pose proof (prev_of_lt _ _ _ Hsp) as Hslt.
  pose proof (lookup_lt_Some _ _ _ Hk) as Hklt.
  unfold lru_move_to_tail_locked. run_pure.
  rewrite decide_False by (rewrite Hhd; destruct l; done).
  run_step ltac:(apply get_next_run; eassumption).
  rewrite decide_False by done.
  erewrite bind_run; [|eapply unlink_run; eauto].
  set (pgs1 := alter (page_set_prev (Some p)) sx
                 (alter (page_set_next (Some sx)) p (pages s))).
  set (hd1 := if decide (page_lru_head s = Some y) then Some sx else page_lru_head s).
  assert (length pgs1 = length (pages s)) as Hlen1
      by (unfold pgs1; by rewrite !length_alter).
  assert (∃ l1 h1 t1,
             ring pgs1 hd1 l1 ∧ head l1 = Some h1 ∧ last l1 = Some t1 ∧
             h1 ∈ l ∧ t1 ∈ l ∧
             ring (alter (page_set_prev (Some y)) h1
                     (alter (page_set_next (Some y)) t1
                        (alter (page_set_prev (Some t1)) y
                           (alter (page_set_next (Some h1)) y pgs1))))
                  hd1 (delete k l ++ [y]))
    as (l1 & h1 & t1 & Hring1 & Hh1 & Ht1 & Hh1l & Ht1l & Hring2).
  { destruct (decide (sx = y)) as [->|Hsy].
    - (* the only frame: every write stores what is there already *)
      apply adj_self in Hs; [|done]. subst l.
      destruct k; [|done]. apply adj_singleton in Hp as [-> _].
      assert (hd1 = Some y) as Hhd1 by (unfold hd1; by case_decide).
      assert (ring pgs1 hd1 [y]) as Hr1.
      { split_and!; [done|by rewrite Hhd1|].
        intros a b [-> ->]%adj_singleton. unfold pgs1. split.
        - rewrite next_of_set_prev. by apply next_of_set_next_eq.
        - apply prev_of_set_prev_eq. by rewrite length_alter. }
      exists [y], y, y. split_and!; try done.
      split_and!; [done|by rewrite Hhd1|].
      intros a b [-> ->]%adj_singleton. split.
      + rewrite next_of_set_prev. apply next_of_set_next_eq.
        rewrite !length_alter. lia.
      + apply prev_of_set_prev_eq. rewrite !length_alter. lia.
    - pose proof (ring_two _ _ _ _ _ Hring Hs Hsy) as Hlen.
      pose proof (ring_unlink _ _ _ _ _ _ _ Hring Hk Hlen Hp Hs) as Hr1.
      fold pgs1 hd1 in Hr1.
      assert (length (delete k l) ≠ O) as Hne.
      { rewrite length_delete by eauto. lia. }
      destruct (delete k l) as [|h1 l1'] eqn:Ed; [done|].
      assert (is_Some (last (h1 :: l1'))) as [t1 Ht1] by (by rewrite last_is_Some).
      assert (∀ x, x ∈ h1 :: l1' → x ∈ l) as Hsub.
      { intros x Hx. rewrite <- Ed in Hx. by eapply list_elem_of_delete_inv. }
      exists (h1 :: l1'), h1, t1. split_and!; try done.
      + apply Hsub. by left.
      + apply Hsub. by apply last_Some_elem_of.
      + apply ring_link; try done.
        * rewrite <- Ed. by apply not_elem_of_delete.
        * lia. }
  rewrite (link_before_head_run _ l1 h1 t1) by (simpl_state; eauto; lia).
  simpl_state. fold pgs1 hd1.
  eexists. split; [done|]. split.
  - constructor; simpl_state.
    + done.
    + rewrite length_app, length_delete by eauto. simpl. lia.
    + rewrite !length_alter. lia.
    + intros i Hi Hilt. rewrite !length_alter in Hilt.
      apply not_elem_of_app in Hi as [Hid Hiy].
      assert (y ≠ i) by (intros ->; apply Hiy; by apply list_elem_of_singleton).
      assert (i ∉ l) as Hil.
      { intros Hil. apply Hid. eapply elem_of_delete_other; eauto. }
      assert (p ≠ i) by (intros ->; by apply adj_elem_of in Hp as [? _]).
      assert (sx ≠ i) by (intros ->; by apply adj_elem_of in Hs as [_ ?]).
      assert (h1 ≠ i) by (intros ->; done).
      assert (t1 ≠ i) by (intros ->; done).
      unfold pgs1.
      rewrite next_of_set_prev, next_of_set_next_ne, next_of_set_prev,
        next_of_set_next_ne, next_of_set_prev, next_of_set_next_ne by done.
      rewrite prev_of_set_prev_ne, prev_of_set_next, prev_of_set_prev_ne,
        prev_of_set_next, prev_of_set_prev_ne, prev_of_set_next by done.
      apply Hun; [done|lia].
  - repeat split; simpl_state; try done.
    + rewrite !length_alter. lia.
    + intros j. unfold pgs1.
      by rewrite owner_of_set_prev, owner_of_set_next, owner_of_set_prev,
        owner_of_set_next, owner_of_set_prev, owner_of_set_next.
Qed.

(** ** Sequences of list operations *)

Lemma filter_ne_notin (l : list nat) y :
  y ∉ l → filter (λ x, x ≠ y) l = l.
Proof.
  induction l as [|a l IH]; intros Hy; [done|].
  apply not_elem_of_cons in Hy as [Hya Hy].
  rewrite filter_cons_True by done. f_equal. by apply IH.
Qed.

Lemma filter_ne_delete (l : list nat) k y :
  NoDup l → l !! k = Some y → filter (λ x, x ≠ y) l = delete k l.
Proof.
  revert k. induction l as [|a l IH]; intros k Hnd Hk; [done|].
  apply NoDup_cons in Hnd as [Ha Hnd]. destruct k as [|k]; simpl in *.
  - injection Hk as ->. rewrite filter_cons_False by (intros ?; done).
    by apply filter_ne_notin.
  - assert (a ≠ y).
    { intros ->. apply Ha. eapply list_elem_of_lookup_2; eauto. }
    rewrite filter_cons_True by done. f_equal. by apply IH.
Qed.

Lemma lru_empty_inv s : lru_empty s → lru_inv s [].
Proof.
  intros (Hhd & Hnum & Htab & Hz). constructor.
  - split_and!; [apply NoDup_nil_2|done|]. intros a b Hab. by apply adj_nil in Hab.
  - done.
  - done.
  - intros i _ Hi. destruct (lookup_lt_is_Some_2 _ _ Hi) as (p & Hp).
    rewrite Forall_forall in Hz.
    destruct (Hz p) as [Hn Hpv]; [eapply list_elem_of_lookup_2; eauto|].
    unfold next_of, prev_of. rewrite Hp. simpl. by rewrite Hn, Hpv.
Qed.

Lemma do_op_inv s l op :
  lru_inv s l → op_allowed (length (pages s)) l op →
  ∃ s', do_op op s = Done tt s' ∧ lru_inv s' (enrolled_step l op) ∧ lru_frame s s'.
Proof.
  intros Hinv Hop. pose proof Hinv as [(Hnd & _ & _) _ _ Hun].
  destruct op as [pg|pg|pg]; simpl in *.
  - destruct Hop as [Hpg Hlt]. by apply lru_add_inv.
  - apply list_elem_of_lookup_1 in Hop as (k & Hk).
    rewrite (filter_ne_delete _ _ _ Hnd Hk). by apply lru_remove_inv.
  - case_decide as Hpg.
    + apply list_elem_of_lookup_1 in Hpg as (k & Hk).
      rewrite (filter_ne_delete _ _ _ Hnd Hk). by apply lru_move_to_tail_inv.
    + exists s. split_and!; [|done|apply lru_frame_refl].
      apply lru_move_to_tail_noop. right. by apply Hun.
Qed.

Lemma do_ops_inv ops s l :
  lru_inv s l → ops_allowed (length (pages s)) l ops →
  ∃ s', do_ops ops s = Done tt s' ∧ lru_inv s' (foldl enrolled_step l ops) ∧
        lru_frame s s'.
Proof.
  revert s l. induction ops as [|op ops IH]; intros s l Hinv Hops; simpl in *.
  - exists s. split_and!; [done|done|apply lru_frame_refl].
  - destruct Hops as [Hop Hops].
    destruct (do_op_inv _ _ _ Hinv Hop) as (s1 & Hrun & Hinv1 & Hfr1).
    destruct (IH s1 (enrolled_step l op) Hinv1) as (s2 & Hrun2 & Hinv2 & Hfr2).
    { destruct Hfr1 as (_&_&_&_&_&_&_&Hlen&_). by rewrite Hlen. }
    exists s2. split_and!; [|done|by eapply lru_frame_trans].
    by rewrite (bind_run _ _ _ _ _ Hrun).
Qed.

(** What the invariant says about the links of an enrolled frame. *)
Lemma lru_inv_links s l pg :
  lru_inv s l → pg ∈ l →
  ∃ nx pv, nx ∈ l ∧ pv ∈ l ∧
           next_of (pages s) pg = Some (Some nx) ∧
           prev_of (pages s) pg = Some (Some pv) ∧
           prev_of (pages s) nx = Some (Some pg) ∧
           next_of (pages s) pv = Some (Some pg).
Proof.
  intros [(Hnd & _ & Hl) _ _ _] Hpg.
  destruct (adj_succ _ _ Hpg) as (nx & Hn). destruct (adj_pred _ _ Hpg) as (pv & Hp).
  destruct (Hl _ _ Hn) as [? ?]. destruct (Hl _ _ Hp) as [? ?].
  exists nx, pv. split_and!; try done.
  - by apply adj_elem_of in Hn as [_ ?].
  - by apply adj_elem_of in Hp as [? _].
Qed.

(** C10.  Starting from the empty list, any sequence of [lru_add] (of
    frames not enrolled), [lru_remove] (of enrolled frames) and
    [lru_move_to_tail_locked] runs to completion and leaves a
    well-formed ring: [num_lru_pages] is the number of enrolled frames,
    [page_lru_head] is null exactly when that number is zero, and every
    enrolled frame [pg] has [pg->next->prev == pg] and
    [pg->prev->next == pg].  And [lru_move_to_tail_locked] changes
    nothing at all when the list is empty or the frame is unlinked. *)
Theorem lru_ring_invariant (s : kstate) (ops : list lru_op) :
  lru_empty s →
  ops_allowed (length (pages s)) [] ops →
  (∃ s', do_ops ops s = Done tt s' ∧
         lru_inv s' (enrolled_after ops) ∧
         num_lru_pages s' = Z.of_nat (length (enrolled_after ops)) ∧
         (page_lru_head s' = None ↔ num_lru_pages s' = 0) ∧
         ∀ pg, pg ∈ enrolled_after ops →
               ∃ nx pv, next_of (pages s') pg = Some (Some nx) ∧
                        prev_of (pages s') pg = Some (Some pv) ∧
                        prev_of (pages s') nx = Some (Some pg) ∧
                        next_of (pages s') pv = Some (Some pg)) ∧
  (∀ (st : kstate) (pg : nat),
      page_lru_head st = None ∨ next_of (pages st) pg = Some None →
      lru_move_to_tail_locked (Some pg) st = Done tt st).
Proof.
  intros Hempty Hops. split; [|apply lru_move_to_tail_noop].
  destruct (do_ops_inv ops s [] (lru_empty_inv _ Hempty) Hops)
    as (s' & Hrun & Hinv & _).
  fold (enrolled_after ops) in Hinv.
  exists s'. split_and!; [done|done|by destruct Hinv| |].
  - rewrite (lru_inv_head_null _ _ Hinv). destruct Hinv as [_ -> _ _].
    destruct (enrolled_after ops); simpl; [done|]. split; [done|lia].
  - intros pg Hpg.
    destruct (lru_inv_links _ _ _ Hinv Hpg) as (nx & pv & _ & _ & ? & ? & ? & ?).
    by exists nx, pv.
Qed.

(** The theorem at [boot_ops]: frames 2 and 0 stay enrolled, 2 at
    the head. *)
Lemma lru_ring_invariant_witness :
  ∃ s', do_ops boot_ops boot_state = Done tt s' ∧
        num_lru_pages s' = 2 ∧ page_lru_head s' = Some 2%nat ∧
        next_of (pages s') 2 = Some (Some 0%nat) ∧
        prev_of (pages s') 0 = Some (Some 2%nat).
Proof.
  destruct (lru_ring_invariant boot_state boot_ops)
    as [(s' & Hrun & Hinv & Hnum & _ & _) _].
  - split_and!; [done|done|done|]. repeat constructor.
  - simpl. split_and!; try done; try lia; compute_done.
  - exists s'. split; [done|]. split; [done|].
    destruct Hinv as [(_ & Hhd & Hl) _ _ _].
    split; [done|]. apply (Hl 2%nat 0%nat). by exists O.
Defined.

(** ** [lru_remove] on an enrolled frame *)

(** C7, as the code has it.  For an enrolled frame, [lru_remove]
    splices it out of the ring (the ring of the other frames stays
    well formed, in the same order), moves the head to the next frame
    when the removed frame was the head (to null when it was the only
    one), nulls both links of the frame and counts one frame less.  The
    owner page table and the virtual address of the frame stay as they
    were. *)
Theorem lru_remove_splices (s : kstate) (l : list nat) (k y : nat) :
  lru_inv s l → l !! k = Some y →
  ∃ s', lru_remove (Some y) s = Done tt s' ∧
        lru_inv s' (delete k l) ∧
        (page_lru_head s = Some y →
         page_lru_head s' = if decide (l = [y]) then None
                            else default None (next_of (pages s) y)) ∧
        (page_lru_head s ≠ Some y → page_lru_head s' = page_lru_head s) ∧
        next_of (pages s') y = Some None ∧
        prev_of (pages s') y = Some None ∧
        owner_of (pages s') y = owner_of (pages s) y ∧
        num_lru_pages s' = num_lru_pages s - 1.
Proof.
  intros Hinv Hk.
  destruct (lru_remove_inv _ _ _ _ Hinv Hk) as (s' & Hrun & Hinv' & Hfr).
  pose proof Hinv as [(Hnd & Hhd & Hl) Hnum _ _].
  pose proof Hinv' as [(Hnd' & Hhd' & _) Hnum' _ Hun'].
  assert (y ∈ l) as Hyl by (eapply list_elem_of_lookup_2; eauto).
  pose proof (lru_inv_lt _ _ _ Hinv Hyl) as Hylt.
  destruct Hfr as (_&_&_&_&_&_&_&Hlen&Hown).
  exists s'. split_and!; try done.
  - intros Hy. rewrite Hhd', Hhd in *.
    destruct l as [|a l']; [done|]. simpl in Hy. injection Hy as ->.
    assert (k = O) as -> by (eapply NoDup_lookup; eauto; done).
    simpl. destruct l' as [|b l'']; [by rewrite decide_True|].
    rewrite decide_False by done.
    destruct (Hl y b) as [-> _]; [apply adj_head_next|]. done.
  - intros Hy. rewrite Hhd', Hhd in *.
    destruct k as [|k]; [destruct l; simpl in *; congruence|].
    by destruct l.
  - apply Hun'; [by apply not_elem_of_delete|by rewrite Hlen].
  - apply Hun'; [by apply not_elem_of_delete|by rewrite Hlen].
  - rewrite Hnum', Hnum, length_delete by eauto.
    pose proof (lookup_lt_Some _ _ _ Hk). lia.
Qed.

Lemma one_frame_inv : lru_inv one_frame [0%nat].
Proof.
  constructor.
  - split_and!; [apply NoDup_singleton|done|].
    intros a b [-> ->]%adj_singleton. done.
  - done.
  - done.
  - intros i Hi Hlt. simpl in Hlt. destruct i; [|lia].
    exfalso. apply Hi. by apply list_elem_of_singleton.
Qed.

(** C7, the owner fields: the only enrolled frame is removed and its
    page table and virtual address are still recorded in the table. *)
Lemma lru_remove_keeps_owner :
  lru_inv one_frame [0%nat] ∧
  owner_of (pages one_frame) 0 = Some (leaf_table, 0x1000) ∧
  ∃ s', lru_remove (Some 0%nat) one_frame = Done tt s' ∧
        page_lru_head s' = None ∧
        owner_of (pages s') 0 = Some (leaf_table, 0x1000) ∧
        owner_of (pages s') 0 ≠ Some (0, 0).
Proof.
  split_and!; [apply one_frame_inv|done|].
  eexists. split; [vm_compute; reflexivity|]. done.
Qed.

(** The theorem at the one-frame list. *)
Lemma lru_remove_splices_witness :
  ∃ s', lru_remove (Some 0%nat) one_frame = Done tt s' ∧
        lru_inv s' [] ∧
        next_of (pages s') 0 = Some None ∧
        prev_of (pages s') 0 = Some None ∧
        num_lru_pages s' = 0.
Proof.
  destruct (lru_remove_splices one_frame [0%nat] 0 0
              one_frame_inv eq_refl)
    as (s' & Hrun & Hinv & _ & _ & Hn & Hp & _ & Hnum).
  exists s'. split_and!; done.
Defined.

(** ** The clock scan on a well-formed ring *)

Lemma lru_inv_set_ptes s l v : lru_inv s l → lru_inv (set_ptes v s) l.
Proof. intros [? ? ? ?]. by constructor. Qed.

Lemma get_field_run {A} (f : page → A) pgi s p :
  pages s !! pgi = Some p → get_field f (Some pgi) s = Done (f p) s.
Proof. intros Hp. unfold get_field. by rewrite Hp. Qed.

Lemma read_pte_run a s :
  a ≠ 0 → read_pte a s = Done (default 0 (ptes s !! a)) s.
Proof. intros Ha. unfold read_pte. by rewrite (proj2 (Z.eqb_neq _ _) Ha). Qed.

Lemma write_pte_run a v s :
  a ≠ 0 → write_pte a v s = Done tt (set_ptes (<[a := v]> (ptes s)) s).
Proof. intros Ha. unfold write_pte. by rewrite (proj2 (Z.eqb_neq _ _) Ha). Qed.

Section Scan.
Context (M : machine).

(** Moving on from a stale candidate at position [k]. *)
Lemma scan_skip_run loop s l k c :
  lru_inv s l → l !! k = Some c →
  scan_skip loop (Some c) (Z.of_nat k) s
  = match l !! S k with
    | Some c' => loop (Some c') (Z.of_nat (S k)) s
    | None => Done None s
    end.
Proof.
  intros Hinv Hk.
  pose proof Hinv as [(Hnd & Hhd & Hl) Hnum Htab _].
  pose proof (lookup_lt_Some _ _ _ Hk) as Hklt.
  pose proof (lru_inv_length _ _ Hinv) as Hlen.
  destruct (lookup_lt_is_Some_2 l (if decide (S k = length l) then O else S k))
    as (c' & Hc'); [case_decide; lia|].
  assert (adj l c c') as Hadj by (by exists k).
  destruct (Hl _ _ Hadj) as [Hn _].
  unfold scan_skip.
  run_step ltac:(apply get_next_run; eassumption).
  run_step ltac:(apply int_incr_run; lia).
  run_pure. rewrite Hnum.
  replace (Z.of_nat k + 1 >? Z.of_nat (length l)) with false
    by (rewrite Z.gtb_ltb; symmetry; apply Z.ltb_ge; lia).
  unfold scan_again. run_pure. run_pure. rewrite Hnum, Hhd.
  destruct (decide (S k = length l)) as [Hlast|Hlast].
  - rewrite (lookup_ge_None_2 l (S k)) by lia.
    rewrite <- head_lookup in Hc'. rewrite Hc'.
    rewrite bool_decide_eq_false_2 by (intros ?; done). done.
  - rewrite Hc'.
    rewrite bool_decide_eq_true_2.
    2:{ rewrite head_lookup. intros Heq.
        assert (l !! O = Some c') as H0 by (destruct (l !! O); congruence).
        assert (S k = O) by (eapply NoDup_lookup; eauto). lia. }
    replace (Z.of_nat k + 1 <=? Z.of_nat (length l)) with true
      by (symmetry; apply Z.leb_le; lia).
    simpl. by replace (Z.of_nat k + 1) with (Z.of_nat (S k)) by lia.
Qed.

(** One iteration, by what the candidate is. *)
Lemma scan_loop_step fuel s c r :
  scan_loop M (S fuel) (Some c) r s
  = match probe M s c with
    | None => Fault
    | Some Stale => scan_skip (scan_loop M fuel) (Some c) r s
    | Some Victim => Done (Some c) s
    | Some (Referenced pte e) =>
        (run write_pte pte (clear_bits e PTE_A);
         run lru_move_to_tail_locked (Some c);
         do curr <- get_next (Some c);
         do rounds <- int_incr r;
         scan_again (scan_loop M fuel) curr rounds) s
    end.
Proof.
  unfold probe. cbn [scan_loop]. unfold scan_body.
  destruct (pages s !! c) as [p|] eqn:Hp.
  2:{ unfold bind, get_field. by rewrite Hp. }
  run_step ltac:(apply get_field_run; eassumption).
  run_step ltac:(apply get_field_run; eassumption).
  destruct ((pagetable p =? 0) || (vaddr p =? 0)); [done|].
  destruct (walk M (pagetable p) (vaddr p) =? 0) eqn:Hw.
  { run_pure. done. }
  apply Z.eqb_neq in Hw.
  erewrite bind_run.
  2:{ run_step ltac:(by apply read_pte_run). reflexivity. }
  destruct (Z.land (default 0 (ptes s !! walk M (pagetable p) (vaddr p))) PTE_V =? 0);
    [done|].
  run_step ltac:(by apply read_pte_run).
  destruct (Z.land (default 0 (ptes s !! walk M (pagetable p) (vaddr p))) PTE_A =? 0);
    [done|].
  run_step ltac:(by apply read_pte_run).
  done.
Qed.

Lemma probe_referenced_nonnull s c pte e :
  probe M s c = Some (Referenced pte e) →
  pte ≠ 0 ∧ e = default 0 (ptes s !! pte) ∧
  Z.land e PTE_V ≠ 0 ∧ Z.land e PTE_A ≠ 0.
Proof.
  unfold probe. destruct (pages s !! c) as [p|]; [|done].
  destruct ((pagetable p =? 0) || (vaddr p =? 0)); [done|].
  destruct (walk M (pagetable p) (vaddr p) =? 0) eqn:Hw; [done|].
  destruct (Z.land _ PTE_V =? 0) eqn:Hv; [done|].
  destruct (Z.land _ PTE_A =? 0) eqn:Ha; [done|].
  intros [= <- <-]. apply Z.eqb_neq in Hw, Hv, Ha. done.
Qed.

(** The second chance: the entry loses its Accessed flag, the frame
    goes to the tail, and the frame after it is the head, where the
    loop condition ends the scan without a victim. *)
Lemma scan_second_chance s l k c pte e :
  lru_inv s l → l !! k = Some c →
  probe M s c = Some (Referenced pte e) →
  ∃ s', (∀ fuel, scan_loop M (S fuel) (Some c) (Z.of_nat k) s = Done None s') ∧
        lru_inv s' (delete k l ++ [c]) ∧
        lru_frame (set_ptes (<[pte := clear_bits e PTE_A]> (ptes s)) s) s'.
Proof.
  intros Hinv Hk Hprobe.
  destruct (probe_referenced_nonnull _ _ _ _ Hprobe) as (Hpte & _ & _ & _).
  pose proof (lookup_lt_Some _ _ _ Hk) as Hklt.
  pose proof (lru_inv_length _ _ Hinv) as Hlen.
  pose proof (inv_table _ _ Hinv) as Htab.
  destruct (lru_move_to_tail_inv
              (set_ptes (<[pte := clear_bits e PTE_A]> (ptes s)) s) l k c)
    as (s' & Hrun & Hinv' & Hfr); [by apply lru_inv_set_ptes|done|].
  exists s'. split; [|done].
  intros fuel.
  rewrite scan_loop_step, Hprobe.
  run_step ltac:(by apply write_pte_run).
  run_step ltac:(exact Hrun).
  pose proof Hinv' as [(Hnd' & Hhd' & Hl') Hnum' _ _].
  assert (is_Some (head (delete k l ++ [c]))) as [h Hh].
  { destruct (delete k l); simpl; eauto. }
  assert (adj (delete k l ++ [c]) c h) as Hadj.
  { apply adj_last_head; [done|]. by rewrite last_snoc. }
  destruct (Hl' _ _ Hadj) as [Hn _].
  run_step ltac:(apply get_next_run; eassumption).
  run_step ltac:(apply int_incr_run; lia).
  unfold scan_again. run_pure. run_pure.
  rewrite Hhd', Hh.
  by rewrite bool_decide_eq_false_2 by (intros ?; done).
Qed.

(** The scan from position [k]: it returns, with any fuel from the
    number of frames left on, a victim (and then it has changed
    nothing) or no victim. *)
Lemma scan_from_position d : ∀ s l k c,
  lru_inv s l → l !! k = Some c → (length l - k = d)%nat →
  ∃ v s',
    (∀ fuel, (d ≤ fuel)%nat →
             scan_loop M fuel (Some c) (Z.of_nat k) s = Done v s') ∧
    ((∃ vi, v = Some vi ∧ s' = s ∧ vi ∈ l ∧ probe M s vi = Some Victim) ∨
     (v = None ∧ s' = s) ∨
     (v = None ∧ ∃ k' c' pte e,
         l !! k' = Some c' ∧ probe M s c' = Some (Referenced pte e) ∧
         lru_inv s' (delete k' l ++ [c']) ∧
         lru_frame (set_ptes (<[pte := clear_bits e PTE_A]> (ptes s)) s) s')).
Proof.
  induction d as [|d IH]; intros s l k c Hinv Hk Hd.
  { pose proof (lookup_lt_Some _ _ _ Hk). lia. }
  pose proof (lookup_lt_Some _ _ _ Hk) as Hklt.
  assert (c ∈ l) as Hcl by (eapply list_elem_of_lookup_2; eauto).
  pose proof (lru_inv_lt _ _ _ Hinv Hcl) as Hclt.
  destruct (probe M s c) as [[| |pte e]|] eqn:Hprobe.
  - (* stale: on to the next frame, or back at the head *)
    destruct (l !! S k) as [c'|] eqn:Hnext.
    + destruct (IH s l (S k) c' Hinv Hnext) as (v & s' & Hrun & Hres); [lia|].
      exists v, s'. split; [|done].
      intros [|fuel] Hfuel; [lia|].
      rewrite scan_loop_step, Hprobe.
      rewrite (scan_skip_run _ _ _ _ _ Hinv Hk), Hnext.
      apply Hrun. lia.
    + exists None, s. split; [|by right; left].
      intros [|fuel] Hfuel; [lia|].
      rewrite scan_loop_step, Hprobe.
      by rewrite (scan_skip_run _ _ _ _ _ Hinv Hk), Hnext.
  - exists (Some c), s. split.
    + intros [|fuel] Hfuel; [lia|]. by rewrite scan_loop_step, Hprobe.
    + left. by exists c.
  - destruct (scan_second_chance _ _ _ _ _ _ Hinv Hk Hprobe)
      as (s' & Hrun & Hinv' & Hfr).
    exists None, s'. split.
    + intros [|fuel] Hfuel; [lia|]. apply Hrun.
    + right; right. split; [done|]. by exists k, c, pte, e.
  - unfold probe in Hprobe.
    destruct (lookup_lt_is_Some_2 _ _ Hclt) as (p & Hp). rewrite Hp in Hprobe.
    repeat case_match; done.
Qed.

End Scan.

Lemma lru_inv_set_swapouts s l v : lru_inv s l → lru_inv (set_swapouts v s) l.
Proof. intros [? ? ? ?]. by constructor. Qed.

(** The invariant of a literal state. *)
Ltac literal_adj H :=
  let i := fresh "i" in
  let Ha := fresh "Ha" in
  let Hb := fresh "Hb" in
  destruct H as (i & Ha & Hb);
  repeat (destruct i as [|i];
          [simpl in Ha, Hb; injection Ha as <-; injection Hb as <-; done|]);
  simpl in Ha; destruct i; done.

Lemma three_frames_inv fl0 fl1 fl2 :
  lru_inv (three_frames fl0 fl1 fl2) [0; 1; 2]%nat.
Proof.
  constructor.
  - split_and!.
    + compute_done.
    + done.
    + intros a b Hab. literal_adj Hab.
  - done.
  - done.
  - intros i Hi Hlt. simpl in Hlt.
    destruct i as [|[|[|[|i]]]]; [exfalso; apply Hi; compute_done..|done|lia].
Qed.

(** C8.  On a well-formed ring, whatever the Accessed flags are, the
    scan of [swapout] returns: as many candidate steps as the ring has
    frames are enough, so [num_lru_pages + 1] are, and more change
    nothing.  A victim it returns is an enrolled frame. *)
Theorem scan_terminates (M : machine) (s : kstate) (l : list nat) :
  lru_inv s l → l ≠ [] →
  ∃ v s',
    (∀ fuel, (Z.to_nat (num_lru_pages s) ≤ fuel)%nat →
             scan_loop M fuel (page_lru_head s) 0 s = Done v s') ∧
    scan_loop M (scan_fuel s) (page_lru_head s) 0 s = Done v s' ∧
    (∀ vi, v = Some vi → vi ∈ l).
Proof.
  intros Hinv Hne.
  pose proof Hinv as [(_ & Hhd & _) Hnum _ _].
  destruct l as [|h l']; [done|]. simpl in Hhd.
  destruct (scan_from_position M (length (h :: l')) s (h :: l') 0 h Hinv eq_refl)
    as (v & s' & Hrun & Hres); [lia|].
  rewrite Hhd, Hnum, Nat2Z.id.
  exists v, s'. split_and!.
  - intros fuel Hfuel. by apply (Hrun fuel).
  - apply (Hrun (scan_fuel s)). unfold scan_fuel. rewrite Hnum, Nat2Z.id. lia.
  - intros vi ->. destruct Hres as [(vi' & [= <-] & _ & Hin & _)|[[? _]|[? _]]]; done.
Qed.

(** The theorem at three frames that all have Accessed set. *)
Lemma scan_terminates_witness :
  ∃ v s',
    (∀ fuel, (Z.to_nat (num_lru_pages all_accessed) ≤ fuel)%nat →
             scan_loop qemu fuel (page_lru_head all_accessed) 0 all_accessed
             = Done v s') ∧
    scan_loop qemu (scan_fuel all_accessed) (page_lru_head all_accessed) 0
              all_accessed = Done v s' ∧
    (∀ vi, v = Some vi → vi ∈ [0; 1; 2]%nat).
Proof.
  apply (scan_terminates qemu all_accessed [0; 1; 2]%nat).
  - apply three_frames_inv.
  - done.
Defined.

(** ** Bits *)

Lemma testbit_pow2 (k i : Z) : 0 ≤ k → Z.testbit (Z.shiftl 1 k) i = bool_decide (i = k).
Proof.
  intros Hk. rewrite Z.shiftl_1_l, Z.pow2_bits_eqb by done.
  case_bool_decide; [apply Z.eqb_eq|apply Z.eqb_neq]; lia.
Qed.

Lemma land_lor_lnot_same (b m : Z) :
  Z.land b m = 0 → clear_bits (Z.lor b m) m = b.
Proof.
  intros Hbm. unfold clear_bits. apply Z.bits_inj'. intros i Hi.
  rewrite Z.land_spec, Z.lor_spec, Z.lnot_spec by done.
  assert (Z.testbit (Z.land b m) i = false) as Hz by (rewrite Hbm; apply Z.bits_0).
  rewrite Z.land_spec in Hz.
  destruct (Z.testbit b i), (Z.testbit m i); simpl in *; congruence.
Qed.

Lemma lor_bound (a b k : Z) :
  0 ≤ k → 0 ≤ a < 2 ^ k → 0 ≤ b < 2 ^ k → 0 ≤ Z.lor a b < 2 ^ k.
Proof.
  intros Hk Ha Hb. split; [apply Z.lor_nonneg; lia|].
  destruct (decide (k = 0)) as [->|Hk0].
  { assert (a = 0) as -> by lia. assert (b = 0) as -> by lia. done. }
  assert (∀ x, 0 ≤ x < 2 ^ k → Z.log2 x < k) as Hlog.
  { intros x Hx. destruct (decide (x = 0)) as [->|]; [simpl; lia|].
    apply Z.log2_lt_pow2; lia. }
  destruct (decide (Z.lor a b = 0)) as [->|Hne]; [lia|].
  assert (0 ≤ Z.lor a b) by (apply Z.lor_nonneg; lia).
  apply Z.log2_lt_pow2; [lia|].
  rewrite Z.log2_lor by lia. apply Z.max_lub_lt; by apply Hlog.
Qed.

Lemma bit_mask_bound (r : Z) : 0 ≤ Z.shiftl 1 (r mod 8) < 2 ^ 8.
Proof.
  pose proof (Z.mod_pos_bound r 8 ltac:(lia)) as Hr.
  rewrite Z.shiftl_1_l. split; [apply Z.pow_nonneg; lia|].
  apply Z.pow_lt_mono_r; lia.
Qed.

(** ** The swap bitmap *)

Section Bitmap.
Context (M : machine).

Lemma bitmap_get_run j s b :
  swap_bitmap s !! Z.to_nat j = Some b → bitmap_get j s = Done b s.
Proof. intros Hb. unfold bitmap_get. by rewrite Hb. Qed.

Lemma bitmap_set_run j v s b :
  swap_bitmap s !! Z.to_nat j = Some b →
  bitmap_set j v s
  = Done tt (set_swap_bitmap (<[Z.to_nat j := v mod 256]> (swap_bitmap s)) s).
Proof. intros Hb. unfold bitmap_set. by rewrite Hb. Qed.

(** What [swap_alloc] returns: no slot and no change, or a slot whose
    bit was clear and is now set. *)
Lemma swap_alloc_from_spec n : ∀ i s r s',
  swap_alloc_from n i s = Done r s' →
  (r = -1 ∧ s' = s) ∨
  (i ≤ r < i + Z.of_nat n ∧
   ∃ b, swap_bitmap s !! Z.to_nat (r / 8) = Some b ∧
        Z.land b (Z.shiftl 1 (r mod 8)) = 0 ∧
        s' = set_swap_bitmap
               (<[Z.to_nat (r / 8) := Z.lor b (Z.shiftl 1 (r mod 8)) mod 256]>
                  (swap_bitmap s)) s).
Proof.
  induction n as [|n IH]; intros i s r s' Hrun; simpl in Hrun.
  - left. unfold ret in Hrun. by injection Hrun as <- <-.
  - unfold bind at 1 in Hrun. unfold bitmap_get in Hrun.
    destruct (swap_bitmap s !! Z.to_nat (i / 8)) as [b|] eqn:Hb; [|done].
    destruct (Z.land b (Z.shiftl 1 (i mod 8)) =? 0) eqn:Hbit.
    + apply Z.eqb_eq in Hbit.
      rewrite (bind_run _ _ _ _ _ (bitmap_set_run _ _ _ _ Hb)) in Hrun.
      unfold ret in Hrun. injection Hrun as <- <-.
      right. split; [lia|]. by exists b.
    + destruct (IH _ _ _ _ Hrun) as [?|[Hr Hex]]; [by left|].
      right. split; [lia|done].
Qed.

Lemma swap_alloc_from_total n : ∀ i s,
  0 ≤ i → i + Z.of_nat n ≤ 8 * Z.of_nat (length (swap_bitmap s)) →
  ∃ r s', swap_alloc_from n i s = Done r s'.
Proof.
  induction n as [|n IH]; intros i s Hi Hlen; simpl.
  - by exists (-1), s.
  - destruct (lookup_lt_is_Some_2 (swap_bitmap s) (Z.to_nat (i / 8))) as (b & Hb).
    { apply Nat2Z.inj_lt. rewrite Z2Nat.id by (apply Z.div_pos; lia).
      apply Z.div_lt_upper_bound; lia. }
    rewrite (bind_run _ _ _ _ _ (bitmap_get_run _ _ _ Hb)).
    destruct (Z.land b (Z.shiftl 1 (i mod 8)) =? 0).
    + rewrite (bind_run _ _ _ _ _ (bitmap_set_run _ _ _ _ Hb)). by eexists _, _.
    + apply IH; lia.
Qed.

(** Freeing the slot that was just allocated restores the bitmap. *)
Lemma swap_free_undoes s r b :
  0 ≤ r < SWAP_PAGES M → bitmap_bytes s →
  swap_bitmap s !! Z.to_nat (r / 8) = Some b →
  Z.land b (Z.shiftl 1 (r mod 8)) = 0 →
  swap_free M r
    (set_swap_bitmap
       (<[Z.to_nat (r / 8) := Z.lor b (Z.shiftl 1 (r mod 8)) mod 256]>
          (swap_bitmap s)) s)
  = Done tt s.
Proof.
  intros Hr Hbytes Hb Hbit.
  pose proof (lookup_lt_Some _ _ _ Hb) as Hlt.
  assert (0 ≤ b < 256) as Hbb.
  { unfold bitmap_bytes in Hbytes. rewrite Forall_forall in Hbytes.
    apply Hbytes. eapply list_elem_of_lookup_2; eauto. }
  pose proof (bit_mask_bound r) as Hm.
  pose proof (lor_bound b (Z.shiftl 1 (r mod 8)) 8 ltac:(lia) ltac:(lia) Hm) as Hlor.
  unfold swap_free.
  replace ((r <? 0) || (r >=? SWAP_PAGES M)) with false.
  2:{ symmetry. apply orb_false_iff. split; [apply Z.ltb_ge; lia|].
      rewrite Z.geb_leb. apply Z.leb_gt. lia. }
  erewrite bind_run.
  2:{ apply bitmap_get_run. simpl_state. by apply list_lookup_insert_eq. }
  erewrite bitmap_set_run.
  2:{ simpl_state. by apply list_lookup_insert_eq. }
  simpl_state.
  rewrite (Z.mod_small (Z.lor _ _)) by lia.
  rewrite land_lor_lnot_same by done.
  rewrite Z.mod_small by lia.
  rewrite list_insert_insert_eq, list_insert_id by done.
  by destruct s.
Qed.

End Bitmap.

(** ** Failure of [swapout] after the scan *)

Lemma bind_inv {A B} (m : K A) (k : A → K B) s b s' :
  bind m k s = Done b s' → ∃ a s1, m s = Done a s1 ∧ k a s1 = Done b s'.
Proof. unfold bind. destruct (m s) as [a s1| | |]; [|done..]. by exists a, s1. Qed.

Ltac inv_bind H :=
  let a := fresh "a" in
  let s1 := fresh "s" in
  let H1 := fresh "Hstep" in
  apply bind_inv in H as (a & s1 & H1 & H).

Lemma get_field_inv {A} (f : page → A) p s a s' :
  get_field f p s = Done a s' → s' = s.
Proof.
  unfold get_field. destruct p as [i|]; [|done].
  destruct (pages s !! i); [|done]. by intros [= _ ->].
Qed.

Lemma read_pte_inv a s e s' : read_pte a s = Done e s' → s' = s.
Proof. unfold read_pte. destruct (a =? 0); [done|]. by intros [= _ ->]. Qed.

(** ** The fuel of the scan, in any state

    [rounds] goes up by one in every iteration and the loop is left
    once it exceeds [num_lru_pages], so the fuel [swapout] passes is
    enough whatever the table holds, and more fuel changes nothing. *)

Lemma refines_refl {A} (o : outcome A) : refines o o.
Proof. by right. Qed.

Lemma refines_bind {A B} (m : K A) (k1 k2 : A → K B) s :
  (∀ a s1, m s = Done a s1 → refines (k1 a s1) (k2 a s1)) →
  refines (bind m k1 s) (bind m k2 s).
Proof.
  intros Hk. unfold bind. destruct (m s) as [a s1| | |]; [by apply Hk|by right..].
Qed.

Lemma steady_bind {A B} (m : K A) (k : A → K B) s :
  steady m →
  (∀ a s1, m s = Done a s1 → num_lru_pages s1 = num_lru_pages s →
           k a s1 ≠ Timeout) →
  bind m k s ≠ Timeout.
Proof.
  intros Hm Hk. specialize (Hm s). unfold bind.
  destruct (m s) as [a s1| | |]; [by apply Hk|done|done|done].
Qed.

Lemma steady_seq {A B} (m : K A) (k : A → K B) :
  steady m → (∀ a, steady (k a)) → steady (bind m k).
Proof.
  intros Hm Hk s. specialize (Hm s). unfold bind.
  destruct (m s) as [a s1| | |]; [|done..].
  specialize (Hk a s1). destruct (k a s1); [congruence|done..].
Qed.

Lemma steady_ret {A} (a : A) : steady (ret a).
Proof. by intros s. Qed.
Lemma steady_gets {A} (f : kstate → A) : steady (gets f).
Proof. by intros s. Qed.
Lemma steady_get_field {A} (f : page → A) p : steady (get_field f p).
Proof.
  intros s. unfold get_field. destruct p as [i|]; [|done]. by destruct (pages s !! i).
Qed.
Lemma steady_upd_page f p : steady (upd_page f p).
Proof.
  intros s. unfold upd_page. destruct p as [i|]; [|done]. by destruct (pages s !! i).
Qed.
Lemma steady_read_pte a : steady (read_pte a).
Proof. intros s. unfold read_pte. by destruct (a =? 0). Qed.
Lemma steady_write_pte a v : steady (write_pte a v).
Proof. intros s. unfold write_pte. by destruct (a =? 0). Qed.
Lemma steady_int_incr x : steady (int_incr x).
Proof. intros s. unfold int_incr. by destruct (x <? INT_MAX). Qed.
Lemma steady_if_dec {A} {P : Prop} (d : {P} + {¬ P}) (m1 m2 : K A) :
  steady m1 → steady m2 → steady (if d then m1 else m2).
Proof. by destruct d. Qed.
Lemma steady_set_head v : steady (modify (set_page_lru_head v)).
Proof. by intros s. Qed.

Ltac steady :=
  repeat first
    [ progress intros
    | apply steady_seq
    | apply steady_if_dec
    | apply steady_ret | apply steady_gets | apply steady_set_head
    | apply steady_get_field | apply steady_upd_page
    | apply steady_read_pte | apply steady_write_pte | apply steady_int_incr ].

Lemma steady_lru_move_to_tail_locked pg : steady (lru_move_to_tail_locked pg).
Proof.
  unfold lru_move_to_tail_locked, unlink, link_before_head,
    get_next, get_prev, put_next, put_prev.
  steady.
Qed.

Section Fuel.
Context (M : machine).

Lemma scan_again_refines loop1 loop2 curr rounds s :
  (∀ c r s, refines (loop1 c r s) (loop2 c r s)) →
  refines (scan_again loop1 curr rounds s) (scan_again loop2 curr rounds s).
Proof.
  intros Hloop. unfold scan_again.
  apply refines_bind. intros head s1 _. apply refines_bind. intros n s2 _.
  destruct (bool_decide (curr ≠ head) && (rounds <=? n)); [apply Hloop|apply refines_refl].
Qed.

Lemma scan_skip_refines loop1 loop2 curr rounds s :
  (∀ c r s, refines (loop1 c r s) (loop2 c r s)) →
  refines (scan_skip loop1 curr rounds s) (scan_skip loop2 curr rounds s).
Proof.
  intros Hloop. unfold scan_skip.
  apply refines_bind. intros c s1 _. apply refines_bind. intros r s2 _.
  apply refines_bind. intros n s3 _.
  destruct (r >? n); [apply refines_refl|by apply scan_again_refines].
Qed.

Lemma scan_body_refines loop1 loop2 curr rounds s :
  (∀ c r s, refines (loop1 c r s) (loop2 c r s)) →
  refines (scan_body M loop1 curr rounds s) (scan_body M loop2 curr rounds s).
Proof.
  intros Hloop. unfold scan_body.
  apply refines_bind. intros pt s1 _. apply refines_bind. intros va s2 _.
  destruct ((pt =? 0) || (va =? 0)); [by apply scan_skip_refines|].
  apply refines_bind. intros stale s3 _.
  destruct stale; [by apply scan_skip_refines|].
  apply refines_bind. intros e s4 _.
  destruct (Z.land e PTE_A =? 0); [apply refines_refl|].
  apply refines_bind. intros e' s5 _. apply refines_bind. intros [] s6 _.
  apply refines_bind. intros [] s7 _. apply refines_bind. intros c s8 _.
  apply refines_bind. intros r s9 _. by apply scan_again_refines.
Qed.

Lemma scan_loop_more_fuel fuel : ∀ curr rounds s,
  refines (scan_loop M fuel curr rounds s) (scan_loop M (S fuel) curr rounds s).
Proof.
  induction fuel as [|fuel IH]; intros curr rounds s; [by left|].
  change (refines (scan_body M (scan_loop M fuel) curr rounds s)
                  (scan_body M (scan_loop M (S fuel)) curr rounds s)).
  by apply scan_body_refines.
Qed.

Lemma scan_again_in_time loop curr rounds s :
  (rounds ≤ num_lru_pages s → loop curr rounds s ≠ Timeout) →
  scan_again loop curr rounds s ≠ Timeout.
Proof.
  intros Hloop. unfold scan_again, gets, bind, ret.
  destruct (bool_decide (curr ≠ page_lru_head s)); simpl; [|done].
  destruct (rounds <=? num_lru_pages s) eqn:Hle; [|done].
  apply Hloop. by apply Z.leb_le.
Qed.

Lemma scan_skip_in_time loop curr rounds s :
  (∀ c, rounds + 1 ≤ num_lru_pages s → loop c (rounds + 1) s ≠ Timeout) →
  scan_skip loop curr rounds s ≠ Timeout.
Proof.
  intros Hloop. unfold scan_skip.
  apply steady_bind; [apply steady_get_field|]. intros c s1 Hrun _.
  apply get_field_inv in Hrun as ->.
  unfold int_incr. destruct (rounds <? INT_MAX); [|done].
  unfold bind at 1. unfold ret at 1. unfold bind at 1. unfold gets at 1.
  destruct (rounds + 1 >? num_lru_pages s); [done|].
  apply scan_again_in_time. apply Hloop.
Qed.

Lemma scan_loop_in_time fuel : ∀ curr rounds s,
  (Z.to_nat (num_lru_pages s - rounds) < fuel)%nat →
  scan_loop M fuel curr rounds s ≠ Timeout.
Proof.
  induction fuel as [|fuel IH]; intros curr rounds s Hfuel; [lia|].
  assert (∀ c, rounds + 1 ≤ num_lru_pages s →
               scan_loop M fuel c (rounds + 1) s ≠ Timeout) as Hnext.
  { intros c Hle. apply IH. lia. }
  change (scan_body M (scan_loop M fuel) curr rounds s ≠ Timeout).
  unfold scan_body.
  apply steady_bind; [apply steady_get_field|]. intros pt s1 Hrun _.
  apply get_field_inv in Hrun as ->.
  apply steady_bind; [apply steady_get_field|]. intros va s1 Hrun _.
  apply get_field_inv in Hrun as ->.
  destruct ((pt =? 0) || (va =? 0)); [by apply scan_skip_in_time|].
  apply steady_bind.
  { destruct (walk M pt va =? 0); steady. }
  intros stale s1 Hrun _.
  assert (s1 = s) as ->.
  { destruct (walk M pt va =? 0); [by injection Hrun as _ <-|].
    apply bind_inv in Hrun as (e & s2 & Hrd & Hret).
    apply read_pte_inv in Hrd as ->. by injection Hret as _ <-. }
  clear Hrun.
  destruct stale; [by apply scan_skip_in_time|].
  apply steady_bind; [apply steady_read_pte|]. intros e s1 Hrd _.
  apply read_pte_inv in Hrd as ->.
  destruct (Z.land e PTE_A =? 0); [done|].
  apply steady_bind; [apply steady_read_pte|]. intros e' s1 Hrd _.
  apply read_pte_inv in Hrd as ->.
  apply steady_bind; [apply steady_write_pte|]. intros [] s1 _ Hn1.
  apply steady_bind; [apply steady_lru_move_to_tail_locked|]. intros [] s2 _ Hn2.
  apply steady_bind; [apply steady_get_field|]. intros c s3 Hc _.
  apply get_field_inv in Hc as ->.
  unfold int_incr. destruct (rounds <? INT_MAX); [|done].
  unfold bind at 1. unfold ret at 1.
  apply scan_again_in_time. intros Hle. apply IH. lia.
Qed.

(** The scan of [swapout] never runs out of its fuel. *)
Lemma scan_never_out_of_fuel s :
  scan_loop M (scan_fuel s) (page_lru_head s) 0 s ≠ Timeout.
Proof. apply scan_loop_in_time. unfold scan_fuel. lia. Qed.

End Fuel.

Section Failure.
Context (M : machine).

(** [swapout_victim] returns 0 or -1, and with -1 the state is the one
    it started in: no slot was found, or the slot found was freed
    again because the entry was missing or not Valid. *)
Lemma swapout_victim_result victim s rc s' :
  bitmap_bytes s →
  swapout_victim M victim s = Done rc s' →
  rc = 0 ∨ (rc = -1 ∧ s' = s).
Proof.
  intros Hbytes Hrun. unfold swapout_victim in Hrun.
  inv_bind Hrun. rename a into blk.
  apply swap_alloc_from_spec in Hstep as [[-> ->]|(Hblk & b & Hb & Hbit & ->)].
  { right. simpl in Hrun. unfold ret in Hrun. by injection Hrun as <- <-. }
  rewrite (proj2 (Z.ltb_ge blk 0)) in Hrun by lia.
  inv_bind Hrun. apply get_field_inv in Hstep as ->.
  inv_bind Hrun. apply get_field_inv in Hstep as ->.
  inv_bind Hrun. rename a1 into stale.
  assert (s0 = set_swap_bitmap
                 (<[Z.to_nat (blk / 8) := Z.lor b (Z.shiftl 1 (blk mod 8)) mod 256]>
                    (swap_bitmap s)) s) as ->.
  { destruct (walk M a a0 =? 0); [by injection Hstep as _ <-|].
    inv_bind Hstep. apply read_pte_inv in Hstep0 as ->.
    by injection Hstep as _ <-. }
  destruct stale.
  - right. inv_bind Hrun.
    rewrite (swap_free_undoes M s blk b) in Hstep0 by (done || lia).
    injection Hstep0 as _ <-. unfold ret in Hrun. by injection Hrun as <- <-.
  - left. do 7 inv_bind Hrun. unfold ret in Hrun. by injection Hrun as <- _.
Qed.

End Failure.

Lemma bitmap_bytes_no_slot_left : bitmap_bytes no_slot_left.
Proof.
  unfold bitmap_bytes, no_slot_left. cbn [swap_bitmap set_swap_bitmap].
  apply Forall_replicate. lia.
Qed.

Lemma no_slot_left_inv : lru_inv no_slot_left [0; 1; 2]%nat.
Proof. destruct (three_frames_inv 0x17 0x57 0x57). by constructor. Qed.

(** C3.  Eviction is all or nothing.  When the scan of [swapout] has
    chosen the victim [v] and [swapout] returns failure, the state is
    the one [swapout] was called in (but for the count of calls): the
    victim is enrolled as before, the table, the translation entries
    and the bitmap are as they were.  The slot allocation and the
    re-read of the entry run after the lock was released, so the last
    part holds from any state [s2] they may find: a failure of
    [swapout_victim] leaves [s2] as it was, a slot it had taken freed
    again. *)
Theorem swapout_all_or_nothing (M : machine) (s : kstate) (l : list nat)
    (v : nat) (rc : Z) (s' : kstate) :
  lru_inv s l → bitmap_bytes s →
  (∃ s1, scan_loop M (scan_fuel s) (page_lru_head s) 0 (count_swapout s)
         = Done (Some v) s1) →
  swapout M s = Done rc s' → rc < 0 →
  s' = count_swapout s ∧ v ∈ l ∧ lru_inv s' l ∧
  pages s' = pages s ∧ ptes s' = ptes s ∧ swap_bitmap s' = swap_bitmap s ∧
  (∀ s2 rc2 s2',
      bitmap_bytes s2 →
      swapout_victim M (Some v) s2 = Done rc2 s2' → rc2 < 0 → s2' = s2).
Proof.
  intros Hinv Hbytes (s1 & Hscan) Hrun Hrc.
  assert (lru_inv (count_swapout s) l) as Hinv1 by (by apply lru_inv_set_swapouts).
  pose proof Hinv as [(_ & Hhd & _) Hnum _ _].
  assert (∀ s2 rc2 s2',
             bitmap_bytes s2 →
             swapout_victim M (Some v) s2 = Done rc2 s2' → rc2 < 0 → s2' = s2)
    as Hvictim.
  { intros s2 rc2 s2' Hb2 Hrun2 Hrc2.
    destruct (swapout_victim_result M _ _ _ _ Hb2 Hrun2) as [->|[_ ->]]; [lia|done]. }
  destruct l as [|h l'].
  { simpl in Hhd. rewrite Hhd in Hscan. by destruct (scan_fuel s). }
  destruct (scan_from_position M (length (h :: l')) (count_swapout s) (h :: l') 0 h
              Hinv1 eq_refl) as (v' & s1' & Hscan' & Hres); [lia|].
  simpl in Hhd. rewrite Hhd in Hscan.
  specialize (Hscan' (scan_fuel s)). change (Z.of_nat 0) with 0 in Hscan'.
  rewrite Hscan' in Hscan by (unfold scan_fuel; rewrite Hnum, Nat2Z.id; lia).
  injection Hscan as -> ->.
  destruct Hres as [(vi & [= <-] & -> & Hin & _)|[[? _]|[? _]]]; [|done..].
  assert (s' = count_swapout s) as ->.
  { unfold swapout in Hrun. inv_bind Hrun. injection Hstep as _ <-.
    inv_bind Hrun. injection Hstep as <- <-. simpl_state. rewrite Hhd in Hrun.
    rewrite decide_False in Hrun by done.
    inv_bind Hrun. injection Hstep as <- <-.
    inv_bind Hrun.
    change (scan_fuel (count_swapout s)) with (scan_fuel s) in Hstep.
    rewrite Hscan' in Hstep by (unfold scan_fuel; rewrite Hnum, Nat2Z.id; lia).
    injection Hstep as <- <-. rewrite decide_False in Hrun by done.
    by apply (Hvictim (count_swapout s) rc s' Hbytes Hrun). }
  split_and!; done.
Qed.

(** The theorem at a ring whose head is the victim while every swap
    slot is taken. *)
Lemma swapout_all_or_nothing_witness :
  swapout qemu no_slot_left = Done (-1) (count_swapout no_slot_left) ∧
  0%nat ∈ [0; 1; 2]%nat ∧
  ptes (count_swapout no_slot_left) = ptes no_slot_left ∧
  swap_bitmap (count_swapout no_slot_left) = swap_bitmap no_slot_left.
Proof.
  assert (swapout qemu no_slot_left = Done (-1) (count_swapout no_slot_left))
    as Hrun by (vm_compute; reflexivity).
  destruct (swapout_all_or_nothing qemu no_slot_left [0; 1; 2]%nat 0 (-1)
              (count_swapout no_slot_left)
              no_slot_left_inv bitmap_bytes_no_slot_left)
    as (_ & Hin & _ & _ & Hptes & Hbm & _).
  - eexists. vm_compute. reflexivity.
  - exact Hrun.
  - lia.
  - split_and!; done.
Defined.

(** ** [kfree] *)

Lemma le_bytes_length n v : length (le_bytes n v) = n.
Proof. revert v. induction n as [|n IH]; intros v; simpl; [done|]. by rewrite IH. Qed.

Lemma le_value_bytes n v : le_value (le_bytes n v) = v mod 256 ^ Z.of_nat n.
Proof.
  revert v. induction n as [|n IH]; intros v.
  - simpl. by rewrite Z.mod_1_r.
  - change (le_value (le_bytes (S n) v))
      with (v mod 256 + 256 * le_value (le_bytes n (v / 256))).
    rewrite IH, Nat2Z.inj_succ, Z.pow_succ_r by lia.
    rewrite Z.rem_mul_r by lia. done.
Qed.

Lemma kfree_invalid_iff (M : machine) (pa : Z) :
  negb (pa mod PGSIZE =? 0) || (pa <? kend M) || (pa >=? PHYSTOP M) = true
  ↔ pa mod PGSIZE ≠ 0 ∨ pa < kend M ∨ PHYSTOP M ≤ pa.
Proof.
  rewrite !orb_true_iff, negb_true_iff, Z.eqb_neq, Z.ltb_lt, Z.geb_leb, Z.leb_le.
  tauto.
Qed.

Lemma kfree_run (M : machine) (pa : Z) (s : kstate) :
  pa mod PGSIZE = 0 → kend M ≤ pa < PHYSTOP M →
  kfree M pa s
  = Done tt (set_freelist pa
               (set_mem (<[pa := le_bytes 8 (freelist s) ++ drop 8 (fill 1)]>
                           (mem s)) s)).
Proof.
  intros Hal Hrange. unfold kfree.
  destruct (negb (pa mod PGSIZE =? 0) || (pa <? kend M) || (pa >=? PHYSTOP M))
    eqn:Hbad.
  { apply kfree_invalid_iff in Hbad. lia. }
  unfold memset, set_run_next. run_pure. run_pure. run_pure.
  unfold modify, load_page. simpl_state.
  rewrite lookup_insert_eq, insert_insert_eq. done.
Qed.

(** C9.  [kfree] panics exactly when the address is not page aligned,
    is below [end] or is at or above [PHYSTOP].  For every other
    address it returns: the page has been filled with the junk byte 1
    and is the new head of the free list, its first word holding the
    old head; nothing else has changed. *)
Theorem kfree_panics_iff_invalid (M : machine) (pa : Z) (s : kstate) :
  (kfree M pa s = Panic "kfree"
   ↔ pa mod PGSIZE ≠ 0 ∨ pa < kend M ∨ PHYSTOP M ≤ pa) ∧
  (¬ (pa mod PGSIZE ≠ 0 ∨ pa < kend M ∨ PHYSTOP M ≤ pa) →
   ∃ s', kfree M pa s = Done tt s' ∧
         freelist s' = pa ∧
         run_next s' pa = wrap64 (freelist s) ∧
         drop 8 (load_page s' pa) = replicate 4088 1 ∧
         s' = set_freelist pa
                (set_mem (<[pa := le_bytes 8 (freelist s) ++ drop 8 (fill 1)]>
                            (mem s)) s)).
Proof.
  pose proof (kfree_invalid_iff M pa) as Hiff.
  unfold kfree.
  destruct (negb (pa mod PGSIZE =? 0) || (pa <? kend M) || (pa >=? PHYSTOP M)).
  - split; [split; [intros _; by apply Hiff|done]|].
    intros Hok. exfalso. apply Hok. by apply Hiff.
  - assert (¬ (pa mod PGSIZE ≠ 0 ∨ pa < kend M ∨ PHYSTOP M ≤ pa)) as Hok.
    { intros Hbad. apply Hiff in Hbad. done. }
    split; [split; [done|by intros ?]|]. intros _.
    eexists. split; [reflexivity|]. simpl_state.
    split_and!.
    + done.
    + unfold run_next, load_page. simpl_state.
      rewrite !lookup_insert_eq. cbn [default from_option id].
      rewrite (take_app_length' _ _ 8) by (by rewrite le_bytes_length).
      by rewrite le_value_bytes.
    + unfold load_page. simpl_state.
      rewrite !lookup_insert_eq. cbn [default from_option id].
      rewrite (drop_app_length' _ _ 8) by (by rewrite le_bytes_length).
      vm_compute. reflexivity.
    + unfold load_page. simpl_state. rewrite lookup_insert_eq.
      rewrite insert_insert_eq. done.
Qed.

(** The theorem at a misaligned address and at frame 3. *)
Lemma kfree_panics_iff_invalid_witness :
  kfree qemu (frame_pa 3 + 8) boot_state = Panic "kfree" ∧
  ∃ s', kfree qemu (frame_pa 3) boot_state = Done tt s' ∧
        freelist s' = frame_pa 3 ∧
        drop 8 (load_page s' (frame_pa 3)) = replicate 4088 1.
Proof.
  split.
  - apply (kfree_panics_iff_invalid qemu (frame_pa 3 + 8) boot_state).
    left. vm_compute. discriminate.
  - destruct (proj2 (kfree_panics_iff_invalid qemu (frame_pa 3) boot_state))
      as (s' & Hrun & Hfl & _ & Hjunk & _).
    + vm_compute. intros [H|[H|H]]; [by apply H|done|by apply H].
    + by exists s'.
Defined.

(** ** The count of [swapout] calls *)

Create HintDb keeps discriminated.

Lemma keeps_ret {A} (a : A) : keeps_count (ret a).
Proof. by intros s a' s' [= _ <-]. Qed.
Lemma keeps_fault {A} : keeps_count (@fault A).
Proof. by intros s a s'. Qed.
Lemma keeps_panic {A} msg : keeps_count (@panic A msg).
Proof. by intros s a s'. Qed.
Lemma keeps_timeout {A} : keeps_count (@timeout A).
Proof. by intros s a s'. Qed.
Lemma keeps_gets {A} (f : kstate → A) : keeps_count (gets f).
Proof. by intros s a s' [= _ <-]. Qed.
Lemma keeps_modify f :
  (∀ s, swapouts (f s) = swapouts s) → keeps_count (modify f).
Proof. intros Hf s a s' Hrun. inversion Hrun. apply Hf. Qed.
Lemma keeps_bind {A B} (m : K A) (k : A → K B) :
  keeps_count m → (∀ a, keeps_count (k a)) → keeps_count (bind m k).
Proof.
  intros Hm Hk s b s' Hrun. apply bind_inv in Hrun as (a & s1 & H1 & H2).
  rewrite (Hk _ _ _ _ H2). by eapply Hm.
Qed.
Lemma keeps_if_bool {A} (b : bool) (m1 m2 : K A) :
  keeps_count m1 → keeps_count m2 → keeps_count (if b then m1 else m2).
Proof. by destruct b. Qed.
Lemma keeps_if_dec {A} {P : Prop} (d : {P} + {¬ P}) (m1 m2 : K A) :
  keeps_count m1 → keeps_count m2 → keeps_count (if d then m1 else m2).
Proof. by destruct d. Qed.
Lemma keeps_get_field {A} (f : page → A) p : keeps_count (get_field f p).
Proof. intros s a s' Hrun. by apply get_field_inv in Hrun as ->. Qed.
Lemma keeps_upd_page f p : keeps_count (upd_page f p).
Proof.
  intros s a s'. unfold upd_page. destruct p as [i|]; [|done].
  destruct (pages s !! i); [|done]. intros Hrun. by inversion Hrun.
Qed.
Lemma keeps_read_pte a : keeps_count (read_pte a).
Proof. intros s e s' Hrun. by apply read_pte_inv in Hrun as ->. Qed.
Lemma keeps_write_pte a v : keeps_count (write_pte a v).
Proof.
  intros s e s'. unfold write_pte. destruct (a =? 0); [done|].
  intros Hrun. by inversion Hrun.
Qed.
Lemma keeps_bitmap_get j : keeps_count (bitmap_get j).
Proof.
  intros s e s'. unfold bitmap_get.
  destruct (swap_bitmap s !! Z.to_nat j); [|done]. intros Hrun. by inversion Hrun.
Qed.
Lemma keeps_bitmap_set j v : keeps_count (bitmap_set j v).
Proof.
  intros s e s'. unfold bitmap_set.
  destruct (swap_bitmap s !! Z.to_nat j); [|done]. intros Hrun. by inversion Hrun.
Qed.
Lemma keeps_int_incr x : keeps_count (int_incr x).
Proof. unfold int_incr. apply keeps_if_bool; [apply keeps_ret|apply keeps_fault]. Qed.
Lemma keeps_int_decr x : keeps_count (int_decr x).
Proof. unfold int_decr. apply keeps_if_bool; [apply keeps_ret|apply keeps_fault]. Qed.
Lemma keeps_int_shl x n : keeps_count (int_shl x n).
Proof. unfold int_shl. apply keeps_if_bool; [apply keeps_ret|apply keeps_fault]. Qed.

#[local] Hint Resolve keeps_ret keeps_fault keeps_panic keeps_timeout keeps_gets
  keeps_bind keeps_if_bool keeps_if_dec keeps_get_field keeps_upd_page
  keeps_read_pte keeps_write_pte keeps_bitmap_get keeps_bitmap_set
  keeps_int_incr keeps_int_decr keeps_int_shl : keeps.

Ltac keeps :=
  repeat first
    [ progress intros
    | apply keeps_bind
    | apply keeps_if_bool
    | apply keeps_if_dec
    | apply keeps_modify; intros; reflexivity
    | solve [auto with keeps] ].

Lemma keeps_get_next p : keeps_count (get_next p).
Proof. apply keeps_get_field. Qed.
Lemma keeps_get_prev p : keeps_count (get_prev p).
Proof. apply keeps_get_field. Qed.
Lemma keeps_put_next p v : keeps_count (put_next p v).
Proof. apply keeps_upd_page. Qed.
Lemma keeps_put_prev p v : keeps_count (put_prev p v).
Proof. apply keeps_upd_page. Qed.
#[local] Hint Resolve keeps_get_next keeps_get_prev keeps_put_next keeps_put_prev
  : keeps.

Lemma keeps_unlink pg : keeps_count (unlink pg).
Proof. unfold unlink. keeps. Qed.
Lemma keeps_link_before_head pg : keeps_count (link_before_head pg).
Proof. unfold link_before_head. keeps. Qed.
#[local] Hint Resolve keeps_unlink keeps_link_before_head : keeps.

Lemma keeps_lru_add pg : keeps_count (lru_add pg).
Proof. unfold lru_add. keeps. Qed.
Lemma keeps_lru_remove pg : keeps_count (lru_remove pg).
Proof. unfold lru_remove. keeps. Qed.
Lemma keeps_lru_move_to_tail_locked pg : keeps_count (lru_move_to_tail_locked pg).
Proof. unfold lru_move_to_tail_locked. keeps. Qed.
#[local] Hint Resolve keeps_lru_add keeps_lru_remove keeps_lru_move_to_tail_locked
  : keeps.

Section Count.
Context (M : machine).

Lemma keeps_kfree pa : keeps_count (kfree M pa).
Proof. unfold kfree, memset, set_run_next. keeps. Qed.

Lemma keeps_swap_alloc_from n : ∀ i, keeps_count (swap_alloc_from n i).
Proof. induction n as [|n IH]; intros i; simpl; keeps. Qed.

Lemma keeps_swap_free blkno : keeps_count (swap_free M blkno).
Proof. unfold swap_free. keeps. Qed.

Lemma keeps_scan_again loop curr rounds :
  (∀ c r, keeps_count (loop c r)) → keeps_count (scan_again loop curr rounds).
Proof. intros Hloop. unfold scan_again. keeps. Qed.

Lemma keeps_scan_skip loop curr rounds :
  (∀ c r, keeps_count (loop c r)) → keeps_count (scan_skip loop curr rounds).
Proof.
  intros Hloop. unfold scan_skip. keeps.
Qed.

Lemma keeps_scan_loop fuel : ∀ curr rounds, keeps_count (scan_loop M fuel curr rounds).
Proof.
  induction fuel as [|fuel IH]; intros curr rounds; simpl; [apply keeps_timeout|].
  unfold scan_body. keeps; by (apply keeps_scan_skip || apply keeps_scan_again).
Qed.

Lemma keeps_swapout_victim victim : keeps_count (swapout_victim M victim).
Proof.
  unfold swapout_victim, swap_alloc, swapwrite. keeps.
  apply keeps_swap_alloc_from.
Qed.

Lemma swapout_counts s rc s' :
  swapout M s = Done rc s' → swapouts s' = S (swapouts s).
Proof.
  intros Hrun. unfold swapout in Hrun. inv_bind Hrun. injection Hstep as _ <-.
  assert (keeps_count
            (do head <- gets page_lru_head;
             if decide (head = None) then ret (-1)
             else do fuel <- gets scan_fuel;
                  do victim <- scan_loop M fuel head 0;
                  if decide (victim = None) then ret (-1)
                  else swapout_victim M victim)) as Hk.
  { keeps; first [apply keeps_scan_loop|apply keeps_swap_alloc_from]. }
  by rewrite (Hk _ _ _ Hrun).
Qed.

Lemma keeps_pop_free : keeps_count pop_free.
Proof. unfold pop_free. keeps. Qed.

End Count.

(** ** [kalloc] *)

Section Alloc.
Context (M : machine).

Lemma pop_free_run s :
  pop_free s
  = if freelist s =? 0 then Done 0 s
    else Done (freelist s) (set_freelist (run_next s (freelist s)) s).
Proof.
  unfold pop_free. run_pure. destruct (freelist s =? 0) eqn:Hfl.
  - apply Z.eqb_eq in Hfl. by rewrite Hfl.
  - done.
Qed.

Lemma pop_free_empty s : freelist s = 0 → pop_free s = Done 0 s.
Proof. intros Hfl. by rewrite pop_free_run, Hfl. Qed.

Lemma pop_free_nonempty s :
  freelist s ≠ 0 →
  pop_free s = Done (freelist s) (set_freelist (run_next s (freelist s)) s).
Proof. intros Hfl. by rewrite pop_free_run, (proj2 (Z.eqb_neq _ _) Hfl). Qed.

Lemma kalloc_nonempty s :
  freelist s ≠ 0 →
  kalloc M s
  = Done (freelist s)
         (kalloc_finish (freelist s) (set_freelist (run_next s (freelist s)) s)).
Proof.
  intros Hfl. unfold kalloc, kalloc_finish.
  rewrite (bind_run _ _ _ _ _ (pop_free_nonempty s Hfl)).
  apply Z.eqb_neq in Hfl. rewrite Hfl. run_pure. rewrite Hfl. by run_pure.
Qed.

Lemma kalloc_empty s rc s1 :
  freelist s = 0 → swapout M s = Done rc s1 →
  kalloc M s
  = if rc <? 0
    then Done 0 (set_console (console s1 ++ ["kalloc: out of memory" +:+ newline]) s1)
    else if freelist s1 =? 0 then Done 0 s1
         else Done (freelist s1)
                   (kalloc_finish (freelist s1)
                      (set_freelist (run_next s1 (freelist s1)) s1)).
Proof.
  intros Hfl Hout. unfold kalloc, kalloc_finish.
  rewrite (bind_run _ _ _ _ _ (pop_free_empty s Hfl)).
  change (0 =? 0) with true. cbv iota.
  destruct (rc <? 0) eqn:Hrc.
  - erewrite bind_run.
    2:{ rewrite (bind_run _ _ _ _ _ Hout). rewrite Hrc. by run_pure. }
    done.
  - destruct (freelist s1 =? 0) eqn:Hfl1.
    + apply Z.eqb_eq in Hfl1. erewrite bind_run.
      2:{ rewrite (bind_run _ _ _ _ _ Hout). rewrite Hrc.
          by rewrite (bind_run _ _ _ _ _ (pop_free_empty s1 Hfl1)). }
      cbv iota. by run_pure.
    + apply Z.eqb_neq in Hfl1. erewrite bind_run.
      2:{ rewrite (bind_run _ _ _ _ _ Hout). rewrite Hrc.
          by rewrite (bind_run _ _ _ _ _ (pop_free_nonempty s1 Hfl1)). }
      cbv iota. apply Z.eqb_neq in Hfl1. rewrite Hfl1. by run_pure.
Qed.

Lemma kalloc_empty_inv s r s' :
  freelist s = 0 → kalloc M s = Done r s' →
  ∃ rc s1, swapout M s = Done rc s1.
Proof.
  intros Hfl Hrun. unfold kalloc in Hrun.
  rewrite (bind_run _ _ _ _ _ (pop_free_empty s Hfl)) in Hrun.
  change (0 =? 0) with true in Hrun. cbv iota in Hrun.
  inv_bind Hrun. inv_bind Hstep. by exists a0, s1.
Qed.

End Alloc.

(** C6.  [kalloc] pops the head of the free list when there is one,
    and [swapout] is not called.  When the free list is empty it calls
    [swapout] once and pops once more: with [swapout] returning [rc]
    in state [s1], [kalloc] returns, null exactly when [rc < 0] or the
    free list of [s1] is empty, and else the head of that list.  So
    null comes back only from an empty free list, and in no case is
    [swapout] called a second time. *)
Theorem kalloc_evicts_once (M : machine) (s : kstate) :
  (freelist s ≠ 0 →
   ∃ s', kalloc M s = Done (freelist s) s' ∧
         freelist s' = run_next s (freelist s) ∧
         swapouts s' = swapouts s) ∧
  (freelist s = 0 →
   ∀ rc s1, swapout M s = Done rc s1 →
     ∃ r s', kalloc M s = Done r s' ∧
             swapouts s' = S (swapouts s) ∧
             (r = 0 ↔ rc < 0 ∨ freelist s1 = 0) ∧
             (0 ≤ rc → r = freelist s1 ∧
                       (r ≠ 0 → freelist s' = run_next s1 r))) ∧
  (∀ r s', kalloc M s = Done r s' →
     (swapouts s' ≤ S (swapouts s))%nat ∧
     (r = 0 ↔ freelist s = 0 ∧
              ∃ rc s1, swapout M s = Done rc s1 ∧ (rc < 0 ∨ freelist s1 = 0))).
Proof.
  assert (freelist s ≠ 0 →
          ∃ s', kalloc M s = Done (freelist s) s' ∧
                freelist s' = run_next s (freelist s) ∧
                swapouts s' = swapouts s) as Hpop.
  { intros Hfl. eexists. split; [by apply kalloc_nonempty|].
    unfold kalloc_finish. by destruct (freelist s =? 0). }
  assert (freelist s = 0 →
          ∀ rc s1, swapout M s = Done rc s1 →
            ∃ r s', kalloc M s = Done r s' ∧
                    swapouts s' = S (swapouts s) ∧
                    (r = 0 ↔ rc < 0 ∨ freelist s1 = 0) ∧
                    (0 ≤ rc → r = freelist s1 ∧
                              (r ≠ 0 → freelist s' = run_next s1 r))) as Hevict.
  { intros Hfl rc s1 Hout.
    pose proof (swapout_counts M _ _ _ Hout) as Hcount.
    rewrite (kalloc_empty M _ _ _ Hfl Hout).
    destruct (rc <? 0) eqn:Hrc.
    - apply Z.ltb_lt in Hrc. eexists _, _. split; [done|]. simpl_state.
      split_and!; [done|split; [by left|done]|lia].
    - apply Z.ltb_ge in Hrc. destruct (freelist s1 =? 0) eqn:Hfl1.
      + apply Z.eqb_eq in Hfl1. eexists _, _. split; [done|].
        split_and!; [done|split; [by right|done]|]. intros _. by rewrite Hfl1.
      + apply Z.eqb_neq in Hfl1. eexists _, _. split; [done|].
        unfold kalloc_finish. rewrite (proj2 (Z.eqb_neq _ _) Hfl1). simpl_state.
        split_and!; [done|split; [done|lia]|done]. }
  split_and!; [done|done|].
  intros r s' Hrun. destruct (decide (freelist s = 0)) as [Hfl|Hfl].
  - destruct (kalloc_empty_inv M _ _ _ Hfl Hrun) as (rc & s1 & Hout).
    destruct (Hevict Hfl rc s1 Hout) as (r0 & s0 & Hrun0 & Hcount & Hnull & _).
    rewrite Hrun in Hrun0. injection Hrun0 as <- <-.
    split; [lia|]. rewrite Hnull. split.
    + intros Hcase. split; [done|]. by exists rc, s1.
    + intros (_ & rc' & s1' & Hout' & Hcase).
      rewrite Hout in Hout'. by injection Hout' as <- <-.
  - destruct (Hpop Hfl) as (s0 & Hrun0 & _ & Hcount).
    rewrite Hrun in Hrun0. injection Hrun0 as -> <-.
    split; [lia|]. split; [done|]. by intros [? _].
Qed.

(** ** The encodings of a translation entry *)

Lemma testbit_small (f k i : Z) : 0 ≤ f < 2 ^ k → k ≤ i → Z.testbit f i = false.
Proof.
  intros Hf Hi. destruct (decide (0 ≤ k)) as [Hk|Hk].
  - rewrite <- (Z.mod_small f (2 ^ k)) by done. apply Z.mod_pow2_bits_high. lia.
  - rewrite Z.pow_neg_r in Hf by lia. lia.
Qed.

Lemma lor_shifted_low (a f k : Z) :
  0 ≤ k → 0 ≤ f < 2 ^ k → Z.lor (Z.shiftl a k) f = a * 2 ^ k + f.
Proof.
  intros Hk Hf. rewrite <- Z.shiftl_mul_pow2 by done.
  symmetry. apply Z.add_nocarry_lor. apply Z.bits_inj'. intros i Hi.
  rewrite Z.land_spec, Z.bits_0.
  destruct (decide (i < k)) as [Hlt|Hge].
  - by rewrite Z.shiftl_spec_low.
  - rewrite (testbit_small f k i) by lia. apply andb_false_r.
Qed.

Lemma PTE_FLAGS_bound (e : Z) : 0 ≤ PTE_FLAGS e < 2 ^ 10.
Proof.
  unfold PTE_FLAGS. change 1023 with (Z.ones 10). rewrite Z.land_ones by lia.
  apply Z.mod_pos_bound. lia.
Qed.

Lemma PTE_FLAGS_testbit (e i : Z) :
  0 ≤ i → Z.testbit (PTE_FLAGS e) i = Z.testbit e i && (i <? 10).
Proof.
  intros Hi. unfold PTE_FLAGS. change 1023 with (Z.ones 10).
  by rewrite Z.land_spec, Z.testbit_ones_nonneg by lia.
Qed.

Lemma bound_of_bits (x k : Z) :
  0 ≤ k → 0 ≤ x → (∀ i, k ≤ i → Z.testbit x i = false) → 0 ≤ x < 2 ^ k.
Proof.
  intros Hk Hx Hbits. split; [done|].
  assert (x mod 2 ^ k = x) as <-.
  { apply Z.bits_inj'. intros i Hi. destruct (decide (i < k)).
    - by rewrite Z.mod_pow2_bits_low.
    - rewrite Z.mod_pow2_bits_high by lia. symmetry. apply Hbits. lia. }
  apply Z.mod_pos_bound. by apply Z.pow_pos_nonneg.
Qed.

Lemma clear_bits_bound (f m k : Z) :
  0 ≤ k → 0 ≤ f < 2 ^ k → 0 ≤ clear_bits f m < 2 ^ k.
Proof.
  intros Hk Hf. apply bound_of_bits; [done| |].
  - apply Z.land_nonneg. lia.
  - intros i Hi. unfold clear_bits.
    by rewrite Z.land_spec, (testbit_small f k i).
Qed.

(** The entry [swapout] writes: the slot above the flags, Valid clear. *)
Lemma swapped_entry_slot (blk e : Z) :
  Z.shiftr (Z.lor (wrap64 (Z.shiftl blk 10)) (clear_bits (PTE_FLAGS e) PTE_V)) 10
  = wrap64 (Z.shiftl blk 10) / 2 ^ 10.
Proof.
  pose proof (clear_bits_bound (PTE_FLAGS e) PTE_V 10 ltac:(lia) (PTE_FLAGS_bound e)).
  rewrite Z.shiftr_lor, !Z.shiftr_div_pow2 by lia.
  rewrite (Z.div_small (clear_bits _ _)) by done. apply Z.lor_0_r.
Qed.

Lemma swapped_entry_flags (blk e i : Z) :
  0 ≤ i < 10 →
  Z.testbit (Z.lor (wrap64 (Z.shiftl blk 10)) (clear_bits (PTE_FLAGS e) PTE_V)) i
  = Z.testbit e i && negb (i =? 0).
Proof.
  intros Hi. unfold wrap64, clear_bits.
  rewrite Z.lor_spec, Z.land_spec, Z.lnot_spec, PTE_FLAGS_testbit by lia.
  rewrite Z.mod_pow2_bits_low, Z.shiftl_spec_low by lia.
  change PTE_V with (2 ^ 0). rewrite Z.pow2_bits_eqb by lia.
  rewrite (proj2 (Z.ltb_lt i 10)) by lia.
  rewrite (Z.eqb_sym 0 i). by rewrite andb_true_r.
Qed.

Lemma to_int_small (x : Z) : 0 ≤ x < 2 ^ 31 → to_int x = x.
Proof.
  intros Hx. unfold to_int. rewrite Z.mod_small by lia.
  by rewrite (proj2 (Z.ltb_lt _ _)) by lia.
Qed.

Lemma wrap64_small (x : Z) : 0 ≤ x < 2 ^ 64 → wrap64 x = x.
Proof. intros Hx. by apply Z.mod_small. Qed.

(** The entry [swapin] writes for the page at [pa]. *)
Lemma PA2PTE_bound (pa : Z) :
  0 ≤ pa < 2 ^ 64 →
  PA2PTE pa = (pa / 2 ^ 12) * 2 ^ 10 ∧ 0 ≤ pa / 2 ^ 12 < 2 ^ 52.
Proof.
  intros Hpa. unfold PA2PTE.
  rewrite Z.shiftl_mul_pow2, Z.shiftr_div_pow2 by lia.
  assert (0 ≤ pa / 2 ^ 12 < 2 ^ 52).
  { split; [apply Z.div_pos; lia|]. apply Z.div_lt_upper_bound; lia. }
  split; [|done]. apply wrap64_small. lia.
Qed.

Lemma resident_entry_pa (pa fl : Z) :
  0 ≤ pa < 2 ^ 64 → pa mod PGSIZE = 0 → 0 ≤ fl < 2 ^ 10 →
  PTE2PA (Z.lor (PA2PTE pa) fl) = pa.
Proof.
  intros Hpa Hal Hfl. destruct (PA2PTE_bound pa Hpa) as [-> Hq].
  rewrite <- (Z.shiftl_mul_pow2 _ 10), lor_shifted_low by lia.
  unfold PTE2PA. rewrite Z.shiftl_mul_pow2, Z.shiftr_div_pow2 by lia.
  rewrite Z.div_add_l by lia. rewrite (Z.div_small fl) by lia.
  rewrite Z.add_0_r. unfold PGSIZE in Hal. change (2 ^ 12) with 4096.
  pose proof (Z.div_mod pa 4096 ltac:(lia)) as Hdm.
  replace (pa / 4096 * 4096) with pa by lia.
  by apply wrap64_small.
Qed.

Lemma resident_entry_flags (pa fl i : Z) :
  0 ≤ pa < 2 ^ 64 → 0 ≤ i < 10 →
  Z.testbit (Z.lor (PA2PTE pa) (wrap32 fl)) i = Z.testbit fl i.
Proof.
  intros Hpa Hi. destruct (PA2PTE_bound pa Hpa) as [-> Hq].
  rewrite <- (Z.shiftl_mul_pow2 _ 10) by lia.
  rewrite Z.lor_spec, Z.shiftl_spec_low by lia.
  unfold wrap32. by rewrite Z.mod_pow2_bits_low by lia.
Qed.

Lemma PTE2PA_aligned (e : Z) : 0 ≤ PTE2PA e < 2 ^ 64 ∧ PTE2PA e mod PGSIZE = 0.
Proof.
  unfold PTE2PA, wrap64, PGSIZE. split; [apply Z.mod_pos_bound; lia|].
  rewrite Z.shiftl_mul_pow2 by lia.
  change (2 ^ 64) with (4096 * 2 ^ 52). rewrite Z.rem_mul_r by lia.
  change (2 ^ 12) with 4096.
  rewrite Z.mod_mul by lia. rewrite Z.add_0_l, Z.mul_comm.
  by rewrite Z.mod_mul by lia.
Qed.

(** ** A successful eviction *)

Lemma lru_inv_ext s s' l :
  pages s' = pages s → page_lru_head s' = page_lru_head s →
  num_lru_pages s' = num_lru_pages s →
  lru_inv s l → lru_inv s' l.
Proof. intros Hp Hh Hn [? ? ? ?]. constructor; by rewrite ?Hp, ?Hh, ?Hn. Qed.

Section Evict.
Context (M : machine).

(** First fit: with a free slot at [j], [swap_alloc] takes the first
    free slot, which is [j] or comes before it. *)
Lemma swap_alloc_from_finds n : ∀ i s j,
  0 ≤ i → i ≤ j < i + Z.of_nat n → slot_free s j →
  ∃ r b, i ≤ r ≤ j ∧
         swap_bitmap s !! Z.to_nat (r / 8) = Some b ∧
         Z.land b (Z.shiftl 1 (r mod 8)) = 0 ∧
         swap_alloc_from n i s
         = Done r (set_swap_bitmap
                     (<[Z.to_nat (r / 8) := Z.lor b (Z.shiftl 1 (r mod 8)) mod 256]>
                        (swap_bitmap s)) s).
Proof.
  induction n as [|n IH]; intros i s j Hi Hj Hfree; [lia|]. simpl.
  destruct Hfree as (bj & Hbj & Hbitj).
  destruct (lookup_lt_is_Some_2 (swap_bitmap s) (Z.to_nat (i / 8))) as (b & Hb).
  { pose proof (lookup_lt_Some _ _ _ Hbj) as Hlt.
    assert (i / 8 ≤ j / 8) by (apply Z.div_le_mono; lia).
    assert (0 ≤ i / 8) by (apply Z.div_pos; lia). lia. }
  rewrite (bind_run _ _ _ _ _ (bitmap_get_run _ _ _ Hb)).
  destruct (Z.land b (Z.shiftl 1 (i mod 8)) =? 0) eqn:Hbit.
  - apply Z.eqb_eq in Hbit.
    rewrite (bind_run _ _ _ _ _ (bitmap_set_run _ _ _ _ Hb)).
    exists i, b. split_and!; [lia|lia|done|done|done].
  - apply Z.eqb_neq in Hbit.
    assert (i ≠ j) by (intros ->; congruence).
    destruct (IH (i + 1) s j) as (r & b' & Hr & Hb' & Hbit' & Hrun);
      [lia|lia|by exists bj|].
    exists r, b'. split_and!; [lia|lia|done|done|done].
Qed.

Lemma owner_of_page pgs i pt va :
  owner_of pgs i = Some (pt, va) →
  ∃ p, pgs !! i = Some p ∧ pagetable p = pt ∧ vaddr p = va.
Proof.
  unfold owner_of. destruct (pgs !! i) as [p|]; [|done].
  intros [= <- <-]. by exists p.
Qed.

Lemma swapout_victim_success s l k v pt va e j :
  lru_inv s l → l !! k = Some v →
  owner_of (pages s) v = Some (pt, va) →
  walk M pt va ≠ 0 →
  default 0 (ptes s !! walk M pt va) = e → Z.land e PTE_V ≠ 0 →
  kend M ≤ PTE2PA e < PHYSTOP M →
  0 ≤ j < SWAP_PAGES M → slot_free s j → SWAP_PAGES M * 2 ^ 10 ≤ INT_MAX →
  ∃ blk b s',
    swapout_victim M (Some v) s = Done 0 s' ∧
    0 ≤ blk ≤ j ∧
    swap_bitmap s !! Z.to_nat (blk / 8) = Some b ∧
    Z.land b (Z.shiftl 1 (blk mod 8)) = 0 ∧
    swap_bitmap s'
    = <[Z.to_nat (blk / 8) := Z.lor b (Z.shiftl 1 (blk mod 8)) mod 256]>
        (swap_bitmap s) ∧
    ptes s'
    = <[walk M pt va := Z.lor (wrap64 (Z.shiftl blk 10))
                              (clear_bits (PTE_FLAGS e) PTE_V)]> (ptes s) ∧
    swapdisk s' = <[blk := load_page s (PTE2PA e)]> (swapdisk s) ∧
    freelist s' = PTE2PA e ∧
    mem s' = <[PTE2PA e := le_bytes 8 (freelist s) ++ drop 8 (fill 1)]> (mem s) ∧
    lru_inv s' (delete k l) ∧
    length (pages s') = length (pages s) ∧
    (∀ i, owner_of (pages s') i = owner_of (pages s) i) ∧
    console s' = console s ∧ swapouts s' = swapouts s.
Proof.
  intros Hinv Hk Hown Hpte He Hvalid Hrange Hj Hfree Hshl.
  destruct (swap_alloc_from_finds (Z.to_nat (SWAP_PAGES M)) 0 s j)
    as (blk & b & Hblk & Hb & Hbit & Halloc); [lia|lia|done|].
  destruct (owner_of_page _ _ _ _ Hown) as (p & Hp & Hpt & Hva).
  destruct (PTE2PA_aligned e) as [_ Hal].
  destruct (lru_remove_inv
              (set_ptes (<[walk M pt va :=
                             Z.lor (wrap64 (Z.shiftl blk 10))
                                   (clear_bits (PTE_FLAGS e) PTE_V)]> (ptes s))
                 (set_swapdisk (<[blk := load_page s (PTE2PA e)]> (swapdisk s))
                    (set_swap_bitmap
                       (<[Z.to_nat (blk / 8) :=
                            Z.lor b (Z.shiftl 1 (blk mod 8)) mod 256]>
                          (swap_bitmap s)) s))) l k v)
    as (s4 & Hrm & Hinv4 & Hfr); [by apply (lru_inv_ext s)|done|].
  destruct Hfr as (Hfl4 & Hmem4 & Hbm4 & Hptes4 & Hdisk4 & Hcon4 & Hcnt4 & Hlen4 & Hown4).
  exists blk, b, (set_freelist (PTE2PA e)
                    (set_mem (<[PTE2PA e := le_bytes 8 (freelist s4) ++ drop 8 (fill 1)]>
                                (mem s4)) s4)).
  split.
  - unfold swapout_victim.
    run_step ltac:(exact Halloc).
    rewrite (proj2 (Z.ltb_ge blk 0)) by lia.
    run_step ltac:(apply get_field_run; exact Hp).
    run_step ltac:(apply get_field_run; exact Hp).
    rewrite Hpt, Hva.
    erewrite bind_run.
    2:{ rewrite (proj2 (Z.eqb_neq _ _) Hpte).
        run_step ltac:(by apply read_pte_run). reflexivity. }
    simpl_state. rewrite He, (proj2 (Z.eqb_neq _ _) Hvalid).
    run_step ltac:(by apply read_pte_run).
    run_step ltac:(by apply read_pte_run).
    rewrite He. unfold swapwrite. run_pure.
    erewrite bind_run.
    2:{ unfold int_shl. rewrite (proj2 (Z.leb_le 0 blk)) by lia.
        rewrite (proj2 (Z.leb_le _ _)); [reflexivity|].
        rewrite Z.shiftl_mul_pow2 by lia. nia. }
    run_step ltac:(by apply write_pte_run).
    run_step ltac:(exact Hrm).
    rewrite (bind_run _ _ _ _ _ (kfree_run M _ s4 Hal Hrange)). done.
  - simpl_state. rewrite Hfl4, Hmem4, Hbm4, Hptes4, Hdisk4, Hcon4, Hcnt4, Hlen4.
    split_and!; try done; try lia.
    by apply (lru_inv_ext s4).
Qed.

End Evict.

(** ** A successful fault fill *)

Lemma next_of_set_owner pgs i j pt va :
  next_of (alter (page_set_owner pt va) i pgs) j = next_of pgs j.
Proof.
  unfold next_of. destruct (decide (i = j)) as [->|Hne].
  - rewrite list_lookup_alter_eq. by destruct (pgs !! j).
  - by rewrite list_lookup_alter_ne.
Qed.

Lemma prev_of_set_owner pgs i j pt va :
  prev_of (alter (page_set_owner pt va) i pgs) j = prev_of pgs j.
Proof.
  unfold prev_of. destruct (decide (i = j)) as [->|Hne].
  - rewrite list_lookup_alter_eq. by destruct (pgs !! j).
  - by rewrite list_lookup_alter_ne.
Qed.

Lemma owner_of_set_owner pgs i pt va :
  (i < length pgs)%nat →
  owner_of (alter (page_set_owner pt va) i pgs) i = Some (pt, va).
Proof.
  intros Hi. unfold owner_of. rewrite list_lookup_alter_eq.
  destruct (lookup_lt_is_Some_2 pgs i Hi) as (p & ->). done.
Qed.

Lemma lru_inv_set_owner s s' l i pt va :
  pages s' = alter (page_set_owner pt va) i (pages s) →
  page_lru_head s' = page_lru_head s →
  num_lru_pages s' = num_lru_pages s →
  lru_inv s l → lru_inv s' l.
Proof.
  intros Hp Hh Hn [(Hnd & Hhd & Hl) Hnum Htab Hun].
  constructor; rewrite ?Hp, ?Hh, ?Hn.
  - split_and!; [done|done|]. intros a b Hab. destruct (Hl _ _ Hab).
    unfold linked. by rewrite next_of_set_owner, prev_of_set_owner.
  - done.
  - by rewrite length_alter.
  - intros j Hj Hlt. rewrite length_alter in Hlt.
    rewrite next_of_set_owner, prev_of_set_owner. by apply Hun.
Qed.

Section Fill.
Context (M : machine).

Lemma swapin_run st l v pt va pte blk pa :
  lru_inv st l → v ∉ l →
  pte ≠ 0 →
  to_int (Z.shiftr (default 0 (ptes st !! pte)) 10) = blk →
  0 ≤ blk < SWAP_PAGES M →
  freelist st = pa → pa ≠ 0 → pa2page M pa = Some v →
  (v < length (pages st))%nat →
  is_Some (swap_bitmap st !! Z.to_nat (blk / 8)) →
  ∃ s', swapin M pt va pte st = Done 0 s' ∧
        ptes s'
        = <[pte := Z.lor (PA2PTE pa)
                         (wrap32 (Z.lor (Z.lor (PTE_FLAGS (default 0 (ptes st !! pte)))
                                               PTE_V) PTE_A))]> (ptes st) ∧
        mem s' = <[pa := default (fill 0) (swapdisk st !! blk)]>
                   (<[pa := fill 5]> (mem st)) ∧
        lru_inv s' (l ++ [v]) ∧
        owner_of (pages s') v = Some (pt, va).
Proof.
  intros Hinv Hv Hpte Hblk Hrange Hfl Hpa Hpg Hvlt [b Hb].
  assert (freelist st ≠ 0) as Hfl0 by (by rewrite Hfl).
  pose proof (kalloc_nonempty M st Hfl0) as Hkalloc.
  rewrite Hfl in Hkalloc. unfold kalloc_finish in Hkalloc.
  rewrite (proj2 (Z.eqb_neq _ _) Hpa) in Hkalloc.
  set (e2 := Z.lor (PA2PTE pa) _).
  destruct (lru_add_inv
              (set_pages (alter (page_set_owner pt va) v (pages st))
                 (set_ptes (<[pte := e2]> (ptes st))
                    (set_mem (<[pa := default (fill 0) (swapdisk st !! blk)]>
                                (<[pa := fill 5]> (mem st)))
                       (set_freelist (run_next st pa) st)))) l v)
    as (s4 & Hadd & Hinv4 & Hfr).
  { by apply (lru_inv_set_owner st _ _ v pt va). }
  { done. }
  { simpl_state. by rewrite length_alter. }
  destruct Hfr as (Hfl4 & Hmem4 & Hbm4 & Hptes4 & Hdisk4 & Hcon4 & Hcnt4 & Hlen4 & Hown4).
  simpl_state.
  assert (swap_bitmap s4 !! Z.to_nat (blk / 8) = Some b) as Hb4 by (by rewrite Hbm4).
  eexists. split.
  - unfold swapin.
    run_step ltac:(by apply read_pte_run).
    rewrite Hblk.
    replace ((blk <? 0) || (blk >=? SWAP_PAGES M)) with false.
    2:{ symmetry. apply orb_false_iff. split; [apply Z.ltb_ge; lia|].
        rewrite Z.geb_leb. apply Z.leb_gt. lia. }
    run_step ltac:(exact Hkalloc).
    rewrite (proj2 (Z.eqb_neq _ _) Hpa).
    unfold swapread. run_pure.
    run_step ltac:(by apply read_pte_run).
    run_step ltac:(by apply write_pte_run).
    rewrite Hpg. rewrite decide_False by done.
    erewrite bind_run.
    2:{ erewrite bind_run.
        2:{ apply upd_page_run. simpl_state. exact Hvlt. }
        simpl_state. exact Hadd. }
    erewrite bind_run.
    2:{ unfold swap_free.
        replace ((blk <? 0) || (blk >=? SWAP_PAGES M)) with false.
        2:{ symmetry. apply orb_false_iff. split; [apply Z.ltb_ge; lia|].
            rewrite Z.geb_leb. apply Z.leb_gt. lia. }
        rewrite (bind_run _ _ _ _ _ (bitmap_get_run _ _ _ Hb4)).
        apply (bitmap_set_run _ _ _ _ Hb4). }
    reflexivity.
  - simpl_state. rewrite Hptes4, Hmem4. split_and!; try done.
    + by apply (lru_inv_ext s4).
    + rewrite Hown4. by apply owner_of_set_owner.
Qed.

End Fill.

Lemma slot_taken (b r : Z) :
  Z.land (Z.lor b (Z.shiftl 1 (r mod 8)) mod 256) (Z.shiftl 1 (r mod 8)) ≠ 0.
Proof.
  intros Hz.
  pose proof (Z.mod_pos_bound r 8 ltac:(lia)) as Hr.
  assert (Z.testbit (Z.land (Z.lor b (Z.shiftl 1 (r mod 8)) mod 256)
                            (Z.shiftl 1 (r mod 8))) (r mod 8) = false) as Hbit
      by (rewrite Hz; apply Z.bits_0).
  rewrite Z.land_spec in Hbit. change 256 with (2 ^ 8) in Hbit.
  rewrite Z.mod_pow2_bits_low, Z.lor_spec, testbit_pow2 in Hbit by lia.
  rewrite bool_decide_eq_true_2 in Hbit by done.
  by rewrite orb_true_r in Hbit.
Qed.

(** C5.  The entry [swapout] writes for the victim is the swapped-out
    encoding, bit for bit: Valid is clear, each of the other nine flag
    bits is the bit of the entry that was there, and the field above
    the flags is the index of the slot that was allocated (free before,
    taken now). *)
Theorem swapout_encoding_exact (M : machine) (s : kstate) (l : list nat)
    (k v : nat) (pt va e j : Z) :
  lru_inv s l → l !! k = Some v →
  owner_of (pages s) v = Some (pt, va) →
  walk M pt va ≠ 0 →
  default 0 (ptes s !! walk M pt va) = e → Z.land e PTE_V ≠ 0 →
  kend M ≤ PTE2PA e < PHYSTOP M →
  0 ≤ j < SWAP_PAGES M → slot_free s j → SWAP_PAGES M * 2 ^ 10 ≤ INT_MAX →
  ∃ blk s',
    swapout_victim M (Some v) s = Done 0 s' ∧
    0 ≤ blk < SWAP_PAGES M ∧ slot_free s blk ∧ ¬ slot_free s' blk ∧
    Z.land (default 0 (ptes s' !! walk M pt va)) PTE_V = 0 ∧
    (∀ i, 1 ≤ i < 10 →
          Z.testbit (default 0 (ptes s' !! walk M pt va)) i = Z.testbit e i) ∧
    Z.shiftr (default 0 (ptes s' !! walk M pt va)) 10 = blk.
Proof.
  intros Hinv Hk Hown Hpte He Hvalid Hrange Hj Hfree Hshl.
  destruct (swapout_victim_success M s l k v pt va e j)
    as (blk & b & s' & Hrun & Hblk & Hb & Hbit & Hbm & Hptes & _); try done.
  exists blk, s'. rewrite Hptes, lookup_insert_eq. cbn [default from_option id].
  split_and!; [done|lia|lia|by exists b| | | |].
  - intros (b' & Hb' & Hbit'). rewrite Hbm in Hb'.
    rewrite list_lookup_insert_eq in Hb' by (by eapply lookup_lt_Some).
    injection Hb' as <-. by apply slot_taken in Hbit'.
  - apply Z.bits_inj'. intros i Hi. rewrite Z.land_spec, Z.bits_0.
    change PTE_V with (2 ^ 0). rewrite Z.pow2_bits_eqb by lia.
    destruct (0 =? i) eqn:H0; [|apply andb_false_r].
    apply Z.eqb_eq in H0 as <-. by rewrite swapped_entry_flags, andb_false_r by lia.
  - intros i Hi. rewrite swapped_entry_flags by lia.
    rewrite (proj2 (Z.eqb_neq i 0)) by lia. apply andb_true_r.
  - rewrite swapped_entry_slot, Z.shiftl_mul_pow2 by lia.
    rewrite wrap64_small by (unfold INT_MAX in Hshl; nia).
    by rewrite Z.div_mul by lia.
Qed.

Lemma pa2page_range (M : machine) (pa : Z) (v : nat) :
  pa2page M pa = Some v → kend M ≤ pa < PHYSTOP M.
Proof.
  unfold pa2page.
  destruct ((pa <? kend M) || (pa >=? PHYSTOP M)) eqn:Hout; [done|].
  apply orb_false_iff in Hout as [H1 H2].
  apply Z.ltb_ge in H1. rewrite Z.geb_leb in H2. apply Z.leb_gt in H2. lia.
Qed.

Lemma restored_flags_bound (f : Z) :
  0 ≤ f < 2 ^ 10 → 0 ≤ Z.lor (Z.lor f PTE_V) PTE_A < 2 ^ 10.
Proof.
  intros Hf. apply lor_bound; [lia| |unfold PTE_A; lia].
  apply lor_bound; [lia|done|unfold PTE_V; lia].
Qed.

(** C4.  The round trip of a Resident frame: [v] is enrolled, owned by
    [pt] at [va], its entry [e] is Valid and names the frame whose
    table entry [v] is.  Then [swapout], from the slot allocation on,
    succeeds for [v], and [swapin] on the entry it wrote succeeds too;
    the slot [swapin] decodes is the slot [swapout] encoded and stored
    the page in; the page behind the restored entry holds the bytes the
    page held before; the restored flags are those of [e] except that
    Valid and Accessed are set. *)
Theorem swap_round_trip (M : machine) (s : kstate) (l : list nat)
    (k v : nat) (pt va e j : Z) :
  lru_inv s l → l !! k = Some v →
  owner_of (pages s) v = Some (pt, va) →
  walk M pt va ≠ 0 →
  default 0 (ptes s !! walk M pt va) = e → Z.land e PTE_V ≠ 0 →
  pa2page M (PTE2PA e) = Some v → 0 < kend M →
  0 ≤ j < SWAP_PAGES M → slot_free s j → SWAP_PAGES M * 2 ^ 10 ≤ INT_MAX →
  ∃ blk s1 s2,
    swapout_victim M (Some v) s = Done 0 s1 ∧
    swapdisk s1 !! blk = Some (load_page s (PTE2PA e)) ∧
    Z.shiftr (default 0 (ptes s1 !! walk M pt va)) 10 = blk ∧
    to_int (Z.shiftr (default 0 (ptes s1 !! walk M pt va)) 10) = blk ∧
    swapin M pt va (walk M pt va) s1 = Done 0 s2 ∧
    load_page s2 (PTE2PA (default 0 (ptes s2 !! walk M pt va)))
    = load_page s (PTE2PA e) ∧
    (∀ i, 0 ≤ i < 10 → i ≠ 0 → i ≠ 6 →
          Z.testbit (default 0 (ptes s2 !! walk M pt va)) i = Z.testbit e i) ∧
    Z.testbit (default 0 (ptes s2 !! walk M pt va)) 0 = true ∧
    Z.testbit (default 0 (ptes s2 !! walk M pt va)) 6 = true ∧
    owner_of (pages s2) v = Some (pt, va) ∧
    lru_inv s2 (delete k l ++ [v]).
Proof.
  intros Hinv Hk Hown Hpte He Hvalid Hpg Hkend Hj Hfree Hshl.
  pose proof (pa2page_range _ _ _ Hpg) as Hrange.
  destruct (PTE2PA_aligned e) as [Hpa64 Hal].
  assert (v ∈ l) as Hvl by (eapply list_elem_of_lookup_2; eauto).
  pose proof (lru_inv_lt _ _ _ Hinv Hvl) as Hvlt.
  pose proof Hinv as [(Hnd & _ & _) _ _ _].
  destruct (swapout_victim_success M s l k v pt va e j)
    as (blk & b & s1 & Hout & Hblk & Hb & Hbit & Hbm & Hptes & Hdisk & Hfl
        & Hmem & Hinv1 & Hlen & Hown1 & _); try done.
  set (enc := Z.lor (wrap64 (Z.shiftl blk 10)) (clear_bits (PTE_FLAGS e) PTE_V))
    in Hptes.
  assert (default 0 (ptes s1 !! walk M pt va) = enc) as Henc
      by (by rewrite Hptes, lookup_insert_eq).
  assert (Z.shiftr enc 10 = blk) as Hslot.
  { unfold enc. rewrite swapped_entry_slot, Z.shiftl_mul_pow2 by lia.
    rewrite wrap64_small by (unfold INT_MAX in Hshl; nia).
    by rewrite Z.div_mul by lia. }
  assert (to_int blk = blk) as Hint
      by (apply to_int_small; unfold INT_MAX in Hshl; lia).
  destruct (swapin_run M s1 (delete k l) v pt va (walk M pt va) blk (PTE2PA e))
    as (s2 & Hin & Hptes2 & Hmem2 & Hinv2 & Hown2); try done.
  { by apply not_elem_of_delete. }
  { by rewrite Henc, Hslot. }
  { lia. }
  { lia. }
  { by rewrite Hlen. }
  { rewrite Hbm. rewrite list_lookup_insert_eq by (by eapply lookup_lt_Some). eauto. }
  rewrite Henc in Hptes2.
  set (fl := Z.lor (Z.lor (PTE_FLAGS enc) PTE_V) PTE_A) in Hptes2.
  pose proof (restored_flags_bound _ (PTE_FLAGS_bound enc)) as Hflb. fold fl in Hflb.
  assert (default 0 (ptes s2 !! walk M pt va) = Z.lor (PA2PTE (PTE2PA e)) (wrap32 fl))
    as He2 by (by rewrite Hptes2, lookup_insert_eq).
  assert (∀ i, 0 ≤ i < 10 →
               Z.testbit (Z.lor (PA2PTE (PTE2PA e)) (wrap32 fl)) i
               = Z.testbit e i && negb (i =? 0) || (0 =? i) || (6 =? i)) as Hbits.
  { intros i Hi. rewrite resident_entry_flags by done. unfold fl.
    rewrite !Z.lor_spec, PTE_FLAGS_testbit by lia. unfold enc.
    rewrite swapped_entry_flags by done.
    change PTE_V with (2 ^ 0). change PTE_A with (2 ^ 6).
    rewrite !Z.pow2_bits_eqb by lia.
    by rewrite (proj2 (Z.ltb_lt i 10)), andb_true_r by lia. }
  exists blk, s1, s2. rewrite Henc, He2. split_and!; try done.
  - by rewrite Hdisk, lookup_insert_eq.
  - by rewrite Hslot.
  - rewrite resident_entry_pa; [|done|done|].
    2:{ unfold wrap32. rewrite Z.mod_small; lia. }
    unfold load_page at 1. rewrite Hmem2, lookup_insert_eq.
    by rewrite Hdisk, lookup_insert_eq.
  - intros i Hi H0 H6. rewrite Hbits by done.
    rewrite (proj2 (Z.eqb_neq i 0)), (proj2 (Z.eqb_neq 0 i)),
      (proj2 (Z.eqb_neq 6 i)) by lia.
    by rewrite andb_true_r, !orb_false_r.
  - rewrite Hbits by lia. by destruct (Z.testbit e 0).
  - rewrite Hbits by lia. by destruct (Z.testbit e 6).
Qed.

(** The theorem at the ring whose head is not Accessed: frame 0 goes
    to slot 0 and its entry becomes [0x16]. *)
Lemma swapout_encoding_exact_witness :
  ∃ blk s',
    swapout_victim qemu (Some 0%nat) head_evictable = Done 0 s' ∧
    0 ≤ blk < 7000 ∧
    Z.land (default 0 (ptes s' !! entry_of 0x1000)) PTE_V = 0 ∧
    Z.shiftr (default 0 (ptes s' !! entry_of 0x1000)) 10 = blk.
Proof.
  destruct (swapout_encoding_exact qemu head_evictable [0; 1; 2]%nat 0 0
              leaf_table 0x1000 (resident 0 0x17) 0)
    as (blk & s' & Hrun & Hblk & _ & _ & Hv & _ & Hslot).
  - apply three_frames_inv.
  - reflexivity.
  - reflexivity.
  - vm_compute. discriminate.
  - vm_compute. reflexivity.
  - vm_compute. discriminate.
  - vm_compute. split; [discriminate|reflexivity].
  - vm_compute. split; [discriminate|reflexivity].
  - exists 0. split; vm_compute; reflexivity.
  - vm_compute. discriminate.
  - by exists blk, s'.
Defined.

(** The theorem at the same ring: frame 0 goes out and comes back. *)
Lemma swap_round_trip_witness :
  ∃ blk s1 s2,
    swapout_victim qemu (Some 0%nat) head_evictable = Done 0 s1 ∧
    to_int (Z.shiftr (default 0 (ptes s1 !! entry_of 0x1000)) 10) = blk ∧
    swapin qemu leaf_table 0x1000 (entry_of 0x1000) s1 = Done 0 s2 ∧
    load_page s2 (PTE2PA (default 0 (ptes s2 !! entry_of 0x1000)))
    = load_page head_evictable (frame_pa 0).
Proof.
  destruct (swap_round_trip qemu head_evictable [0; 1; 2]%nat 0 0
              leaf_table 0x1000 (resident 0 0x17) 0)
    as (blk & s1 & s2 & Hout & _ & _ & Hdec & Hin & Hpage & _).
  - apply three_frames_inv.
  - reflexivity.
  - reflexivity.
  - vm_compute. discriminate.
  - vm_compute. reflexivity.
  - vm_compute. discriminate.
  - vm_compute. reflexivity.
  - vm_compute. reflexivity.
  - vm_compute. split; [discriminate|reflexivity].
  - exists 0. split; vm_compute; reflexivity.
  - vm_compute. discriminate.
  - by exists blk, s1, s2.
Defined.

(** The theorem at the same ring: the free list is empty, [swapout]
    evicts frame 0 and [kalloc] returns it. *)
Lemma kalloc_evicts_once_witness :
  ∃ r s', kalloc qemu head_evictable = Done r s' ∧
          swapouts s' = 1%nat ∧ r = frame_pa 0.
Proof.
  assert (∃ s1, swapout qemu head_evictable = Done 0 s1 ∧
                freelist s1 = frame_pa 0) as (s1 & Hout & Hfl).
  { eexists. split; vm_compute; reflexivity. }
  destruct (proj1 (proj2 (kalloc_evicts_once qemu head_evictable))
              eq_refl 0 s1 Hout)
    as (r & s' & Hrun & Hcount & _ & Hr).
  exists r, s'. split_and!; [done|done|].
  destruct Hr as [-> _]; [lia|done].
Defined.

(** ** Where the code leaves the specification *)

(** C1, as the code has it.  When the frame at the head has a Valid
    entry with Accessed set, [swapout] clears that one flag, moves the
    frame to the tail and stops: the next frame is the new head, so
    the loop condition [curr != page_lru_head] ends the scan at once.
    [swapout] returns -1; no other entry is touched and no frame is
    evicted, whatever the flags of the other frames are. *)
Theorem swapout_stops_after_second_chance (M : machine) (s : kstate)
    (l : list nat) (h : nat) (pte e : Z) :
  lru_inv s l → head l = Some h →
  probe M s h = Some (Referenced pte e) →
  ∃ s', swapout M s = Done (-1) s' ∧
        ptes s' = <[pte := clear_bits e PTE_A]> (ptes s) ∧
        lru_inv s' (tail l ++ [h]) ∧
        freelist s' = freelist s ∧ mem s' = mem s ∧
        swap_bitmap s' = swap_bitmap s ∧ swapdisk s' = swapdisk s.
Proof.
  intros Hinv Hh Hprobe.
  pose proof Hinv as [(_ & Hhd & _) _ _ _].
  assert (l !! O = Some h) as Hk by (by rewrite <- head_lookup).
  destruct (scan_second_chance M (count_swapout s) l 0 h pte e)
    as (s' & Hscan & Hinv' & Hfr); [by apply lru_inv_set_swapouts|done|done|].
  destruct Hfr as (Hfl & Hmem & Hbm & Hptes & Hdisk & _).
  exists s'. split_and!; try done.
  - unfold swapout. run_pure. run_pure. rewrite Hhd, Hh.
    rewrite decide_False by done. run_pure.
    change (scan_fuel (count_swapout s)) with (S (Z.to_nat (num_lru_pages s))).
    run_step ltac:(apply Hscan). by rewrite decide_True.
  - by destruct l.
Qed.

(** The theorem at three frames that all have Accessed set: only the
    entry of frame 0 has lost the flag, frame 1 is the head, and the
    free list is as empty as before. *)
Lemma swapout_stops_after_second_chance_witness :
  ∃ s', swapout qemu all_accessed = Done (-1) s' ∧
        default 0 (ptes s' !! entry_of 0x1000) = resident 0 0x17 ∧
        default 0 (ptes s' !! entry_of 0x2000) = resident 1 0x57 ∧
        default 0 (ptes s' !! entry_of 0x3000) = resident 2 0x57 ∧
        page_lru_head s' = Some 1%nat ∧ freelist s' = 0.
Proof.
  destruct (swapout_stops_after_second_chance qemu all_accessed [0; 1; 2]%nat 0
              (entry_of 0x1000) (resident 0 0x57))
    as (s' & Hrun & Hptes & Hinv & Hfl & _).
  - apply three_frames_inv.
  - reflexivity.
  - vm_compute. reflexivity.
  - exists s'. rewrite Hptes, Hfl. split_and!; try done.
    by destruct Hinv as [(_ & -> & _) _ _ _].
Defined.

(** C2, as the code has it.  [swapin] checks the slot index after the
    conversion to [int]: an entry with Valid clear whose frame-number
    field is no slot index is accepted when the low 32 bits of the
    field are one.  [swapin] then returns 0 and the entry is
    rewritten as a Valid one. *)
Theorem swapin_accepts_truncated_slot (M : machine) (st : kstate)
    (l : list nat) (v : nat) (pt va pte e blk pa : Z) :
  lru_inv st l → v ∉ l →
  pte ≠ 0 → default 0 (ptes st !! pte) = e → Z.land e PTE_V = 0 →
  ¬ (0 ≤ Z.shiftr e 10 < SWAP_PAGES M) →
  to_int (Z.shiftr e 10) = blk → 0 ≤ blk < SWAP_PAGES M →
  freelist st = pa → pa ≠ 0 → pa2page M pa = Some v →
  (v < length (pages st))%nat →
  is_Some (swap_bitmap st !! Z.to_nat (blk / 8)) →
  ∃ s', swapin M pt va pte st = Done 0 s' ∧
        Z.testbit (default 0 (ptes s' !! pte)) 0 = true ∧
        default 0 (ptes s' !! pte) ≠ e.
Proof.
  intros Hinv Hv Hpte He Hvalid Hfield Hblk Hrange Hfl Hpa Hpg Hvlt Hbm.
  destruct (swapin_run M st l v pt va pte blk pa)
    as (s' & Hrun & Hptes & _); try done.
  { by rewrite He. }
  assert (Z.testbit (default 0 (ptes s' !! pte)) 0 = true) as Hbit.
  { rewrite Hptes, lookup_insert_eq. cbn [default from_option id].
    unfold wrap32. rewrite Z.lor_spec, Z.mod_pow2_bits_low, !Z.lor_spec by lia.
    change PTE_V with (2 ^ 0). rewrite (Z.pow2_bits_eqb 0 0) by lia.
    by rewrite orb_true_r, orb_true_r. }
  exists s'. split_and!; [done|done|].
  intros Heq. rewrite Heq in Hbit.
  assert (Z.testbit (Z.land e PTE_V) 0 = false) as Hz
      by (rewrite Hvalid; apply Z.bits_0).
  rewrite Z.land_spec, Hbit in Hz. done.
Qed.

Lemma fault_on_bad_slot_inv : lru_inv fault_on_bad_slot [0; 1; 2]%nat.
Proof. by apply (lru_inv_ext all_accessed), three_frames_inv. Qed.

(** The theorem at the entry [2^42 + 0x16]: its frame-number field is
    [2^32], no slot of 7000, and [swapin] returns 0 and makes the
    entry a Valid one for frame 3. *)
Lemma swapin_accepts_truncated_slot_witness :
  Z.land bad_slot_entry PTE_V = 0 ∧
  Z.shiftr bad_slot_entry 10 = 2 ^ 32 ∧
  ∃ s', swapin qemu leaf_table 0x4000 (entry_of 0x4000) fault_on_bad_slot
        = Done 0 s' ∧
        Z.testbit (default 0 (ptes s' !! entry_of 0x4000)) 0 = true.
Proof.
  split; [reflexivity|]. split; [reflexivity|].
  destruct (swapin_accepts_truncated_slot qemu fault_on_bad_slot [0; 1; 2]%nat 3
              leaf_table 0x4000 (entry_of 0x4000) bad_slot_entry 0 (frame_pa 3))
    as (s' & Hrun & Hbit & _).
  - apply fault_on_bad_slot_inv.
  - compute_done.
  - vm_compute. discriminate.
  - vm_compute. reflexivity.
  - reflexivity.
  - vm_compute. intros [_ H]. discriminate H.
  - reflexivity.
  - vm_compute. split; [discriminate|reflexivity].
  - reflexivity.
  - vm_compute. discriminate.
  - vm_compute. reflexivity.
  - simpl. lia.
  - vm_compute. eauto.
  - by exists s'.
Defined.

(** * The rest of the allocator *)

(** ** [pa2page] *)

(** X1.  [pa2page] is null outside the managed range, from [end] up to
    [PHYSTOP].  Inside it yields a pointer into the table: with [end]
    not negative and [PHYSTOP] page aligned the index is below
    [PHYSTOP / PGSIZE], the length of [pages], and it is the number of
    the page-sized block, counted from [end], that holds the address. *)
Theorem pa2page_within_table (M : machine) (pa : Z) :
  0 ≤ kend M → PHYSTOP M mod PGSIZE = 0 →
  match pa2page M pa with
  | None => pa < kend M ∨ PHYSTOP M ≤ pa
  | Some i =>
      kend M ≤ pa < PHYSTOP M ∧
      (i < Z.to_nat (PHYSTOP M / PGSIZE))%nat ∧
      kend M + PGSIZE * Z.of_nat i ≤ pa < kend M + PGSIZE * Z.of_nat i + PGSIZE
  end.
Proof.
  intros Hk Hal. unfold pa2page.
  destruct ((pa <? kend M) || (pa >=? PHYSTOP M)) eqn:Hout.
  - apply orb_true_iff in Hout as [H|H]; [left; lia|right; lia].
  - apply orb_false_iff in Hout as [H1 H2].
    assert (kend M ≤ pa < PHYSTOP M) as Hr by lia.
    unfold PGSIZE in *.
    pose proof (Z.div_mod (pa - kend M) 4096 ltac:(lia)) as Hd.
    pose proof (Z.mod_pos_bound (pa - kend M) 4096 ltac:(lia)) as Hm.
    pose proof (Z.div_mod (PHYSTOP M) 4096 ltac:(lia)) as Hd'.
    assert (0 ≤ (pa - kend M) / 4096) as Hq by (apply Z.div_pos; lia).
    split; [done|]. rewrite Z2Nat.id by done. split; [|lia].
    apply Z2Nat.inj_lt; [lia| |]; [apply Z.div_pos; lia|].
    nia.
Qed.

(** An address inside frame 3, and [PHYSTOP] itself. *)
Lemma pa2page_within_table_witness :
  pa2page qemu (frame_pa 3 + 100) = Some 3%nat ∧
  (3 < Z.to_nat (PHYSTOP qemu / PGSIZE))%nat ∧
  pa2page qemu (PHYSTOP qemu) = None.
Proof.
  pose proof (pa2page_within_table qemu (frame_pa 3 + 100)
                ltac:(vm_compute; discriminate) ltac:(reflexivity)) as H.
  change (pa2page qemu (frame_pa 3 + 100)) with (Some 3%nat) in H.
  destruct H as (_ & H & _).
  split; [reflexivity|]. split; [exact H|reflexivity].
Defined.

(** X2.  [pa2page] follows the frames: [k] pages above an address with
    entry [i] lies entry [i + k], so two addresses a positive number of
    pages apart never share an entry. *)
Theorem pa2page_follows_frames (M : machine) (pa k : Z) (i : nat) :
  pa2page M pa = Some i → 0 ≤ k → pa + PGSIZE * k < PHYSTOP M →
  pa2page M (pa + PGSIZE * k) = Some (i + Z.to_nat k)%nat ∧
  (0 < k → pa2page M (pa + PGSIZE * k) ≠ pa2page M pa).
Proof.
  unfold pa2page. intros Hi Hk Hlt.
  destruct ((pa <? kend M) || (pa >=? PHYSTOP M)) eqn:Ho1; [done|].
  apply orb_false_iff in Ho1 as [Ha1 Hb1]. injection Hi as Hi.
  assert (0 ≤ (pa - kend M) / PGSIZE) as Hq by (apply Z.div_pos; unfold PGSIZE; lia).
  assert ((pa + PGSIZE * k - kend M) / PGSIZE = (pa - kend M) / PGSIZE + k) as Hdiv.
  { replace (pa + PGSIZE * k - kend M) with (pa - kend M + k * PGSIZE) by lia.
    apply Z.div_add. done. }
  destruct ((pa + PGSIZE * k <? kend M) || (pa + PGSIZE * k >=? PHYSTOP M)) eqn:Ho2.
  { apply orb_true_iff in Ho2 as [H|H]; unfold PGSIZE in *; lia. }
  rewrite Hdiv, Z2Nat.inj_add, Hi by lia.
  split; [done|]. intros Hpos [= Heq]. lia.
Qed.

(** Three pages above frame 2. *)
Lemma pa2page_follows_frames_witness :
  pa2page qemu (frame_pa 2 + PGSIZE * 3) = Some 5%nat.
Proof.
  apply (pa2page_follows_frames qemu (frame_pa 2) 3 2);
    [reflexivity|lia|reflexivity].
Defined.

(** ** The free list *)

Lemma run_next_other s s' a :
  mem s' !! a = mem s !! a → run_next s' a = run_next s a.
Proof. intros H. unfold run_next, load_page. by rewrite H. Qed.

Lemma free_chain_frame s s' l : ∀ r,
  (∀ a, a ∈ l → mem s' !! a = mem s !! a) →
  free_chain s r l → free_chain s' r l.
Proof.
  induction l as [|a l IH]; intros r Hsame; simpl; [done|].
  intros (-> & Hb & Hc). split; [done|]. split; [done|].
  rewrite (run_next_other s s') by (apply Hsame; left).
  apply IH; [|done]. intros x Hx. apply Hsame. by right.
Qed.

Lemma free_chain_bound s r l : free_chain s r l → 0 ≤ r < 2 ^ 64.
Proof. destruct l; simpl; [intros ->; lia|intros (-> & ? & _); lia]. Qed.

Lemma free_chain_fun s l1 : ∀ r l2,
  free_chain s r l1 → free_chain s r l2 → l1 = l2.
Proof.
  induction l1 as [|a l1 IH]; intros r [|b l2]; simpl.
  - done.
  - intros -> (-> & ? & _). lia.
  - intros (-> & ? & _) ->. lia.
  - intros (-> & _ & H1) (<- & _ & H2). f_equal. by eapply IH.
Qed.

Lemma free_chain_suffix s l : ∀ r x,
  free_chain s r l → x ∈ l →
  ∃ l1 l2, l = l1 ++ x :: l2 ∧ free_chain s x (x :: l2).
Proof.
  induction l as [|a l IH]; intros r x Hc Hx; [by apply elem_of_nil in Hx|].
  destruct (decide (x = a)) as [->|Hne].
  - exists [], l. split; [done|]. by destruct Hc as (-> & ? & ?).
  - apply elem_of_cons in Hx as [?|Hx]; [done|].
    destruct Hc as (-> & _ & Hc).
    destruct (IH _ _ Hc Hx) as (l1 & l2 & -> & Hc').
    by exists (a :: l1), l2.
Qed.

(** A chain that ends holds no page twice. *)
Lemma free_chain_NoDup s l : ∀ r, free_chain s r l → NoDup l.
Proof.
  induction l as [|a l IH]; intros r Hc; [constructor|].
  pose proof Hc as (-> & Hb & Hc').
  constructor; [|by eapply IH].
  intros Hin.
  destruct (free_chain_suffix _ _ _ _ Hc' Hin) as (l1 & l2 & Hl & Hc2).
  pose proof (free_chain_fun _ _ _ _ Hc Hc2) as Heq.
  injection Heq as Heq. rewrite Heq in Hl.
  apply (f_equal length) in Hl. rewrite length_app in Hl. simpl in Hl. lia.
Qed.

Lemma run_next_kfree pa s :
  run_next (set_freelist pa
              (set_mem (<[pa := le_bytes 8 (freelist s) ++ drop 8 (fill 1)]>
                          (mem s)) s)) pa
  = wrap64 (freelist s).
Proof.
  unfold run_next, load_page. simpl_state.
  rewrite lookup_insert_eq. cbn [default from_option id].
  rewrite (take_app_length' _ _ 8) by (by rewrite le_bytes_length).
  by rewrite le_value_bytes.
Qed.

Lemma run_next_at s r x :
  mem s !! r = Some x → run_next s r = le_value (take 8 x).
Proof. intros H. unfold run_next, load_page. by rewrite H. Qed.

Lemma le_value_link v (x : list Z) :
  le_value (take 8 (le_bytes 8 v ++ x)) = wrap64 v.
Proof.
  rewrite (take_app_length' _ _ 8) by (by rewrite le_bytes_length).
  by rewrite le_value_bytes.
Qed.

Lemma kalloc_finish_nonzero r s :
  r ≠ 0 → kalloc_finish r s = set_mem (<[r := fill 5]> (mem s)) s.
Proof. intros Hr. unfold kalloc_finish. by apply Z.eqb_neq in Hr as ->. Qed.

(** X3.  The free list is last in, first out: [kalloc] right after
    [kfree pa] returns [pa] and leaves the state as it was before the
    [kfree], except that the page is now filled with the junk byte 5. *)
Theorem kfree_kalloc_round_trip (M : machine) (pa : Z) (s : kstate) :
  frame_addr M pa → pa ≠ 0 → 0 ≤ freelist s < 2 ^ 64 →
  (run kfree M pa; kalloc M) s
  = Done pa (set_mem (<[pa := fill 5]> (mem s)) s).
Proof.
  intros [Hal Hr] Hnz Hfl.
  erewrite bind_run by (by apply kfree_run).
  rewrite kalloc_nonempty by done. simpl_state.
  rewrite run_next_kfree, kalloc_finish_nonzero by done. simpl_state.
  rewrite insert_insert_eq. unfold wrap64. rewrite Z.mod_small by done.
  by destruct s.
Qed.

(** Frame 3 after boot. *)
Lemma kfree_kalloc_round_trip_witness :
  (run kfree qemu (frame_pa 3); kalloc qemu) boot_state
  = Done (frame_pa 3) (set_mem (<[frame_pa 3 := fill 5]> (mem boot_state)) boot_state).
Proof.
  apply (kfree_kalloc_round_trip qemu (frame_pa 3) boot_state).
  - split; [reflexivity|]. split; [by vm_compute|reflexivity].
  - by vm_compute.
  - split; [by vm_compute|reflexivity].
Defined.

(** X4.  [kfree] does not look for the page on the free list: after
    the same page has been freed twice, the next two calls of [kalloc]
    both return it, and the head of the free list is then the junk word
    that [kalloc] wrote over the link. *)
Theorem kfree_twice_hands_out_twice (M : machine) (pa : Z) (s : kstate) :
  frame_addr M pa → 0 < pa < 2 ^ 64 →
  ∃ s', (run kfree M pa; run kfree M pa;
         do a <- kalloc M; do b <- kalloc M; ret (a, b)) s
        = Done (pa, pa) s' ∧
        freelist s' = 0x0505050505050505.
Proof.
  intros [Hal Hr] Hpa.
  erewrite bind_run by (by apply kfree_run).
  erewrite bind_run by (by apply kfree_run). simpl_state.
  erewrite bind_run by (apply kalloc_nonempty; simpl_state; lia). simpl_state.
  erewrite run_next_at by (simpl_state; apply lookup_insert_eq).
  rewrite le_value_link, kalloc_finish_nonzero by lia. simpl_state.
  unfold wrap64. rewrite (Z.mod_small pa) by lia.
  erewrite bind_run by (apply kalloc_nonempty; simpl_state; lia). simpl_state.
  rewrite kalloc_finish_nonzero by lia. simpl_state.
  eexists. split; [reflexivity|]. simpl_state.
  erewrite run_next_at by (simpl_state; apply lookup_insert_eq).
  reflexivity.
Qed.

(** Frame 3 freed twice after boot. *)
Lemma kfree_twice_hands_out_twice_witness :
  ∃ s', (run kfree qemu (frame_pa 3); run kfree qemu (frame_pa 3);
         do a <- kalloc qemu; do b <- kalloc qemu; ret (a, b)) boot_state
        = Done (frame_pa 3, frame_pa 3) s' ∧
        freelist s' = 0x0505050505050505.
Proof.
  apply (kfree_twice_hands_out_twice qemu (frame_pa 3) boot_state).
  - split; [reflexivity|]. split; [by vm_compute|reflexivity].
  - split; reflexivity.
Defined.



(** X6.  On a free list that ends, [kalloc] returns the first page
    without calling [swapout] and without printing; the rest of the
    list is the free list afterwards, the returned page is no longer on
    it, it is filled with the junk byte 5, and no other page of memory
    has changed. *)
Theorem kalloc_takes_head_of_free_list (M : machine) (s : kstate)
    (r : Z) (l : list Z) :
  free_chain s (freelist s) (r :: l) →
  ∃ s', kalloc M s = Done r s' ∧
        free_chain s' (freelist s') l ∧ (r ∉ l) ∧
        load_page s' r = fill 5 ∧
        (∀ a, a ≠ r → mem s' !! a = mem s !! a) ∧
        swapouts s' = swapouts s ∧ console s' = console s.
Proof.
  intros Hc. pose proof (free_chain_NoDup _ _ _ Hc) as Hnd.
  apply NoDup_cons in Hnd as [Hnew _].
  destruct Hc as (Hfl & Hb & Hc).
  eexists. split; [rewrite kalloc_nonempty by lia; by rewrite Hfl|].
  rewrite kalloc_finish_nonzero by lia. simpl_state.
  split_and!; try done.
  - eapply free_chain_frame; [|done].
    intros a Ha. simpl_state. apply lookup_insert_ne. by intros ->.
  - unfold load_page. simpl_state. by rewrite lookup_insert_eq.
  - intros a Ha. by apply lookup_insert_ne.
Qed.

(** The one free page, frame 3. *)
Lemma kalloc_takes_head_of_free_list_witness :
  ∃ s', kalloc qemu fault_on_bad_slot = Done (frame_pa 3) s' ∧
        free_chain s' (freelist s') [] ∧
        load_page s' (frame_pa 3) = fill 5.
Proof.
  destruct (kalloc_takes_head_of_free_list qemu fault_on_bad_slot (frame_pa 3) [])
    as (s' & Hrun & Hc & _ & Hl & _).
  - split; [reflexivity|]. split; [split; reflexivity|]. reflexivity.
  - by exists s'.
Defined.

(** ** Allocation after allocation *)




(** ** [freerange] *)

Lemma clear_bits_page (x : Z) :
  0 ≤ x → clear_bits x (PGSIZE - 1) = PGSIZE * (x / PGSIZE).
Proof.
  intros Hx. unfold clear_bits. change (PGSIZE - 1) with (Z.ones 12).
  rewrite <- Z.ldiff_land, Z.ldiff_ones_r by lia.
  rewrite Z.shiftr_div_pow2, Z.shiftl_mul_pow2 by lia.
  change (2 ^ 12) with PGSIZE. lia.
Qed.

Lemma PGROUNDUP_spec (a : Z) :
  0 ≤ a → a + PGSIZE ≤ 2 ^ 64 →
  PGROUNDUP a mod PGSIZE = 0 ∧ a ≤ PGROUNDUP a < a + PGSIZE.
Proof.
  intros Ha Hb. unfold PGROUNDUP, wrap64.
  rewrite (Z.mod_small (a + PGSIZE - 1)) by (unfold PGSIZE in *; lia).
  rewrite clear_bits_page by (unfold PGSIZE; lia).
  unfold PGSIZE in *.
  pose proof (Z.div_mod (a + 4096 - 1) 4096 ltac:(lia)) as Hd.
  pose proof (Z.mod_pos_bound (a + 4096 - 1) 4096 ltac:(lia)) as Hm.
  split; [|lia].
  rewrite Z.mul_comm. apply Z.mod_mul. lia.
Qed.

Lemma elem_of_range_pages n : ∀ p x,
  x ∈ range_pages p n ↔ ∃ i, 0 ≤ i < Z.of_nat n ∧ x = p + PGSIZE * i.
Proof.
  induction n as [|n IH]; intros p x; simpl.
  - split; [by intros ?%elem_of_nil|intros (i & ? & _); lia].
  - rewrite elem_of_cons, IH. split.
    + intros [->|(i & Hi & ->)]; [exists 0; lia|exists (i + 1); lia].
    + intros (i & Hi & ->). destruct (decide (i = 0)) as [->|Hne]; [left; lia|].
      right. exists (i - 1). lia.
Qed.

Lemma kfree_panic (M : machine) (pa : Z) (s : kstate) :
  pa mod PGSIZE ≠ 0 ∨ pa < kend M ∨ PHYSTOP M ≤ pa →
  kfree M pa s = Panic "kfree".
Proof.
  intros Hbad. apply kfree_invalid_iff in Hbad. unfold kfree. by rewrite Hbad.
Qed.

Lemma kfree_push (M : machine) (pa : Z) (s : kstate) (l : list Z) :
  frame_addr M pa → 0 < pa < 2 ^ 64 →
  free_chain s (freelist s) l → pa ∉ l →
  ∃ s', kfree M pa s = Done tt s' ∧
        free_chain s' (freelist s') (pa :: l) ∧
        load_page s' pa = le_bytes 8 (freelist s) ++ drop 8 (fill 1) ∧
        (∀ a, a ≠ pa → mem s' !! a = mem s !! a) ∧
        s' = set_freelist (freelist s') (set_mem (mem s') s).
Proof.
  intros [Hal Hr] Hpa Hc Hnew.
  eexists. split; [by apply kfree_run|].
  split_and!.
  - split; [done|]. split; [done|].
    rewrite run_next_kfree. unfold wrap64.
    rewrite Z.mod_small by (by eapply free_chain_bound).
    eapply free_chain_frame; [|done].
    intros a Ha. simpl_state. apply lookup_insert_ne. by intros ->.
  - unfold load_page. simpl_state. by rewrite lookup_insert_eq.
  - intros a Ha. simpl_state. by apply lookup_insert_ne.
  - done.
Qed.

Section Freerange.
Context (M : machine).

Lemma freerange_loop_run pa_end n : ∀ p s l fuel,
  p mod PGSIZE = 0 → 0 < p → kend M ≤ p →
  (n ≠ 0%nat → p + PGSIZE * Z.of_nat n ≤ pa_end) →
  pa_end < p + PGSIZE * Z.of_nat n + PGSIZE →
  pa_end ≤ PHYSTOP M →
  p + PGSIZE * Z.of_nat n + PGSIZE < 2 ^ 64 →
  (n < fuel)%nat →
  free_chain s (freelist s) l →
  (∀ x, x ∈ range_pages p n → x ∉ l) →
  ∃ s', freerange_loop M fuel p pa_end s = Done tt s' ∧
        free_chain s' (freelist s') (reverse (range_pages p n) ++ l) ∧
        (∀ x, x ∈ range_pages p n →
              drop 8 (load_page s' x) = drop 8 (fill 1)) ∧
        (∀ a, a ∉ range_pages p n → mem s' !! a = mem s !! a) ∧
        s' = set_freelist (freelist s') (set_mem (mem s') s).
Proof.
  induction n as [|n IH]; intros p s l fuel Hal Hpos Hk Hle Hlt Htop Hov Hfuel Hc Hnew.
  - destruct fuel as [|fuel]; [lia|]. simpl.
    destruct (2 ^ 64 <=? p + PGSIZE) eqn:Ho; [lia|].
    destruct (p + PGSIZE <=? pa_end) eqn:Hcond; [lia|].
    exists s. split_and!; [done|done| |done|by destruct s].
    by intros x ?%elem_of_nil.
  - destruct fuel as [|fuel]; [lia|]. simpl.
    destruct (2 ^ 64 <=? p + PGSIZE) eqn:Ho; [unfold PGSIZE in *; lia|].
    destruct (p + PGSIZE <=? pa_end) eqn:Hcond; [|unfold PGSIZE in *; lia].
    destruct (kfree_push M p s l) as (s1 & Hrun & Hc1 & Hpg & Hmem1 & Hs1).
    { split; [done|]. unfold PGSIZE in *. lia. }
    { unfold PGSIZE in *. lia. }
    { done. }
    { apply Hnew. left. }
    erewrite bind_run by exact Hrun.
    destruct (IH (p + PGSIZE) s1 (p :: l) fuel)
      as (s' & Hrun' & Hc' & Hjunk & Hmem' & Hs'); try done;
      try (unfold PGSIZE in *; lia).
    { unfold PGSIZE in *. rewrite <- Z.add_mod_idemp_r, Z.mod_same, Z.add_0_r by lia.
      done. }
    { intros x Hx. apply not_elem_of_cons. split.
      - apply elem_of_range_pages in Hx as (i & Hi & ->). unfold PGSIZE. lia.
      - apply Hnew. by right. }
    assert (p ∉ range_pages (p + PGSIZE) n) as Hp.
    { intros (i & Hi & Heq)%elem_of_range_pages. unfold PGSIZE in *. lia. }
    exists s'. split_and!.
    + done.
    + rewrite reverse_cons, <- app_assoc. done.
    + intros x [->|Hx]%elem_of_cons; [|by apply Hjunk].
      unfold load_page in *. rewrite Hmem' by done.
      rewrite Hpg. by rewrite (drop_app_length' _ _ 8) by (by rewrite le_bytes_length).
    + intros a Ha. apply not_elem_of_cons in Ha as [Ha1 Ha2].
      rewrite Hmem' by done. by apply Hmem1.
    + rewrite Hs', Hs1. by destruct s.
Qed.

Lemma freerange_loop_outcome pa_end n : ∀ p s fuel,
  p mod PGSIZE = 0 →
  (n ≠ 0%nat → p + PGSIZE * Z.of_nat n ≤ pa_end) →
  pa_end < p + PGSIZE * Z.of_nat n + PGSIZE →
  p + PGSIZE * Z.of_nat n + PGSIZE < 2 ^ 64 →
  (n < fuel)%nat →
  ((∀ x, x ∈ range_pages p n → kend M ≤ x < PHYSTOP M) →
   ∃ s', freerange_loop M fuel p pa_end s = Done tt s') ∧
  ((∃ x, x ∈ range_pages p n ∧ (x < kend M ∨ PHYSTOP M ≤ x)) →
   freerange_loop M fuel p pa_end s = Panic "kfree").
Proof.
  induction n as [|n IH]; intros p s fuel Hal Hle Hlt Hov Hfuel.
  - destruct fuel as [|fuel]; [lia|]. simpl.
    destruct (2 ^ 64 <=? p + PGSIZE) eqn:Ho; [lia|].
    destruct (p + PGSIZE <=? pa_end) eqn:Hcond; [lia|].
    split; [by exists s|]. by intros (x & ?%elem_of_nil & _).
  - destruct fuel as [|fuel]; [lia|]. simpl.
    destruct (2 ^ 64 <=? p + PGSIZE) eqn:Ho; [unfold PGSIZE in *; lia|].
    destruct (p + PGSIZE <=? pa_end) eqn:Hcond; [|unfold PGSIZE in *; lia].
    destruct (decide (kend M ≤ p < PHYSTOP M)) as [Hok|Hbad].
    + erewrite bind_run by (by apply kfree_run).
      match goal with |- context [freerange_loop M fuel _ _ ?s1] =>
        destruct (IH (p + PGSIZE) s1 fuel) as [IH1 IH2] end;
        try (unfold PGSIZE in *; lia).
      { unfold PGSIZE in *.
        rewrite <- Z.add_mod_idemp_r, Z.mod_same, Z.add_0_r by lia. done. }
      split.
      * intros Hall. apply IH1. intros x Hx. apply Hall. by right.
      * intros (x & [->|Hx]%elem_of_cons & Hout); [lia|]. apply IH2. by exists x.
    + unfold bind. rewrite kfree_panic by lia. split; [|done].
      intros Hall. exfalso. apply Hbad, Hall. left.
Qed.

Lemma whole_pages_spec (p pa_end : Z) :
  (whole_pages p pa_end ≠ 0%nat →
   p + PGSIZE * Z.of_nat (whole_pages p pa_end) ≤ pa_end) ∧
  pa_end < p + PGSIZE * Z.of_nat (whole_pages p pa_end) + PGSIZE.
Proof.
  unfold whole_pages, PGSIZE.
  pose proof (Z.div_mod (pa_end - p) 4096 ltac:(lia)) as Hd.
  pose proof (Z.mod_pos_bound (pa_end - p) 4096 ltac:(lia)) as Hm.
  destruct (decide (0 ≤ (pa_end - p) / 4096)) as [Hq|Hq].
  - rewrite Z2Nat.id by done. lia.
  - replace (Z.to_nat ((pa_end - p) / 4096)) with 0%nat by lia. lia.
Qed.

End Freerange.

(** X7.  [freerange] on a range inside the managed memory returns.  The
    whole pages of the range, from the first page boundary at or after
    [pa_start] on, are then on the free list in descending order, in
    front of the pages that were there; each is filled with the junk
    byte 1 behind its link, and nothing but the free list and these
    pages has changed. *)
Theorem freerange_frees_range (M : machine) (pa_start pa_end : Z)
    (s : kstate) (l : list Z) :
  0 < kend M ≤ pa_start → pa_start ≤ PHYSTOP M → pa_end ≤ PHYSTOP M →
  PHYSTOP M + 2 * PGSIZE < 2 ^ 64 →
  free_chain s (freelist s) l →
  (∀ x, x ∈ range_pages (PGROUNDUP pa_start)
                        (whole_pages (PGROUNDUP pa_start) pa_end) → x ∉ l) →
  ∃ s', freerange M pa_start pa_end s = Done tt s' ∧
        free_chain s' (freelist s')
          (reverse (range_pages (PGROUNDUP pa_start)
                                (whole_pages (PGROUNDUP pa_start) pa_end)) ++ l) ∧
        (∀ x, x ∈ range_pages (PGROUNDUP pa_start)
                              (whole_pages (PGROUNDUP pa_start) pa_end) →
              drop 8 (load_page s' x) = drop 8 (fill 1)) ∧
        (∀ a, a ∉ range_pages (PGROUNDUP pa_start)
                              (whole_pages (PGROUNDUP pa_start) pa_end) →
              mem s' !! a = mem s !! a) ∧
        s' = set_freelist (freelist s') (set_mem (mem s') s).
Proof.
  intros Hk Hs He Htop Hc Hnew. unfold freerange.
  destruct (PGROUNDUP_spec pa_start) as [Hal Hp]; [unfold PGSIZE in *; lia..|].
  destruct (whole_pages_spec (PGROUNDUP pa_start) pa_end) as [Hle Hlt].
  assert (PGROUNDUP pa_start
          + PGSIZE * Z.of_nat (whole_pages (PGROUNDUP pa_start) pa_end) + PGSIZE
          < 2 ^ 64) as Hov.
  { destruct (decide (whole_pages (PGROUNDUP pa_start) pa_end = 0%nat)) as [->|Hn].
    - unfold PGSIZE in *. lia.
    - specialize (Hle Hn). unfold PGSIZE in *. lia. }
  apply freerange_loop_run; [done|lia|lia|done|done|done|done| |done|done].
  unfold freerange_fuel, whole_pages. lia.
Qed.

(** From just above frame 0 to frame 3: frames 1 and 2. *)
Lemma freerange_frees_range_witness :
  ∃ s', freerange qemu (frame_pa 0 + 1) (frame_pa 3) boot_state = Done tt s' ∧
        free_chain s' (freelist s') [frame_pa 2; frame_pa 1].
Proof.
  destruct (freerange_frees_range qemu (frame_pa 0 + 1) (frame_pa 3) boot_state [])
    as (s' & Hrun & Hc & _).
  - split; [reflexivity|]. by vm_compute.
  - by vm_compute.
  - by vm_compute.
  - reflexivity.
  - reflexivity.
  - intros x _. apply not_elem_of_nil.
  - by exists s'.
Defined.

(** X8.  [freerange] panics (in [kfree]) exactly when one of the whole
    pages of its range lies outside the managed memory, and it returns
    when none does. *)
Theorem freerange_panics_iff_page_outside (M : machine) (pa_start pa_end : Z)
    (s : kstate) :
  0 ≤ pa_start → pa_start + 2 * PGSIZE < 2 ^ 64 → pa_end + PGSIZE < 2 ^ 64 →
  (freerange M pa_start pa_end s = Panic "kfree"
   ↔ ∃ x, x ∈ range_pages (PGROUNDUP pa_start)
                          (whole_pages (PGROUNDUP pa_start) pa_end) ∧
          (x < kend M ∨ PHYSTOP M ≤ x)) ∧
  ((∀ x, x ∈ range_pages (PGROUNDUP pa_start)
                         (whole_pages (PGROUNDUP pa_start) pa_end) →
         kend M ≤ x < PHYSTOP M) →
   ∃ s', freerange M pa_start pa_end s = Done tt s').
Proof.
  intros Hs Hov He. unfold freerange.
  destruct (PGROUNDUP_spec pa_start) as [Hal Hp]; [unfold PGSIZE in *; lia..|].
  destruct (whole_pages_spec (PGROUNDUP pa_start) pa_end) as [Hle Hlt].
  destruct (freerange_loop_outcome M pa_end
              (whole_pages (PGROUNDUP pa_start) pa_end) (PGROUNDUP pa_start) s
              (freerange_fuel (PGROUNDUP pa_start) pa_end)) as [Hok Hbad];
    try done.
  { destruct (decide (whole_pages (PGROUNDUP pa_start) pa_end = 0%nat)) as [->|Hn].
    - unfold PGSIZE in *. lia.
    - specialize (Hle Hn). unfold PGSIZE in *. lia. }
  { unfold freerange_fuel, whole_pages. lia. }
  split; [|done]. split; [|done].
  intros Hpanic.
  destruct (decide (Exists (λ x, x < kend M ∨ PHYSTOP M ≤ x)
                      (range_pages (PGROUNDUP pa_start)
                         (whole_pages (PGROUNDUP pa_start) pa_end))))
    as [Hex|Hall].
  - by apply Exists_exists in Hex.
  - exfalso. destruct Hok as (s' & Hrun); [|congruence].
    intros x Hx. apply not_Exists_Forall in Hall; [|apply _].
    rewrite Forall_forall in Hall. specialize (Hall x Hx). simpl in Hall. lia.
Qed.

(** A range that reaches one page beyond [PHYSTOP]. *)
Lemma freerange_panics_iff_page_outside_witness :
  freerange qemu (PHYSTOP qemu - PGSIZE) (PHYSTOP qemu + PGSIZE) boot_state
  = Panic "kfree".
Proof.
  apply (freerange_panics_iff_page_outside qemu (PHYSTOP qemu - PGSIZE)
           (PHYSTOP qemu + PGSIZE) boot_state);
    [by vm_compute|reflexivity|reflexivity|].
  exists (PHYSTOP qemu). split; [|right; reflexivity].
  vm_compute. right. left.
Defined.

(** ** [kinit] *)

Lemma swapout_empty_list (M : machine) (s : kstate) :
  page_lru_head s = None → swapout M s = Done (-1) (count_swapout s).
Proof.
  intros Hhd. unfold swapout. run_pure. run_pure.
  rewrite decide_True by done. done.
Qed.

Lemma kalloc_nothing_to_evict (M : machine) (s : kstate) :
  freelist s = 0 → page_lru_head s = None →
  kalloc M s
  = Done 0 (set_console (console s ++ ["kalloc: out of memory" +:+ newline])
              (count_swapout s)).
Proof.
  intros Hfl Hhd.
  by rewrite (kalloc_empty M s (-1) (count_swapout s) Hfl (swapout_empty_list M s Hhd)).
Qed.

(** X9.  [kinit] asks [kalloc] for the bitmap page before [freerange]
    has put any page on the free list.  Whenever the free list is empty
    when [kinit] starts, as it is at boot, [kalloc] has nothing to evict
    either (the LRU list has just been emptied), returns null, and
    [kinit] panics. *)
Theorem kinit_panics_on_empty_free_list (M : machine) (s : kstate) :
  freelist s = 0 →
  kinit M s = Panic "kinit: failed to allocate swap bitmap".
Proof.
  intros Hfl. unfold kinit. run_pure. run_pure.
  erewrite bind_run by (by apply kalloc_nothing_to_evict).
  done.
Qed.

(** [kinit] at boot. *)
Lemma kinit_panics_on_empty_free_list_witness :
  kinit qemu boot_state = Panic "kinit: failed to allocate swap bitmap".
Proof. apply (kinit_panics_on_empty_free_list qemu boot_state). reflexivity. Defined.

(** ** The swap bitmap, slot by slot *)

Lemma land_bit_zero (b k : Z) :
  0 ≤ k → Z.land b (Z.shiftl 1 k) = 0 ↔ Z.testbit b k = false.
Proof.
  intros Hk. split.
  - intros H. apply (f_equal (λ x, Z.testbit x k)) in H.
    rewrite Z.land_spec, testbit_pow2, Z.bits_0 in H by done.
    rewrite bool_decide_eq_true_2 in H by done. by rewrite andb_true_r in H.
  - intros H. apply Z.bits_inj'. intros i Hi.
    rewrite Z.land_spec, testbit_pow2, Z.bits_0 by done.
    case_bool_decide; [subst; by rewrite H|by rewrite andb_false_r].
Qed.

Lemma slot_bit_free s i : slot_bit s i = Some false ↔ slot_free s i.
Proof.
  pose proof (Z.mod_pos_bound i 8 ltac:(lia)) as Hm.
  unfold slot_bit, slot_free. split.
  - destruct (swap_bitmap s !! Z.to_nat (i / 8)) as [b|]; [|done].
    intros [= Hb]. exists b. split; [done|]. apply land_bit_zero; [lia|done].
  - intros (b & -> & Hb). simpl. f_equal. apply land_bit_zero in Hb; [done|lia].
Qed.

Lemma slot_bit_used s i b :
  swap_bitmap s !! Z.to_nat (i / 8) = Some b →
  Z.land b (Z.shiftl 1 (i mod 8)) ≠ 0 → slot_bit s i = Some true.
Proof.
  pose proof (Z.mod_pos_bound i 8 ltac:(lia)) as Hm.
  intros Hb Hne. unfold slot_bit. rewrite Hb. simpl. f_equal.
  destruct (Z.testbit b (i mod 8)) eqn:Ht; [done|].
  apply land_bit_zero in Ht; [done|lia].
Qed.

Lemma same_byte_other_bit (i j : Z) : i ≠ j → i / 8 = j / 8 → i mod 8 ≠ j mod 8.
Proof.
  intros Hne Hd Hm.
  pose proof (Z.div_mod i 8 ltac:(lia)). pose proof (Z.div_mod j 8 ltac:(lia)). lia.
Qed.

Lemma slot_bit_update s r v j b :
  0 ≤ r → 0 ≤ j → swap_bitmap s !! Z.to_nat (r / 8) = Some b →
  slot_bit (set_swap_bitmap (<[Z.to_nat (r / 8) := v mod 256]> (swap_bitmap s)) s) j
  = if decide (j / 8 = r / 8) then Some (Z.testbit v (j mod 8)) else slot_bit s j.
Proof.
  intros Hr Hj Hb. pose proof (lookup_lt_Some _ _ _ Hb) as Hlt.
  pose proof (Z.mod_pos_bound j 8 ltac:(lia)) as Hm.
  unfold slot_bit. simpl_state.
  destruct (decide (j / 8 = r / 8)) as [->|Hne].
  - rewrite list_lookup_insert_eq by done. simpl. f_equal.
    change 256 with (2 ^ 8). apply Z.mod_pow2_bits_low. lia.
  - rewrite list_lookup_insert_ne; [done|].
    intros Heq. apply Z2Nat.inj in Heq; [done|apply Z.div_pos; lia..].
Qed.

(** The state after slot [r] has been marked. *)
Lemma slot_bit_marked s r b j :
  0 ≤ r → 0 ≤ j → swap_bitmap s !! Z.to_nat (r / 8) = Some b →
  slot_bit (set_swap_bitmap
              (<[Z.to_nat (r / 8) := Z.lor b (Z.shiftl 1 (r mod 8)) mod 256]>
                 (swap_bitmap s)) s) j
  = if decide (j = r) then Some true else slot_bit s j.
Proof.
  intros Hr Hj Hb. pose proof (Z.mod_pos_bound r 8 ltac:(lia)) as Hm.
  rewrite (slot_bit_update s r _ j b) by done.
  destruct (decide (j = r)) as [->|Hne].
  - rewrite decide_True by done. f_equal.
    rewrite Z.lor_spec, testbit_pow2 by lia.
    rewrite bool_decide_eq_true_2 by done. apply orb_true_r.
  - destruct (decide (j / 8 = r / 8)) as [Hd|]; [|done].
    unfold slot_bit. rewrite Hd, Hb. simpl. f_equal.
    rewrite Z.lor_spec, testbit_pow2 by lia.
    rewrite bool_decide_eq_false_2 by (by apply same_byte_other_bit).
    apply orb_false_r.
Qed.

(** The state after slot [r] has been cleared. *)
Lemma slot_bit_cleared s r b j :
  0 ≤ r → 0 ≤ j → swap_bitmap s !! Z.to_nat (r / 8) = Some b →
  slot_bit (set_swap_bitmap
              (<[Z.to_nat (r / 8) := clear_bits b (Z.shiftl 1 (r mod 8)) mod 256]>
                 (swap_bitmap s)) s) j
  = if decide (j = r) then Some false else slot_bit s j.
Proof.
  intros Hr Hj Hb. pose proof (Z.mod_pos_bound r 8 ltac:(lia)) as Hm.
  pose proof (Z.mod_pos_bound j 8 ltac:(lia)) as Hm'.
  rewrite (slot_bit_update s r _ j b) by done.
  unfold clear_bits.
  destruct (decide (j = r)) as [->|Hne].
  - rewrite decide_True by done. f_equal.
    rewrite Z.land_spec, Z.lnot_spec, testbit_pow2 by lia.
    rewrite bool_decide_eq_true_2 by done. apply andb_false_r.
  - destruct (decide (j / 8 = r / 8)) as [Hd|]; [|done].
    unfold slot_bit. rewrite Hd, Hb. simpl. f_equal.
    rewrite Z.land_spec, Z.lnot_spec, testbit_pow2 by lia.
    rewrite bool_decide_eq_false_2 by (by apply same_byte_other_bit).
    apply andb_true_r.
Qed.

Lemma swap_alloc_from_least n : ∀ i s r s',
  0 ≤ i → swap_alloc_from n i s = Done r s' →
  ∀ k, i ≤ k < (if decide (r = -1) then i + Z.of_nat n else r) →
       slot_bit s k = Some true.
Proof.
  induction n as [|n IH]; intros i s r s' Hi Hrun k Hk; simpl in Hrun.
  - unfold ret in Hrun. injection Hrun as <- <-. rewrite decide_True in Hk by done. lia.
  - unfold bind at 1 in Hrun. unfold bitmap_get in Hrun.
    destruct (swap_bitmap s !! Z.to_nat (i / 8)) as [b|] eqn:Hb; [|done].
    destruct (Z.land b (Z.shiftl 1 (i mod 8)) =? 0) eqn:Hbit.
    + rewrite (bind_run _ _ _ _ _ (bitmap_set_run _ _ _ _ Hb)) in Hrun.
      unfold ret in Hrun. injection Hrun as <- <-.
      rewrite decide_False in Hk by lia. lia.
    + apply Z.eqb_neq in Hbit.
      destruct (decide (k = i)) as [->|Hne]; [by eapply slot_bit_used|].
      apply (IH (i + 1) s r s'); [lia|done|].
      destruct (decide (r = -1)); lia.
Qed.

Lemma swap_alloc_from_full n : ∀ i s,
  0 ≤ i →
  (∀ k, i ≤ k < i + Z.of_nat n → slot_bit s k = Some true) →
  swap_alloc_from n i s = Done (-1) s.
Proof.
  induction n as [|n IH]; intros i s Hi Hall; simpl; [done|].
  pose proof (Z.mod_pos_bound i 8 ltac:(lia)) as Hm.
  pose proof (Hall i ltac:(lia)) as Hbit. unfold slot_bit in Hbit.
  destruct (swap_bitmap s !! Z.to_nat (i / 8)) as [b|] eqn:Hb; [|done].
  injection Hbit as Hbit.
  rewrite (bind_run _ _ _ _ _ (bitmap_get_run _ _ _ Hb)).
  destruct (Z.land b (Z.shiftl 1 (i mod 8)) =? 0) eqn:Hz.
  - apply Z.eqb_eq, land_bit_zero in Hz; [congruence|lia].
  - apply IH; [lia|]. intros k Hk. apply Hall. lia.
Qed.



(** X11.  [swap_alloc] returns -1 exactly when every one of the
    [SWAP_PAGES] slots is in use, and then it has changed nothing. *)
Theorem swap_alloc_fails_iff_full (M : machine) (s : kstate) :
  (swap_alloc M s = Done (-1) s
   ↔ ∀ i, 0 ≤ i < SWAP_PAGES M → slot_bit s i = Some true) ∧
  (∀ s', swap_alloc M s = Done (-1) s' → s' = s).
Proof.
  unfold swap_alloc. split; [split|].
  - intros Hrun i Hi.
    apply (swap_alloc_from_least _ 0 s (-1) s ltac:(lia) Hrun).
    rewrite decide_True by done. lia.
  - intros Hall. apply swap_alloc_from_full; [lia|]. intros k Hk. apply Hall. lia.
  - intros s' Hrun.
    destruct (swap_alloc_from_spec _ _ _ _ _ Hrun) as [[_ ->]|[Hr _]]; [done|lia].
Qed.

(** X12.  [swap_free] ignores a slot number outside the range of the
    slots.  For a slot in range it clears the bit of that slot and of no
    other, touches nothing outside the bitmap, and the next [swap_alloc]
    succeeds with that slot or a lower one. *)
Theorem swap_free_releases (M : machine) (s : kstate) (r : Z) :
  (r < 0 ∨ SWAP_PAGES M ≤ r → swap_free M r s = Done tt s) ∧
  (0 ≤ r < SWAP_PAGES M → is_Some (slot_bit s r) →
   ∃ s', swap_free M r s = Done tt s' ∧
         slot_bit s' r = Some false ∧
         (∀ i, 0 ≤ i → i ≠ r → slot_bit s' i = slot_bit s i) ∧
         length (swap_bitmap s') = length (swap_bitmap s) ∧
         same_but_bitmap s s' ∧
         ∃ a s'', swap_alloc M s' = Done a s'' ∧ 0 ≤ a ≤ r).
Proof.
  unfold swap_free. split.
  - intros Hout.
    replace ((r <? 0) || (r >=? SWAP_PAGES M)) with true; [done|].
    symmetry. apply orb_true_iff. rewrite Z.ltb_lt, Z.geb_leb, Z.leb_le. lia.
  - intros Hr [x Hx].
    replace ((r <? 0) || (r >=? SWAP_PAGES M)) with false.
    2:{ symmetry. apply orb_false_iff. rewrite Z.ltb_ge, Z.geb_leb, Z.leb_gt. lia. }
    unfold slot_bit in Hx.
    destruct (swap_bitmap s !! Z.to_nat (r / 8)) as [b|] eqn:Hb; [|done].
    rewrite (bind_run _ _ _ _ _ (bitmap_get_run _ _ _ Hb)).
    rewrite (bitmap_set_run _ _ _ _ Hb).
    eexists. split; [done|].
    assert (slot_bit (set_swap_bitmap
                        (<[Z.to_nat (r / 8)
                           := clear_bits b (Z.shiftl 1 (r mod 8)) mod 256]>
                           (swap_bitmap s)) s) r = Some false) as Hfree.
    { rewrite slot_bit_cleared by (done || lia). by rewrite decide_True. }
    split_and!.
    + done.
    + intros i Hi Hne. rewrite slot_bit_cleared by (done || lia).
      by rewrite decide_False.
    + simpl_state. by rewrite length_insert.
    + done.
    + destruct (swap_alloc_from_finds (Z.to_nat (SWAP_PAGES M)) 0 _ r
                  ltac:(lia) ltac:(lia) (proj1 (slot_bit_free _ _) Hfree))
        as (a & b' & Ha & _ & _ & Hrun).
      by eexists _, _.
Qed.

(** Slot 7000 is out of range; slot 12 of the full bitmap. *)
Lemma swap_free_releases_witness :
  swap_free qemu 7000 no_slot_left = Done tt no_slot_left ∧
  ∃ s', swap_free qemu 12 no_slot_left = Done tt s' ∧
        slot_bit s' 12 = Some false ∧
        ∃ a s'', swap_alloc qemu s' = Done a s'' ∧ 0 ≤ a ≤ 12.
Proof.
  split.
  - apply (swap_free_releases qemu no_slot_left 7000). right. reflexivity.
  - destruct (proj2 (swap_free_releases qemu no_slot_left 12))
      as (s' & Hrun & Hbit & _ & _ & _ & Halloc).
    + split; [lia|reflexivity].
    + by eexists.
    + by exists s'.
Defined.

(** X13.  Allocating a slot and freeing it again restores the state:
    whenever a slot is free, [swap_alloc] followed by [swap_free] of its
    result leaves the bitmap, and the state, as they were. *)
Theorem swap_alloc_free_round_trip (M : machine) (s : kstate) (j : Z) :
  bitmap_bytes s → 0 ≤ j < SWAP_PAGES M → slot_bit s j = Some false →
  ∃ r, 0 ≤ r ≤ j ∧
       (do r <- swap_alloc M; run swap_free M r; ret r) s = Done r s.
Proof.
  intros Hbytes Hj Hfree.
  destruct (swap_alloc_from_finds (Z.to_nat (SWAP_PAGES M)) 0 s j)
    as (r & b & Hr & Hb & Hbit & Hrun); [lia|lia|by apply slot_bit_free|].
  exists r. split; [done|].
  unfold swap_alloc. erewrite bind_run by exact Hrun.
  erewrite bind_run by (apply swap_free_undoes; (done || lia)).
  done.
Qed.

(** On the empty bitmap. *)
Lemma swap_alloc_free_round_trip_witness :
  ∃ r, 0 ≤ r ≤ 5 ∧
       (do r <- swap_alloc qemu; run swap_free qemu r; ret r) boot_state
       = Done r boot_state.
Proof.
  apply (swap_alloc_free_round_trip qemu boot_state 5).
  - by apply Forall_replicate.
  - split; [lia|reflexivity].
  - reflexivity.
Defined.

(** X14.  [swap_alloc] never hands out a slot twice: a second call
    returns a higher slot than the first, or -1. *)
Theorem swap_alloc_never_twice (M : machine) (s : kstate) (j : Z) :
  0 ≤ j < SWAP_PAGES M → slot_bit s j = Some false →
  ∃ a s1, swap_alloc M s = Done a s1 ∧ 0 ≤ a ≤ j ∧
          ∀ b s2, swap_alloc M s1 = Done b s2 → b = -1 ∨ a < b.
Proof.
  intros Hj Hfree.
  destruct (swap_alloc_from_finds (Z.to_nat (SWAP_PAGES M)) 0 s j)
    as (a & x & Ha & Hx & Hbit & Hrun); [lia|lia|by apply slot_bit_free|].
  eexists a, _. split; [exact Hrun|]. split; [done|].
  intros b s2 Hrun2.
  destruct (decide (b = -1)) as [|Hb]; [by left|]. right.
  destruct (swap_alloc_from_spec _ _ _ _ _ Hrun2) as [[? _]|[Hrange Hex]]; [done|].
  destruct Hex as (y & Hy & Hybit & _).
  assert (slot_bit (set_swap_bitmap
                      (<[Z.to_nat (a / 8) := Z.lor x (Z.shiftl 1 (a mod 8)) mod 256]>
                         (swap_bitmap s)) s) b = Some false) as Hbfree.
  { apply slot_bit_free. by exists y. }
  rewrite slot_bit_marked in Hbfree by (done || lia).
  destruct (decide (b = a)) as [|Hne]; [done|].
  destruct (decide (a < b)) as [|Hge]; [done|]. exfalso.
  pose proof (swap_alloc_from_least _ 0 s a _ ltac:(lia) Hrun b) as Hleast.
  rewrite decide_False in Hleast by lia.
  rewrite Hleast in Hbfree by lia. done.
Qed.

(** Two calls on the empty bitmap. *)
Lemma swap_alloc_never_twice_witness :
  ∃ a s1, swap_alloc qemu boot_state = Done a s1 ∧ 0 ≤ a ≤ 3 ∧
          ∃ b s2, swap_alloc qemu s1 = Done b s2 ∧ (b = -1 ∨ a < b).
Proof.
  destruct (swap_alloc_never_twice qemu boot_state 3) as (a & s1 & Hrun & Ha & Hnext).
  - split; [lia|reflexivity].
  - reflexivity.
  - exists a, s1. split; [done|]. split; [done|].
    destruct (swap_alloc_from_total (Z.to_nat (SWAP_PAGES qemu)) 0 s1)
      as (b & s2 & Hrun2); [lia| |].
    + destruct (swap_alloc_from_spec _ _ _ _ _ Hrun) as [[? ->]|(_ & x & _ & _ & ->)];
        simpl_state; [|rewrite length_insert]; by vm_compute.
    + exists b, s2. split; [done|]. by eapply Hnext.
Defined.

(** ** How the list operations compose *)

(** The table, the head and the count are determined by the list of
    enrolled frames and the owner fields. *)
Lemma lru_state_eq s s1 s2 l :
  lru_frame s s1 → lru_frame s s2 → lru_inv s1 l → lru_inv s2 l → s1 = s2.
Proof.
  intros (Hf1 & Hm1 & Hb1 & Hp1 & Hd1 & Hc1 & Hn1 & Hlen1 & Ho1)
         (Hf2 & Hm2 & Hb2 & Hp2 & Hd2 & Hc2 & Hn2 & Hlen2 & Ho2)
         [(Hnd & Hhd1 & Hl1) Hnum1 _ Hun1] [(_ & Hhd2 & Hl2) Hnum2 _ Hun2].
  assert (pages s1 = pages s2) as Hpages.
  { apply list_eq. intros i.
    destruct (decide (i < length (pages s1))%nat) as [Hi|Hi].
    2:{ rewrite !lookup_ge_None_2; [done|lia..]. }
    destruct (lookup_lt_is_Some_2 (pages s1) i Hi) as (p1 & Hp1i).
    destruct (lookup_lt_is_Some_2 (pages s2) i ltac:(lia)) as (p2 & Hp2i).
    rewrite Hp1i, Hp2i. f_equal.
    pose proof (Ho1 i) as Ho1i. pose proof (Ho2 i) as Ho2i.
    rewrite <- Ho2i in Ho1i. unfold owner_of in Ho1i.
    rewrite Hp1i, Hp2i in Ho1i. simpl in Ho1i. injection Ho1i as Hpt Hva.
    assert (next p1 = next p2 ∧ prev p1 = prev p2) as [Hnx Hpv].
    { destruct (decide (i ∈ l)) as [Hin|Hout].
      - destruct (adj_succ _ _ Hin) as (b & Hb). destruct (adj_pred _ _ Hin) as (a & Ha).
        destruct (Hl1 _ _ Hb) as [Hn1' _]. destruct (Hl2 _ _ Hb) as [Hn2' _].
        destruct (Hl1 _ _ Ha) as [_ Hv1']. destruct (Hl2 _ _ Ha) as [_ Hv2'].
        unfold next_of, prev_of in *.
        rewrite Hp1i in Hn1', Hv1'. rewrite Hp2i in Hn2', Hv2'. simpl in *.
        split; congruence.
      - destruct (Hun1 i Hout Hi) as [Hn1' Hv1'].
        destruct (Hun2 i Hout ltac:(lia)) as [Hn2' Hv2'].
        unfold next_of, prev_of in *.
        rewrite Hp1i in Hn1', Hv1'. rewrite Hp2i in Hn2', Hv2'. simpl in *.
        split; congruence. }
    destruct p1, p2; simpl in *; congruence. }
  destruct s1, s2; simpl in *; subst. f_equal; congruence.
Qed.

Lemma delete_last_snoc (l : list nat) y : delete (length l) (l ++ [y]) = l.
Proof.
  induction l as [|x l IH]; [done|]. simpl. by rewrite IH.
Qed.

Lemma delete_last (l : list nat) y :
  last l = Some y → delete (length l - 1)%nat l ++ [y] = l.
Proof.
  intros Hlast. apply last_Some in Hlast as (l' & ->).
  rewrite length_app. simpl.
  replace (length l' + 1 - 1)%nat with (length l') by lia.
  by rewrite delete_last_snoc.
Qed.

(** X15.  On an enrolled frame [lru_move_to_tail_locked] does what
    [lru_remove] followed by [lru_add] does: both return, in the same
    state. *)
Theorem lru_move_to_tail_is_remove_then_add (s : kstate) (l : list nat) (y : nat) :
  lru_inv s l → y ∈ l →
  ∃ s', lru_move_to_tail_locked (Some y) s = Done tt s' ∧
        (run lru_remove (Some y); lru_add (Some y)) s = Done tt s'.
Proof.
  intros Hinv Hy. apply list_elem_of_lookup in Hy as (k & Hk).
  destruct (lru_move_to_tail_inv s l k y Hinv Hk) as (s1 & Hrun1 & Hinv1 & Hfr1).
  destruct (lru_remove_inv s l k y Hinv Hk) as (s2 & Hrun2 & Hinv2 & Hfr2).
  destruct (lru_add_inv s2 (delete k l) y Hinv2) as (s3 & Hrun3 & Hinv3 & Hfr3).
  { apply not_elem_of_delete; [by destruct Hinv as [(? & _) _ _ _]|done]. }
  { destruct Hfr2 as (_ & _ & _ & _ & _ & _ & _ & -> & _).
    eapply lru_inv_lt; [done|]. by eapply list_elem_of_lookup_2. }
  exists s1. split; [done|].
  erewrite bind_run by exact Hrun2. rewrite Hrun3. f_equal.
  eapply lru_state_eq; [|done|done|done].
  by eapply lru_frame_trans.
Qed.

(** Frame 1 of the ring 0, 1, 2. *)
Lemma lru_move_to_tail_is_remove_then_add_witness :
  ∃ s', lru_move_to_tail_locked (Some 1%nat) all_accessed = Done tt s' ∧
        (run lru_remove (Some 1%nat); lru_add (Some 1%nat)) all_accessed
        = Done tt s'.
Proof.
  apply (lru_move_to_tail_is_remove_then_add all_accessed [0; 1; 2]%nat 1).
  - apply three_frames_inv.
  - compute_done.
Defined.

(** X16.  [lru_add] of a frame that is not enrolled followed by
    [lru_remove] of it restores the state. *)
Theorem lru_add_remove_round_trip (s : kstate) (l : list nat) (y : nat) :
  lru_inv s l → y ∉ l → (y < length (pages s))%nat →
  (run lru_add (Some y); lru_remove (Some y)) s = Done tt s.
Proof.
  intros Hinv Hy Hlt.
  destruct (lru_add_inv s l y Hinv Hy Hlt) as (s1 & Hrun1 & Hinv1 & Hfr1).
  destruct (lru_remove_inv s1 (l ++ [y]) (length l) y Hinv1)
    as (s2 & Hrun2 & Hinv2 & Hfr2).
  { by rewrite lookup_app_r, Nat.sub_diag by lia. }
  erewrite bind_run by exact Hrun1. rewrite Hrun2. f_equal.
  rewrite delete_last_snoc in Hinv2.
  eapply (lru_state_eq s); [|apply lru_frame_refl|done|done].
  by eapply lru_frame_trans.
Qed.

(** Frame 3 beside the ring 0, 1, 2. *)
Lemma lru_add_remove_round_trip_witness :
  (run lru_add (Some 3%nat); lru_remove (Some 3%nat)) all_accessed
  = Done tt all_accessed.
Proof.
  apply (lru_add_remove_round_trip all_accessed [0; 1; 2]%nat 3).
  - apply three_frames_inv.
  - compute_done.
  - simpl. lia.
Defined.

(** X17.  Moving the tail of the list to the tail changes nothing. *)
Theorem lru_move_to_tail_of_tail (s : kstate) (l : list nat) (y : nat) :
  lru_inv s l → last l = Some y →
  lru_move_to_tail_locked (Some y) s = Done tt s.
Proof.
  intros Hinv Hlast.
  assert (l !! (length l - 1)%nat = Some y) as Hk.
  { rewrite last_lookup in Hlast.
    by replace (length l - 1)%nat with (pred (length l)) by lia. }
  destruct (lru_move_to_tail_inv s l _ y Hinv Hk) as (s1 & Hrun1 & Hinv1 & Hfr1).
  rewrite Hrun1. f_equal. rewrite delete_last in Hinv1 by done.
  eapply (lru_state_eq s); [done|apply lru_frame_refl|done|done].
Qed.

(** Frame 2, the tail of the ring 0, 1, 2. *)
Lemma lru_move_to_tail_of_tail_witness :
  lru_move_to_tail_locked (Some 2%nat) all_accessed = Done tt all_accessed.
Proof.
  apply (lru_move_to_tail_of_tail all_accessed [0; 1; 2]%nat 2).
  - apply three_frames_inv.
  - reflexivity.
Defined.

Lemma bind_fault {A B} (m : K A) (k : A → K B) s :
  m s = Fault → bind m k s = Fault.
Proof. unfold bind. by intros ->. Qed.

(** X18.  [lru_remove] needs an enrolled frame: on a frame of the table
    that is not on the list (its links are null) it follows the null
    [prev] pointer, which is undefined behaviour. *)
Theorem lru_remove_needs_enrolled_frame (s : kstate) (l : list nat) (y : nat) :
  lru_inv s l → y ∉ l → (y < length (pages s))%nat →
  lru_remove (Some y) s = Fault.
Proof.
  intros Hinv Hy Hlt.
  destruct (inv_unlinked _ _ Hinv y Hy Hlt) as [Hn Hp].
  unfold lru_remove.
  erewrite bind_run by (by apply get_next_run).
  rewrite decide_False by done.
  apply bind_fault. unfold unlink.
  erewrite bind_run by (by apply get_prev_run).
  erewrite bind_run by (by apply get_next_run).
  done.
Qed.

(** Frame 3 is not on the ring 0, 1, 2. *)
Lemma lru_remove_needs_enrolled_frame_witness :
  lru_remove (Some 3%nat) all_accessed = Fault.
Proof.
  apply (lru_remove_needs_enrolled_frame all_accessed [0; 1; 2]%nat 3).
  - apply three_frames_inv.
  - compute_done.
  - simpl. lia.
Defined.

(** ** The clock scan behind stale frames *)

Section FirstLive.
Context (M : machine).

(** [n] stale frames from position [k] on are passed over. *)
Lemma scan_passes_stale s l n : ∀ k c fuel,
  lru_inv s l → l !! k = Some c → (k + n ≤ length l)%nat →
  (∀ i x, (k ≤ i < k + n)%nat → l !! i = Some x → probe M s x = Some Stale) →
  scan_loop M (n + fuel) (Some c) (Z.of_nat k) s
  = match l !! (k + n)%nat with
    | Some c' => scan_loop M fuel (Some c') (Z.of_nat (k + n)) s
    | None => Done None s
    end.
Proof.
  induction n as [|n IH]; intros k c fuel Hinv Hk Hlen Hstale.
  - rewrite Nat.add_0_r, Hk. done.
  - change (S n + fuel)%nat with (S (n + fuel)).
    rewrite scan_loop_step, (Hstale k c) by (done || lia).
    rewrite (scan_skip_run _ _ _ _ _ Hinv Hk).
    replace (k + S n)%nat with (S k + n)%nat by lia.
    destruct (l !! S k) as [c'|] eqn:Hnext.
    + apply IH; [done|done|lia|]. intros i x Hi. apply Hstale. lia.
    + apply lookup_ge_None in Hnext.
      rewrite lookup_ge_None_2 by lia. done.
Qed.

Lemma scan_fuel_length s l : lru_inv s l → scan_fuel s = S (length l).
Proof. intros Hinv. unfold scan_fuel. rewrite (inv_num _ _ Hinv). lia. Qed.

Lemma lru_inv_head s l c : lru_inv s l → l !! 0%nat = Some c → page_lru_head s = Some c.
Proof.
  intros [(_ & -> & _) _ _ _] Hc. by rewrite head_lookup.
Qed.

End FirstLive.

(** The frame behind the stale ones is the victim if its Accessed
    flag is clear. *)
Lemma scan_victim_behind_stale (M : machine) (s : kstate) (l : list nat)
    (d c : nat) :
  lru_inv s l → l !! d = Some c →
  (∀ i x, (i < d)%nat → l !! i = Some x → probe M s x = Some Stale) →
  probe M s c = Some Victim →
  scan_loop M (scan_fuel s) (page_lru_head s) 0 s = Done (Some c) s.
Proof.
  intros Hinv Hd Hstale Hv.
  pose proof (lookup_lt_Some _ _ _ Hd) as Hdlt.
  destruct l as [|h t] eqn:Hl; [done|]. rewrite <- Hl in *.
  assert (l !! 0%nat = Some h) as Hh by (by rewrite Hl).
  rewrite (lru_inv_head s l h Hinv Hh), (scan_fuel_length s l Hinv).
  replace (S (length l)) with (d + S (length l - d))%nat by lia.
  pose proof (scan_passes_stale M s l d 0 h (S (length l - d)) Hinv Hh) as Hpass.
  change (Z.of_nat 0) with 0 in Hpass. rewrite Hpass.
  2:{ lia. }
  2:{ intros i x Hi. apply Hstale. lia. }
  rewrite Nat.add_0_l, Hd. by rewrite scan_loop_step, Hv.
Qed.

(** X19.  On a well-formed ring the clock scan of [swapout] is decided
    by the first frame, from the head on, that is not stale (owner and
    address set, entry present and Valid).  If there is none, the scan
    finds no victim and changes nothing.  If its Accessed flag is clear,
    it is the victim and nothing has changed.  If its Accessed flag is
    set, the flag is cleared, the frame moves to the tail and the scan
    ends without a victim. *)
Theorem scan_decided_by_first_live_frame (M : machine) (s : kstate)
    (l : list nat) :
  lru_inv s l → l ≠ [] →
  ((∀ x, x ∈ l → probe M s x = Some Stale) →
   scan_loop M (scan_fuel s) (page_lru_head s) 0 s = Done None s) ∧
  (∀ d c,
      l !! d = Some c →
      (∀ i x, (i < d)%nat → l !! i = Some x → probe M s x = Some Stale) →
      (probe M s c = Some Victim →
       scan_loop M (scan_fuel s) (page_lru_head s) 0 s = Done (Some c) s) ∧
      (∀ pte e, probe M s c = Some (Referenced pte e) →
         ∃ s', scan_loop M (scan_fuel s) (page_lru_head s) 0 s = Done None s' ∧
               ptes s' = <[pte := clear_bits e PTE_A]> (ptes s) ∧
               lru_inv s' (delete d l ++ [c]))).
Proof.
  intros Hinv Hne.
  destruct l as [|h t] eqn:Hl; [done|]. rewrite <- Hl in *.
  assert (l !! 0%nat = Some h) as Hh by (by rewrite Hl).
  rewrite (lru_inv_head s l h Hinv Hh), (scan_fuel_length s l Hinv).
  split.
  - intros Hall.
    replace (S (length l)) with (length l + 1)%nat by lia.
    pose proof (scan_passes_stale M s l (length l) 0 h 1 Hinv Hh) as Hpass.
    change (Z.of_nat 0) with 0 in Hpass. rewrite Hpass.
    + by rewrite lookup_ge_None_2 by lia.
    + lia.
    + intros i x _ Hx. apply Hall. by eapply list_elem_of_lookup_2.
  - intros d c Hd Hstale.
    pose proof (lookup_lt_Some _ _ _ Hd) as Hdlt.
    replace (S (length l)) with (d + S (length l - d))%nat by lia.
    pose proof (scan_passes_stale M s l d 0 h (S (length l - d)) Hinv Hh) as Hpass.
    change (Z.of_nat 0) with 0 in Hpass. rewrite Hpass.
    2:{ lia. }
    2:{ intros i x Hi. apply Hstale. lia. }
    rewrite Nat.add_0_l, Hd. split.
    + intros Hv. by rewrite scan_loop_step, Hv.
    + intros pte e Href.
      destruct (scan_second_chance M s l d c pte e Hinv Hd Href)
        as (s' & Hrun & Hinv' & Hfr).
      exists s'. split; [apply Hrun|]. split; [|done].
      by destruct Hfr as (_ & _ & _ & -> & _).
Qed.

(** Frame 0 is not Valid, frame 1 is Valid and not Accessed. *)
Lemma scan_decided_by_first_live_frame_witness :
  scan_loop qemu (scan_fuel (three_frames 0x16 0x17 0x57))
            (page_lru_head (three_frames 0x16 0x17 0x57)) 0
            (three_frames 0x16 0x17 0x57)
  = Done (Some 1%nat) (three_frames 0x16 0x17 0x57).
Proof.
  apply (proj2 (scan_decided_by_first_live_frame qemu (three_frames 0x16 0x17 0x57)
                  [0; 1; 2]%nat (three_frames_inv _ _ _) ltac:(done)) 1%nat 1%nat).
  - reflexivity.
  - intros i x Hi Hx. assert (i = 0%nat) as -> by lia.
    injection Hx as <-. reflexivity.
  - reflexivity.
Defined.

(** X20.  Eviction makes room: with an empty free list, a free slot and
    a first live frame whose Accessed flag is clear, [kalloc] returns
    the physical page of that frame, filled with the junk byte 5.  The
    old content of the page is in the slot, the frame has left the LRU
    list, the free list is empty again, [swapout] was called once and
    nothing was printed. *)
Theorem kalloc_reclaims_first_evictable_frame (M : machine) (s : kstate)
    (l : list nat) (d v : nat) (pt va e j : Z) :
  lru_inv s l → freelist s = 0 → 0 < kend M →
  l !! d = Some v →
  (∀ i x, (i < d)%nat → l !! i = Some x → probe M s x = Some Stale) →
  probe M s v = Some Victim →
  owner_of (pages s) v = Some (pt, va) →
  default 0 (ptes s !! walk M pt va) = e →
  kend M ≤ PTE2PA e < PHYSTOP M →
  0 ≤ j < SWAP_PAGES M → slot_free s j → SWAP_PAGES M * 2 ^ 10 ≤ INT_MAX →
  ∃ blk s',
    kalloc M s = Done (PTE2PA e) s' ∧
    0 ≤ blk ≤ j ∧ slot_free s blk ∧
    swapdisk s' = <[blk := load_page s (PTE2PA e)]> (swapdisk s) ∧
    load_page s' (PTE2PA e) = fill 5 ∧
    freelist s' = 0 ∧
    lru_inv s' (delete d l) ∧
    console s' = console s ∧ swapouts s' = S (swapouts s).
Proof.
  intros Hinv Hfl Hk Hd Hstale Hvictim Hown He Hrange Hj Hfree Hshl.
  assert (l ≠ []) as Hne by (intros ->; done).
  assert (walk M pt va ≠ 0 ∧ Z.land e PTE_V ≠ 0) as [Hw Hvalid].
  { unfold probe, owner_of in *.
    destruct (pages s !! v) as [p|]; [|done]. simpl in Hown.
    injection Hown as Hpt Hva. rewrite Hpt, Hva in Hvictim.
    destruct ((pt =? 0) || (va =? 0)); [done|].
    destruct (walk M pt va =? 0) eqn:Hw; [done|]. rewrite He in Hvictim.
    destruct (Z.land e PTE_V =? 0) eqn:Hv; [done|].
    split; by apply Z.eqb_neq. }
  pose proof (scan_victim_behind_stale M (count_swapout s) l d v
                (lru_inv_set_swapouts _ _ _ Hinv) Hd Hstale Hvictim) as Hscan.
  destruct (swapout_victim_success M (count_swapout s) l d v pt va e j)
    as (blk & b & s1 & Hrun & Hblk & Hb & Hbit & Hbm & Hptes & Hdisk & Hfl1 & Hmem
        & Hinv1 & _ & _ & Hcon & Hcnt);
    try done; [by apply lru_inv_set_swapouts|].
  assert (swapout M s = Done 0 s1) as Hout.
  { unfold swapout. run_pure. run_pure.
    destruct l as [|h t] eqn:Hl; [done|].
    rewrite (lru_inv_head s (h :: t) h Hinv eq_refl) in *.
    rewrite decide_False by done. run_pure.
    erewrite bind_run by exact Hscan.
    by rewrite decide_False. }
  assert (PTE2PA e ≠ 0) as Hnz by lia.
  exists blk, (kalloc_finish (PTE2PA e) (set_freelist (run_next s1 (PTE2PA e)) s1)).
  rewrite (kalloc_empty M s 0 s1 Hfl Hout), Hfl1.
  replace (0 <? 0) with false by done.
  apply Z.eqb_neq in Hnz as Hnz'. rewrite Hnz'.
  split; [done|]. rewrite kalloc_finish_nonzero by done. simpl_state.
  split_and!; try done; try lia.
  - by exists b.
  - unfold load_page. simpl_state. by rewrite lookup_insert_eq.
  - erewrite run_next_at by (rewrite Hmem; apply lookup_insert_eq).
    rewrite le_value_link. simpl_state. by rewrite Hfl.
  - eapply lru_inv_ext; [..|exact Hinv1]; done.
Qed.

(** Frame 0 is not Valid, frame 1 is evicted. *)
Lemma kalloc_reclaims_first_evictable_frame_witness :
  ∃ blk s',
    kalloc qemu (three_frames 0x16 0x17 0x57) = Done (frame_pa 1) s' ∧
    0 ≤ blk ≤ 0 ∧
    load_page s' (frame_pa 1) = fill 5 ∧
    lru_inv s' [0; 2]%nat.
Proof.
  destruct (kalloc_reclaims_first_evictable_frame qemu (three_frames 0x16 0x17 0x57)
              [0; 1; 2]%nat 1 1 leaf_table 0x2000 (resident 1 0x17) 0)
    as (blk & s' & Hrun & Hblk & _ & _ & Hpage & _ & Hinv & _).
  - apply three_frames_inv.
  - reflexivity.
  - reflexivity.
  - reflexivity.
  - intros i x Hi Hx. assert (i = 0%nat) as -> by lia.
    injection Hx as <-. reflexivity.
  - reflexivity.
  - reflexivity.
  - reflexivity.
  - split; [by vm_compute|reflexivity].
  - split; [lia|reflexivity].
  - exists 0. split; reflexivity.
  - by vm_compute.
  - exists blk, s'. split_and!; try done; lia.
Defined.

(** ** What a computation leaves alone *)

Lemma read_pte_value a s e s' :
  read_pte a s = Done e s' → a ≠ 0 ∧ e = default 0 (ptes s !! a) ∧ s' = s.
Proof.
  unfold read_pte. destruct (a =? 0) eqn:Ha; [done|].
  apply Z.eqb_neq in Ha. by intros [= <- <-].
Qed.

Section Respects.
Context (R : kstate → kstate → Prop).
Context (Rrefl : ∀ s, R s s).
Context (Rtrans : ∀ s1 s2 s3, R s1 s2 → R s2 s3 → R s1 s3).

Lemma respects_ret {A} (a : A) : respects R (ret a).
Proof. intros s a' s' [= _ <-]. apply Rrefl. Qed.
Lemma respects_fault {A} : respects R (@fault A).
Proof. by intros s a s'. Qed.
Lemma respects_panic {A} msg : respects R (@panic A msg).
Proof. by intros s a s'. Qed.
Lemma respects_timeout {A} : respects R (@timeout A).
Proof. by intros s a s'. Qed.
Lemma respects_gets {A} (f : kstate → A) : respects R (gets f).
Proof. intros s a s' [= _ <-]. apply Rrefl. Qed.
Lemma respects_modify f : (∀ s, R s (f s)) → respects R (modify f).
Proof. intros Hf s a s' Hrun. inversion Hrun. apply Hf. Qed.
Lemma respects_bind {A B} (m : K A) (k : A → K B) :
  respects R m → (∀ a, respects R (k a)) → respects R (bind m k).
Proof.
  intros Hm Hk s b s' Hrun. apply bind_inv in Hrun as (a & s1 & H1 & H2).
  eapply Rtrans; [by eapply Hm|by eapply Hk].
Qed.
Lemma respects_if_bool {A} (b : bool) (m1 m2 : K A) :
  respects R m1 → respects R m2 → respects R (if b then m1 else m2).
Proof. by destruct b. Qed.
Lemma respects_if_dec {A} {P : Prop} (d : {P} + {¬ P}) (m1 m2 : K A) :
  respects R m1 → respects R m2 → respects R (if d then m1 else m2).
Proof. by destruct d. Qed.
Lemma respects_get_field {A} (f : page → A) p : respects R (get_field f p).
Proof. intros s a s' Hrun. apply get_field_inv in Hrun as ->. apply Rrefl. Qed.
Lemma respects_read_pte a : respects R (read_pte a).
Proof. intros s e s' Hrun. apply read_pte_inv in Hrun as ->. apply Rrefl. Qed.
Lemma respects_bitmap_get j : respects R (bitmap_get j).
Proof.
  intros s e s'. unfold bitmap_get.
  destruct (swap_bitmap s !! Z.to_nat j); [|done]. intros [= _ <-]. apply Rrefl.
Qed.
Lemma respects_int_incr x : respects R (int_incr x).
Proof. unfold int_incr. apply respects_if_bool; [apply respects_ret|apply respects_fault]. Qed.
Lemma respects_int_decr x : respects R (int_decr x).
Proof. unfold int_decr. apply respects_if_bool; [apply respects_ret|apply respects_fault]. Qed.
Lemma respects_int_shl x n : respects R (int_shl x n).
Proof. unfold int_shl. apply respects_if_bool; [apply respects_ret|apply respects_fault]. Qed.
Lemma respects_upd_page f p :
  (∀ s v, R s (set_pages v s)) → respects R (upd_page f p).
Proof.
  intros Hp s a s'. unfold upd_page. destruct p as [i|]; [|done].
  destruct (pages s !! i); [|done]. intros [= _ <-]. apply Hp.
Qed.
Lemma respects_write_pte a v :
  (∀ s, R s (set_ptes (<[a := v]> (ptes s)) s)) → respects R (write_pte a v).
Proof.
  intros Hp s e s'. unfold write_pte. destruct (a =? 0); [done|].
  intros [= _ <-]. apply Hp.
Qed.
Lemma respects_bitmap_set j v :
  (∀ s v, R s (set_swap_bitmap v s)) → respects R (bitmap_set j v).
Proof.
  intros Hp s e s'. unfold bitmap_set.
  destruct (swap_bitmap s !! Z.to_nat j); [|done]. intros [= _ <-]. apply Hp.
Qed.

(** The list operations, for a relation that ignores the list. *)
Context (Hpages : ∀ s v, R s (set_pages v s)).
Context (Hhead : ∀ s v, R s (set_page_lru_head v s)).
Context (Hnum : ∀ s v, R s (set_num_lru_pages v s)).

Ltac solve_respects :=
  repeat first
    [ progress intros
    | apply respects_bind
    | apply respects_if_bool
    | apply respects_if_dec
    | apply respects_ret | apply respects_gets | apply respects_fault
    | apply respects_get_field | apply respects_read_pte
    | apply respects_int_incr | apply respects_int_decr
    | apply respects_upd_page; exact Hpages
    | apply respects_modify; intros; first [apply Hhead|apply Hnum] ].

Lemma respects_unlink pg : respects R (unlink pg).
Proof. unfold unlink, get_next, get_prev, put_next, put_prev. solve_respects. Qed.
Lemma respects_link_before_head pg : respects R (link_before_head pg).
Proof. unfold link_before_head, get_next, get_prev, put_next, put_prev. solve_respects. Qed.
Lemma respects_lru_add pg : respects R (lru_add pg).
Proof.
  unfold lru_add, put_next, put_prev. solve_respects.
Qed.
Lemma respects_lru_remove pg : respects R (lru_remove pg).
Proof.
  unfold lru_remove, get_next, put_next, put_prev. solve_respects.
Qed.
Lemma respects_lru_move_to_tail_locked pg : respects R (lru_move_to_tail_locked pg).
Proof.
  unfold lru_move_to_tail_locked, get_next. solve_respects.
Qed.

Section RespectsScan.
Context (M : machine).
(** The second chance clears the Accessed flag of a Valid entry. *)
Context (Hclear : ∀ s pte,
            pte ≠ 0 → Z.land (default 0 (ptes s !! pte)) PTE_V ≠ 0 →
            R s (set_ptes (<[pte := clear_bits (default 0 (ptes s !! pte)) PTE_A]>
                             (ptes s)) s)).

Lemma respects_scan_again loop curr rounds :
  (∀ c r, respects R (loop c r)) → respects R (scan_again loop curr rounds).
Proof. intros Hloop. unfold scan_again. solve_respects. apply Hloop. Qed.

Lemma respects_scan_skip loop curr rounds :
  (∀ c r, respects R (loop c r)) → respects R (scan_skip loop curr rounds).
Proof.
  intros Hloop. unfold scan_skip, get_next. solve_respects; try apply Hloop.
Qed.

Lemma respects_scan_loop fuel : ∀ curr rounds, respects R (scan_loop M fuel curr rounds).
Proof.
  induction fuel as [|fuel IH]; intros curr rounds; [apply respects_timeout|].
  intros s v s' Hrun.
  change (scan_body M (scan_loop M fuel) curr rounds s = Done v s') in Hrun.
  unfold scan_body in Hrun.
  inv_bind Hrun. apply get_field_inv in Hstep as ->. rename a into pt.
  inv_bind Hrun. apply get_field_inv in Hstep as ->. rename a into va.
  destruct ((pt =? 0) || (va =? 0)).
  { by eapply respects_scan_skip. }
  inv_bind Hrun. rename a into stale.
  assert (s0 = s ∧ (stale = false →
            walk M pt va ≠ 0 ∧
            Z.land (default 0 (ptes s !! walk M pt va)) PTE_V ≠ 0)) as [-> Hlive].
  { destruct (walk M pt va =? 0) eqn:Hw.
    - injection Hstep as <- <-. done.
    - inv_bind Hstep. apply read_pte_value in Hstep0 as (Hnz & -> & ->).
      injection Hstep as <- <-. split; [done|]. intros Hv%Z.eqb_neq. done. }
  destruct stale.
  { by eapply respects_scan_skip. }
  destruct Hlive as [Hw Hvalid]; [done|].
  inv_bind Hrun. apply read_pte_value in Hstep0 as (_ & -> & ->).
  destruct (Z.land (default 0 (ptes s !! walk M pt va)) PTE_A =? 0).
  { injection Hrun as _ <-. apply Rrefl. }
  inv_bind Hrun. apply read_pte_value in Hstep0 as (_ & -> & ->).
  inv_bind Hrun.
  assert (s0 = set_ptes (<[walk M pt va
                           := clear_bits (default 0 (ptes s !! walk M pt va)) PTE_A]>
                           (ptes s)) s) as ->.
  { unfold write_pte in Hstep0. apply Z.eqb_neq in Hw. rewrite Hw in Hstep0.
    by injection Hstep0 as <-. }
  eapply Rtrans; [apply (Hclear s (walk M pt va)); done|].
  inv_bind Hrun. eapply Rtrans; [by eapply respects_lru_move_to_tail_locked|].
  inv_bind Hrun. apply get_field_inv in Hstep2 as ->.
  inv_bind Hrun.
  assert (s1 = s0) as ->.
  { unfold int_incr in Hstep2. destruct (rounds <? INT_MAX); [|done].
    by injection Hstep2 as _ <-. }
  by eapply respects_scan_again.
Qed.

End RespectsScan.
End Respects.

(** *** The console *)

Lemma same_console_refl s : same_console s s.
Proof. done. Qed.
Lemma same_console_trans s1 s2 s3 :
  same_console s1 s2 → same_console s2 s3 → same_console s1 s3.
Proof. unfold same_console. congruence. Qed.

Ltac quiet :=
  repeat first
    [ exact same_console_refl
    | exact same_console_trans
    | progress intros
    | exact eq_refl
    | apply respects_bind
    | apply respects_if_bool
    | apply respects_if_dec
    | apply respects_ret | apply respects_gets | apply respects_fault
    | apply respects_panic
    | apply respects_get_field | apply respects_read_pte
    | apply respects_bitmap_get
    | apply respects_int_incr | apply respects_int_decr | apply respects_int_shl
    | apply respects_upd_page
    | apply respects_write_pte
    | apply respects_bitmap_set
    | apply respects_modify
    | apply respects_lru_remove ].

Section Quiet.
Context (M : machine).

Lemma quiet_kfree pa : respects same_console (kfree M pa).
Proof. unfold kfree, memset, set_run_next. quiet. Qed.

Lemma quiet_swap_alloc_from n : ∀ i, respects same_console (swap_alloc_from n i).
Proof. induction n as [|n IH]; intros i; simpl; quiet. apply IH. Qed.

Lemma quiet_swap_free blkno : respects same_console (swap_free M blkno).
Proof. unfold swap_free. quiet. Qed.

Lemma quiet_scan_loop fuel curr rounds :
  respects same_console (scan_loop M fuel curr rounds).
Proof. apply respects_scan_loop; quiet. Qed.

Lemma quiet_swapout_victim victim : respects same_console (swapout_victim M victim).
Proof.
  unfold swapout_victim, swap_alloc, swapwrite. quiet;
    first [apply quiet_swap_alloc_from|apply quiet_swap_free|apply quiet_kfree].
Qed.

Lemma quiet_swapout : respects same_console (swapout M).
Proof.
  unfold swapout. quiet;
    first [apply quiet_scan_loop|unfold swap_alloc; apply quiet_swap_alloc_from].
Qed.

Lemma kfree_inv pa s s' :
  kfree M pa s = Done tt s' → frame_addr M pa ∧ freelist s' = pa.
Proof.
  intros Hrun.
  destruct (decide (pa mod PGSIZE ≠ 0 ∨ pa < kend M ∨ PHYSTOP M ≤ pa)) as [Hbad|Hok].
  { by rewrite kfree_panic in Hrun. }
  assert (frame_addr M pa) as Hfa by (unfold frame_addr; lia).
  destruct Hfa as [Hal Hr].
  rewrite kfree_run in Hrun by done. injection Hrun as <-. done.
Qed.

(** A successful [swapout] ends in [kfree]: the free list is not empty. *)
Lemma swapout_victim_freed victim s rc s' :
  swapout_victim M victim s = Done rc s' → 0 ≤ rc →
  rc = 0 ∧ frame_addr M (freelist s').
Proof.
  intros Hrun Hrc. unfold swapout_victim in Hrun.
  inv_bind Hrun. rename a into blk.
  destruct (blk <? 0).
  { injection Hrun as <- _. lia. }
  inv_bind Hrun. inv_bind Hrun. inv_bind Hrun. rename a1 into stale.
  destruct stale.
  { inv_bind Hrun. injection Hrun as <- _. lia. }
  do 6 inv_bind Hrun. inv_bind Hrun.
  injection Hrun as <- <-. split; [done|].
  destruct a7. apply kfree_inv in Hstep9 as [Hfa ->]. done.
Qed.

Lemma swapout_freed s rc s' :
  swapout M s = Done rc s' → 0 ≤ rc → rc = 0 ∧ frame_addr M (freelist s').
Proof.
  intros Hrun Hrc. unfold swapout in Hrun.
  inv_bind Hrun. inv_bind Hrun.
  destruct (decide (a0 = None)).
  { injection Hrun as <- _. lia. }
  inv_bind Hrun. inv_bind Hrun.
  destruct (decide (a2 = None)).
  { injection Hrun as <- _. lia. }
  by eapply swapout_victim_freed.
Qed.

End Quiet.

(** X21.  [kalloc] never fails silently: when [end] is above address
    0, a call that returns null found the free list empty and printed
    the out-of-memory line, and a call that returns a page printed
    nothing and filled the page with the junk byte 5. *)
Theorem kalloc_null_iff_reported (M : machine) (s : kstate) (r : Z) (s' : kstate) :
  0 < kend M → kalloc M s = Done r s' →
  (r = 0 →
   freelist s = 0 ∧
   console s' = console s ++ ["kalloc: out of memory" +:+ newline]) ∧
  (r ≠ 0 → console s' = console s ∧ load_page s' r = fill 5).
Proof.
  intros Hk Hrun.
  destruct (decide (freelist s = 0)) as [Hfl|Hfl].
  - destruct (kalloc_empty_inv M s r s' Hfl Hrun) as (rc & s1 & Hout).
    pose proof (quiet_swapout M s rc s1 Hout) as Hcon. unfold same_console in Hcon.
    rewrite (kalloc_empty M s rc s1 Hfl Hout) in Hrun.
    destruct (rc <? 0) eqn:Hrc.
    + injection Hrun as <- <-. simpl_state. rewrite Hcon. done.
    + destruct (swapout_freed M s rc s1 Hout ltac:(lia)) as (_ & _ & Hfr).
      rewrite (proj2 (Z.eqb_neq (freelist s1) 0)) in Hrun by lia.
      injection Hrun as <- <-. split; [lia|]. intros _.
      rewrite kalloc_finish_nonzero by lia. simpl_state. split; [done|].
      unfold load_page. simpl_state. by rewrite lookup_insert_eq.
  - rewrite kalloc_nonempty in Hrun by done. injection Hrun as <- <-.
    split; [done|]. intros _.
    rewrite kalloc_finish_nonzero by done. simpl_state. split; [done|].
    unfold load_page. simpl_state. by rewrite lookup_insert_eq.
Qed.

(** [kalloc] at boot. *)
Lemma kalloc_null_iff_reported_witness :
  ∃ s', kalloc qemu boot_state = Done 0 s' ∧
        freelist boot_state = 0 ∧
        console s' = console boot_state ++ ["kalloc: out of memory" +:+ newline].
Proof.
  eexists. split; [reflexivity|].
  apply (proj1 (kalloc_null_iff_reported qemu boot_state 0 _ eq_refl eq_refl) eq_refl).
Defined.

(** *** What is swapped out *)

Lemma swapped_kept_refl s : swapped_kept s s.
Proof. done. Qed.
Lemma swapped_kept_trans s1 s2 s3 :
  swapped_kept s1 s2 → swapped_kept s2 s3 → swapped_kept s1 s3.
Proof.
  intros (Hb1 & Hd1 & He1) (Hb2 & Hd2 & He2). split_and!; [congruence..|].
  intros a Ha. rewrite He2, He1; [done..|]. by rewrite He1.
Qed.

Section Swapped.
Context (M : machine).

Lemma swapped_kept_scan_loop fuel curr rounds :
  respects swapped_kept (scan_loop M fuel curr rounds).
Proof.
  apply respects_scan_loop;
    [exact swapped_kept_refl|exact swapped_kept_trans|done..|].
  intros s pte Hpte Hvalid. split_and!; [done..|].
  intros a Ha. simpl_state. apply lookup_insert_ne. by intros ->.
Qed.

Lemma swapout_failure_keeps s rc s' :
  bitmap_bytes s → swapout M s = Done rc s' → rc < 0 → swapped_kept s s'.
Proof.
  intros Hbytes Hrun Hrc. unfold swapout in Hrun.
  inv_bind Hrun. unfold modify in Hstep. injection Hstep as _ <-.
  inv_bind Hrun. unfold gets in Hstep. injection Hstep as <- <-.
  destruct (decide (page_lru_head s = None)).
  { unfold ret in Hrun. by injection Hrun as _ <-. }
  inv_bind Hrun. unfold gets in Hstep. injection Hstep as <- <-.
  inv_bind Hrun. rename a0 into victim.
  pose proof (swapped_kept_scan_loop _ _ _ _ _ _ Hstep) as Hkept.
  destruct (decide (victim = None)).
  { unfold ret in Hrun. by injection Hrun as _ <-. }
  destruct (swapout_victim_result M victim s0 rc s') as [->|[_ ->]]; [|done|lia|done].
  destruct Hkept as (Hbm & _). unfold bitmap_bytes. by rewrite Hbm.
Qed.

Lemma kalloc_null_keeps s s' :
  0 < kend M → bitmap_bytes s → kalloc M s = Done 0 s' → swapped_kept s s'.
Proof.
  intros Hk Hbytes Hrun.
  destruct (decide (freelist s = 0)) as [Hfl|Hfl].
  2:{ rewrite kalloc_nonempty in Hrun by done. by injection Hrun as ? _. }
  destruct (kalloc_empty_inv M s 0 s' Hfl Hrun) as (rc & s1 & Hout).
  rewrite (kalloc_empty M s rc s1 Hfl Hout) in Hrun.
  destruct (rc <? 0) eqn:Hrc.
  - injection Hrun as <-. apply Z.ltb_lt in Hrc.
    by apply (swapout_failure_keeps s rc s1).
  - destruct (swapout_freed M s rc s1 Hout ltac:(lia)) as (_ & _ & Hfr).
    rewrite (proj2 (Z.eqb_neq (freelist s1) 0)) in Hrun by lia.
    injection Hrun as ? _. lia.
Qed.

End Swapped.

(** X22.  A failed [swapin] loses nothing: it returns -1, the swap
    bitmap and the swap area are as they were, and every translation
    entry that was not Valid, the faulting one among them, is unchanged,
    so the fault can be taken again. *)
Theorem swapin_failure_keeps_page_swapped (M : machine) (pt va pte : Z)
    (s : kstate) (rc : Z) (s' : kstate) :
  0 < kend M → bitmap_bytes s →
  swapin M pt va pte s = Done rc s' → rc ≠ 0 →
  rc = -1 ∧
  swap_bitmap s' = swap_bitmap s ∧ swapdisk s' = swapdisk s ∧
  (∀ a, Z.land (default 0 (ptes s !! a)) PTE_V = 0 → ptes s' !! a = ptes s !! a).
Proof.
  intros Hk Hbytes Hrun Hrc. unfold swapin in Hrun.
  inv_bind Hrun. apply read_pte_inv in Hstep as ->.
  destruct ((to_int (Z.shiftr a 10) <? 0) || (to_int (Z.shiftr a 10) >=? SWAP_PAGES M)).
  { by injection Hrun as <- <-. }
  inv_bind Hrun. rename a0 into pa.
  destruct (pa =? 0) eqn:Hpa.
  - apply Z.eqb_eq in Hpa as ->. injection Hrun as <- <-.
    split; [done|]. by apply (kalloc_null_keeps M).
  - do 5 inv_bind Hrun. injection Hrun as <- _. done.
Qed.

(** A fault on slot 5 with no memory left. *)
Lemma swapin_failure_keeps_page_swapped_witness :
  ∃ s', swapin qemu leaf_table 0x4000 (entry_of 0x4000)
          (set_ptes (<[entry_of 0x4000 := 0x1416]> ∅) boot_state) = Done (-1) s' ∧
        swap_bitmap s' = swap_bitmap boot_state ∧
        ptes s' !! entry_of 0x4000 = Some 0x1416.
Proof.
  assert (∃ s', swapin qemu leaf_table 0x4000 (entry_of 0x4000)
                  (set_ptes (<[entry_of 0x4000 := 0x1416]> ∅) boot_state)
                = Done (-1) s') as [s' Hrun].
  { eexists. vm_compute. reflexivity. }
  exists s'. split; [exact Hrun|].
  destruct (swapin_failure_keeps_page_swapped qemu leaf_table 0x4000 (entry_of 0x4000)
              (set_ptes (<[entry_of 0x4000 := 0x1416]> ∅) boot_state) (-1) s')
    as (_ & Hbm & _ & He).
  - reflexivity.
  - by apply Forall_replicate.
  - exact Hrun.
  - done.
  - split; [exact Hbm|]. rewrite He; reflexivity.
Defined.

(** ** The slot after a fault fill *)

Lemma swap_free_frees (M : machine) (r : Z) (s s' : kstate) :
  0 ≤ r < SWAP_PAGES M → swap_free M r s = Done tt s' →
  slot_bit s' r = Some false.
Proof.
  intros Hr Hrun. unfold swap_free in Hrun.
  replace ((r <? 0) || (r >=? SWAP_PAGES M)) with false in Hrun.
  2:{ symmetry. apply orb_false_iff. rewrite Z.ltb_ge, Z.geb_leb, Z.leb_gt. lia. }
  inv_bind Hrun. unfold bitmap_get in Hstep.
  destruct (swap_bitmap s !! Z.to_nat (r / 8)) as [b|] eqn:Hb; [|done].
  injection Hstep as <- <-.
  rewrite (bitmap_set_run _ _ _ _ Hb) in Hrun. injection Hrun as <-.
  rewrite slot_bit_cleared by (done || lia). by rewrite decide_True.
Qed.

Lemma swapin_done_frees_slot (M : machine) (pt va pte : Z) (s s' : kstate) :
  swapin M pt va pte s = Done 0 s' →
  slot_bit s' (to_int (Z.shiftr (default 0 (ptes s !! pte)) 10)) = Some false.
Proof.
  intros Hrun. unfold swapin in Hrun.
  inv_bind Hrun. apply read_pte_value in Hstep as (_ & -> & ->).
  destruct ((to_int (Z.shiftr (default 0 (ptes s !! pte)) 10) <? 0)
            || (to_int (Z.shiftr (default 0 (ptes s !! pte)) 10) >=? SWAP_PAGES M))
    eqn:Hout.
  { by injection Hrun as ? _. }
  apply orb_false_iff in Hout as [Hlo Hhi].
  apply Z.ltb_ge in Hlo. rewrite Z.geb_leb in Hhi. apply Z.leb_gt in Hhi.
  inv_bind Hrun. destruct (a =? 0).
  { by injection Hrun as ? _. }
  do 5 inv_bind Hrun. unfold ret in Hrun. injection Hrun as <-.
  match goal with
  | H : swap_free _ _ _ = Done ?u _ |- _ =>
      destruct u; by apply (swap_free_frees M) in H
  end.
Qed.

(** X23.  A successful [swapin] releases the slot it read and enrolls
    the frame as the most recently used one: the slot is free again, the
    frame is the tail of the LRU list and is owned by the faulting page
    table and address, and [num_lru_pages] is one higher. *)
Theorem swapin_releases_slot (M : machine) (st : kstate) (l : list nat)
    (v : nat) (pt va pte blk pa : Z) :
  lru_inv st l → v ∉ l →
  pte ≠ 0 →
  to_int (Z.shiftr (default 0 (ptes st !! pte)) 10) = blk →
  0 ≤ blk < SWAP_PAGES M →
  freelist st = pa → pa ≠ 0 → pa2page M pa = Some v →
  (v < length (pages st))%nat →
  slot_bit st blk = Some true →
  ∃ s', swapin M pt va pte st = Done 0 s' ∧
        slot_bit s' blk = Some false ∧
        lru_inv s' (l ++ [v]) ∧
        last (l ++ [v]) = Some v ∧
        owner_of (pages s') v = Some (pt, va) ∧
        num_lru_pages s' = num_lru_pages st + 1.
Proof.
  intros Hinv Hv Hpte Hblk Hrange Hfl Hpa Hpg Hvlt Hused.
  destruct (swapin_run M st l v pt va pte blk pa) as (s' & Hrun & _ & _ & Hinv' & Hown);
    try done.
  { unfold slot_bit in Hused.
    destruct (swap_bitmap st !! Z.to_nat (blk / 8)); [by eexists|done]. }
  exists s'. split_and!; try done.
  - rewrite <- Hblk. by eapply swapin_done_frees_slot.
  - by rewrite last_snoc.
  - rewrite (inv_num _ _ Hinv'), (inv_num _ _ Hinv), length_app. simpl. lia.
Qed.

(** A fault on slot 5 with frame 3 free. *)
Lemma swapin_releases_slot_witness :
  ∃ s', swapin qemu leaf_table 0x4000 (entry_of 0x4000)
          (set_swap_bitmap (replicate 875 255)
             (set_ptes (<[entry_of 0x4000 := 0x1416]> (ptes fault_on_bad_slot))
                fault_on_bad_slot)) = Done 0 s' ∧
        slot_bit s' 5 = Some false ∧
        lru_inv s' [0; 1; 2; 3]%nat.
Proof.
  destruct (swapin_releases_slot qemu
              (set_swap_bitmap (replicate 875 255)
                 (set_ptes (<[entry_of 0x4000 := 0x1416]> (ptes fault_on_bad_slot))
                    fault_on_bad_slot))
              [0; 1; 2]%nat 3 leaf_table 0x4000 (entry_of 0x4000) 5 (frame_pa 3))
    as (s' & Hrun & Hbit & Hinv & _).
  - apply (lru_inv_ext (three_frames 0x57 0x57 0x57)); [done..|].
    apply three_frames_inv.
  - compute_done.
  - by vm_compute.
  - by vm_compute.
  - split; [lia|reflexivity].
  - reflexivity.
  - by vm_compute.
  - reflexivity.
  - simpl. lia.
  - reflexivity.
  - by exists s'.
Defined.

(** ** The bound of the clock scan *)

(** X24.  In every state, also with a corrupt ring, the loop of
    [swapout] runs its body at most [num_lru_pages + 1] times: with that
    many iterations allowed it never runs out, and allowing more does
    not change the outcome. *)
Theorem scan_bounded_in_every_state (M : machine) (s : kstate) (fuel : nat) :
  (scan_fuel s ≤ fuel)%nat →
  scan_loop M fuel (page_lru_head s) 0 s
  = scan_loop M (scan_fuel s) (page_lru_head s) 0 s ∧
  scan_loop M (scan_fuel s) (page_lru_head s) 0 s ≠ Timeout.
Proof.
  intros Hfuel. split; [|apply scan_never_out_of_fuel].
  induction Hfuel as [|fuel Hfuel IH]; [done|].
  destruct (scan_loop_more_fuel M fuel (page_lru_head s) 0 s) as [Hout|Heq].
  - rewrite IH in Hout. by apply scan_never_out_of_fuel in Hout.
  - by rewrite <- Heq.
Qed.

(** Ten iterations allowed where four are enough. *)
Lemma scan_bounded_in_every_state_witness :
  scan_loop qemu 10 (page_lru_head all_accessed) 0 all_accessed
  = scan_loop qemu (scan_fuel all_accessed) (page_lru_head all_accessed) 0 all_accessed.
Proof.
  apply (scan_bounded_in_every_state qemu all_accessed 10).
  unfold scan_fuel. simpl. lia.
Defined.
